(** * cellular_logger: polling engine, writers and statistics

    A shallow embedding of the Go packages [cellularlog] (log.go and the
    processor file), [pkg/mavlink] and [pkg/AT].

    Go objects that are shared through pointers (messages, the writer) live
    in an explicit store; the calls a function makes through an interface it
    does not own (Writer, stdout, the clock, the serial back ends) are taken
    from, or recorded in, an explicit environment. *)

From Stdlib Require Import ZArith List String Ascii Lia Bool.
From Stdlib Require Strings.Byte.
From Stdlib Require Import Floats.SpecFloat.
From stdpp Require Import gmap strings list pretty.

Local Open Scope Z_scope.
Set Warnings "-register-all,-clear-no-such-hyp".

(** ** Go prelude: machine integers, errors, results, time *)

Module Go.

(** Fixed-width integers are carried as [Z]; every operation that can
    leave the range writes its wrap-around out. *)
Definition uint64 (z : Z) : Z := z mod 2 ^ 64.
Definition uint32 (z : Z) : Z := z mod 2 ^ 32.
Definition int64 (z : Z) : Z := (z + 2 ^ 63) mod 2 ^ 64 - 2 ^ 63.

Definition maxDuration : Z := 2 ^ 63 - 1.
Definition minDuration : Z := - 2 ^ 63.

(** [time.Time] as nanoseconds on the program's clock; [time.Duration]
    is an int64 count of nanoseconds. *)
Definition Time := Z.
Definition Duration := Z.

(** [Time.Sub] saturates instead of overflowing. *)
Definition Sub (t u : Time) : Duration :=
  Z.max minDuration (Z.min maxDuration (t - u)).

(** A Go pointer: [None] is nil. *)
Definition addr := positive.
Definition pointer := option addr.

(** The [error] interface. [New] stands for [errors.New] and for the
    errors the libraries hand back, [Errorf] for
    [fmt.Errorf(prefix + ": %w", wrapped)]. A nil error is [None] of
    [option error]. *)
Inductive error :=
| New (text : string)
| Errorf (prefix : string) (wrapped : error)
| Multi (errs : list error).

Fixpoint Error (e : error) : string :=
  match e with
  | New s => s
  | Errorf p w => p +:+ ": " +:+ Error w
  | Multi es =>
      (fix join (l : list error) : string :=
         match l with
         | [] => ""
         | x :: r => Error x +:+ "; " +:+ join r
         end) es
  end.

(** What a call does: it returns, it is still waiting when the
    environment's script ends, or it panics (nothing in the repository
    recovers, so a panic ends the process). *)
Inductive Result (A : Type) :=
| Returned (a : A)
| Blocked
| Panic (reason : string).
Arguments Returned {A} a.
Arguments Blocked {A}.
Arguments Panic {A} reason.

Definition bind {A B} (c : Result A) (k : A -> Result B) : Result B :=
  match c with
  | Returned a => k a
  | Blocked => Blocked
  | Panic r => Panic r
  end.

(** float64 as the IEEE 754 binary64 format of the Standard Library's
    executable specification; conversion from an integer rounds to
    nearest even. *)
Definition float64 := spec_float.
Definition float64_of_int (n : Z) : float64 := binary_normalize 53 1024 n 0 false.
Definition float64_div : float64 -> float64 -> float64 := SFdiv 53 1024.
Definition float64_mul : float64 -> float64 -> float64 := SFmul 53 1024.
Definition float64_zero : float64 := S754_zero false.

Definition nilDeref : string :=
  "runtime error: invalid memory address or nil pointer dereference".

End Go.

#[global] Instance Result_bind : MBind Go.Result := fun A B k c => Go.bind c k.
#[global] Instance Result_ret : MRet Go.Result := fun A a => Go.Returned a.

(** The aggregate of internal/multierr. *)
Module multierr.

(** Modelled from the spec: package internal/multierr is not among the
    sources. The spec has the tick loop and Close "accumulate any errors
    into a combined error value"; [Append] keeps the components in call
    order and never returns nil for a non-nil addition. *)
Definition Append (err : option Go.error) (e : Go.error) : option Go.error :=
  match err with
  | None => Some (Go.Multi [e])
  | Some (Go.Multi es) => Some (Go.Multi (es ++ [e]))
  | Some other => Some (Go.Multi [other; e])
  end.

End multierr.

(** The part of gomavlib the message code touches: decoded messages, the
    node's events, and what one pass through the [select] of
    [Message.Process] received. *)
Module gomavlib.

(** A Go type that implements [message.Message], with the constant its
    [GetID] returns (for instance [*common.MessageHeartbeat], 0). *)
Record MsgType := { TypeName : string; GetID : Z }.

(** A decoded message: its dynamic type and its field values. *)
Record message := { dynType : MsgType; fields : list Z }.

Inductive Event :=
| EventFrame (msg : message)
| EventOther (name : string).

#[global] Instance MsgType_eq_dec : EqDecision MsgType.
Proof. solve_decision. Defined.

End gomavlib.

(** An open file: what has been written to it, how much more the device
    takes ([None]: no limit) and whether it has been closed. A write that
    does not fit is a short write that reports an error; a closed file
    refuses writes and a second close. *)
Module os.

Record File (X : Type) := {
  written : list X;
  space : option nat;
  closed : bool
}.
Arguments written {X} f.
Arguments space {X} f.
Arguments closed {X} f.

Definition ENOSPC : Go.error := Go.New "no space left on device".
Definition ErrClosed : Go.error := Go.New "file already closed".

Definition Write {X} (f : File X) (b : list X) : File X * option Go.error :=
  if closed f then (f, Some ErrClosed)
  else
    match space f with
    | None => ({| written := written f ++ b; space := None; closed := false |}, None)
    | Some n =>
        if (length b <=? n)%nat
        then ({| written := written f ++ b; space := Some (n - length b)%nat;
                 closed := false |}, None)
        else ({| written := written f ++ take n b; space := Some O;
                 closed := false |}, Some ENOSPC)
    end.

Definition Close {X} (f : File X) : File X * option Go.error :=
  if closed f then (f, Some ErrClosed)
  else ({| written := written f; space := space f; closed := true |}, None).

Definition Create {X} (space : option nat) : File X :=
  {| written := []; space := space; closed := false |}.

End os.

(** The [bufio.Writer] that [csv.NewWriter] puts in front of the file: the
    file, the bytes not yet handed to it and the first error met, which
    every later call returns without writing. *)
Module bufio.

Record Writer := {
  wr : os.File Byte.byte;
  buf : list Byte.byte;
  err : option Go.error
}.

Definition defaultBufSize : Z := 4096.

Definition NewWriter (f : os.File Byte.byte) : Writer :=
  {| wr := f; buf := []; err := None |}.

Definition Available (b : Writer) : Z := defaultBufSize - Z.of_nat (length (buf b)).

(** [Flush]: nothing is written for an empty buffer; after a short write
    the bytes that went out leave the buffer and the error stays. *)
Definition Flush (b : Writer) : Writer * option Go.error :=
  match err b with
  | Some e => (b, Some e)
  | None =>
      match buf b with
      | [] => (b, None)
      | _ :: _ =>
          match os.Write (wr b) (buf b) with
          | (f, None) => ({| wr := f; buf := []; err := None |}, None)
          | (f, Some e) =>
              let n := (length (os.written f) - length (os.written (wr b)))%nat in
              ({| wr := f; buf := drop n (buf b); err := Some e |}, Some e)
          end
      end
  end.

(** [WriteString], which [WriteByte] and [WriteRune] of an ASCII rune
    agree with on one byte. A string that fits is copied to the buffer.
    One that does not fit goes straight to the file when the buffer is
    empty (an [*os.File] has [WriteString]); otherwise the buffer is filled
    and flushed and the rest then fits or goes straight to the file: a
    successful [Flush] leaves the buffer empty, so the loop of the library
    takes two passes at most. *)
Definition WriteString (b : Writer) (s : list Byte.byte) : Writer * option Go.error :=
  match err b with
  | Some e => (b, Some e)
  | None =>
      if Z.of_nat (length s) <=? Available b
      then ({| wr := wr b; buf := buf b ++ s; err := None |}, None)
      else
        match buf b with
        | [] =>
            let '(f, e) := os.Write (wr b) s in
            ({| wr := f; buf := []; err := e |}, e)
        | _ :: _ =>
            let room := Z.to_nat (Available b) in
            match Flush {| wr := wr b; buf := buf b ++ take room s; err := None |} with
            | (b, Some e) => (b, Some e)
            | (b, None) =>
                let rest := drop room s in
                if Z.of_nat (length rest) <=? Available b
                then ({| wr := wr b; buf := buf b ++ rest; err := None |}, None)
                else
                  let '(f, e) := os.Write (wr b) rest in
                  ({| wr := f; buf := []; err := e |}, e)
            end
        end
  end.

(** What was handed to the writer is accounted for: all of [stream] is in
    the file or in the buffer, or, once an error was met, the file holds a
    part of it from its start. *)
Definition accounts (b : Writer) (stream : list Byte.byte) : Prop :=
  match err b with
  | None => os.written (wr b) ++ buf b = stream
  | Some _ => os.written (wr b) `prefix_of` stream
  end.

(** No error so far, on an open file whose device takes everything. *)
Definition roomy (b : Writer) : Prop :=
  os.space (wr b) = None /\ os.closed (wr b) = false /\ err b = None.

End bufio.

(** ** Package cellularlog: data model and interfaces *)

Module cellularlog.

(** The values the program stores in an [interface{}] field. *)
Inductive any :=
| AnyNil
| AnyStrings (info : list string)
| AnyMessage (msg : gomavlib.message).

Record LogEntry := {
  Index : Z;
  MessageType : string;
  MessageID : any;
  Success : bool;
  Data : any;
  Error : string;
  Metadata : gmap string any;
  RequestTime : Go.Time;
  ResponseTime : Go.Time;
  Duration : Go.Duration
}.

Definition set_Error (log : LogEntry) (e : string) : LogEntry :=
  {| Index := Index log; MessageType := MessageType log;
     MessageID := MessageID log; Success := Success log; Data := Data log;
     Error := e; Metadata := Metadata log; RequestTime := RequestTime log;
     ResponseTime := ResponseTime log; Duration := Duration log |}.

(** The four assignments of a success path: [log.Success = true],
    [log.Data = d], [log.ResponseTime = now],
    [log.Duration = log.ResponseTime.Sub(log.RequestTime)]. *)
Definition set_response (log : LogEntry) (d : any) (now : Go.Time) : LogEntry :=
  {| Index := Index log; MessageType := MessageType log;
     MessageID := MessageID log; Success := true; Data := d;
     Error := Error log; Metadata := Metadata log;
     RequestTime := RequestTime log; ResponseTime := now;
     Duration := Go.Sub now (RequestTime log) |}.

(** [LogEntry{Index: i, MessageType: ty, Success: false, RequestTime: t}];
    the other fields are zero values. *)
Definition new_log (i : Z) (ty : string) (t : Go.Time) : LogEntry :=
  {| Index := i; MessageType := ty; MessageID := AnyNil; Success := false;
     Data := AnyNil; Error := ""; Metadata := ∅; RequestTime := t;
     ResponseTime := 0; Duration := 0 |}.

(** A non-nil [Requester] interface value: its dynamic type, one of the
    two implementations [*mavlink.Mavlink] and [*AT.AT], and the pointer,
    which can itself be nil. A nil interface is [None : option Requester]. *)
Inductive Requester :=
| ptr_Mavlink (p : Go.pointer)
| ptr_AT (p : Go.pointer).

Record Processor := {
  Mavlink : option Requester;
  AT : option Requester;
  messages : gset Go.addr;
  interval : Go.Duration;
  writer : bool;          (* p.writer != nil *)
  ctx : bool;             (* p.ctx is done *)
  cancel : bool;          (* p.cancel != nil *)
  once : bool;            (* p.once has run *)
  wg : nat;               (* loops started and not yet exited *)
  logBatchSize : Z;
  logBuffer : list LogEntry
}.

(** [ctx.Err()] of a context that is done. *)
Inductive ctxErr := Canceled | DeadlineExceeded.

(** What one pass through the [select] of a telemetry request received. *)
Inductive Selected :=
| LifetimeDone                               (* <-m.ctx.Done() *)
| TimeoutDone (why : ctxErr)                 (* <-ctx.Done(), ctx.Err() *)
| Received (event : option gomavlib.Event).  (* <-r.node.Events(); None: closed *)

(** What the environment supplies to one [Message.Process] call: the two
    readings of [time.Now], the result of [node.WriteMessageAll], what
    each pass through the [select] received, and the result of
    [node.Command]. *)
Record IO := {
  requestNow : Go.Time;
  responseNow : Go.Time;
  WriteMessageAll : option Go.error;
  Selects : list Selected;
  Command : Go.error + list string
}.

Definition Err (why : ctxErr) : Go.error :=
  match why with
  | Canceled => Go.New "context canceled"
  | DeadlineExceeded => Go.New "context deadline exceeded"
  end.

(** What the [select] of a telemetry request finds when it looks: whether
    [m.ctx] is done, whether the per-request context is done (and its
    [Err]), and what [node.Events] has to deliver. Go takes one of the
    cases that can proceed, chosen at random. *)
Record Ready := {
  lifetime : bool;
  timeout : option ctxErr;
  incoming : option (option gomavlib.Event)
}.

Definition can_proceed (r : Ready) (s : Selected) : Prop :=
  match s with
  | LifetimeDone => lifetime r = true
  | TimeoutDone why => timeout r = Some why
  | Received event => incoming r = Some event
  end.

(** The per-request context is a child of [m.ctx]: once the parent is
    cancelled the child is done too. *)
Definition child_follows (r : Ready) : Prop :=
  lifetime r = true -> timeout r <> None.

(** The [Message] interface. *)
Class Message (M : Type) := {
  Request : M -> Processor -> IO -> Go.Result (M * LogEntry * option Go.error);
  Process : M -> option Requester -> IO -> Go.Result (M * LogEntry * option Go.error);
  GetType : M -> string;
  GetAllEntries : M -> list LogEntry
}.

(** Successive calls of [Process] on one message object, each with the
    requester it is handed and its script. *)
Fixpoint Processes {M} `{!Message M} (m : M) (calls : list (option Requester * IO))
    : Go.Result M :=
  match calls with
  | [] => Go.Returned m
  | (requester, io) :: rest =>
      '(m, _, _) ← Process m requester io;
      Processes m rest
  end.

(** The [Writer] interface ([Write] and [io.Closer]); the writer object is
    the state [W]. *)
Class Writer (W : Type) := {
  Write : W -> list LogEntry -> W * option Go.error;
  Close : W -> W * option Go.error
}.

(** *** Writers *)

Section CSVWriter.
(** The formatting done by the libraries: [fmt.Sprintf("%v", v)],
    [Time.Format(time.RFC3339Nano)] and
    [fmt.Sprintf("%.2f", float64(d.Nanoseconds())/1e6)]. *)
Variable Sprint : any -> string.
Variable FormatRFC3339Nano : Go.Time -> string.
Variable SprintMillis : Go.Duration -> string.

(** What [csv.Writer.Write] hands to its [bufio.Writer] for one record,
    call by call: the fields, quoted where they need it, the commas
    between them and the newline at the end. *)
Variable pieces : list string -> list (list Byte.byte).

(** The [csv.Writer] in the field [writer], with the file of the field
    [file] inside its [bufio.Writer]. *)
Record CSVWriter := {
  csv_writer : bufio.Writer;
  header : bool
}.

Definition NewCSVWriter (space : option nat) : CSVWriter :=
  {| csv_writer := bufio.NewWriter (os.Create space); header := false |}.

Definition csv_header : list string :=
  ["index"; "message_type"; "message_id"; "timestamp";
   "success"; "data"; "error"; "request_time";
   "response_time"; "duration_ms"]%string.

Definition csv_record (entry : LogEntry) : list string :=
  [ pretty (Index entry);
    MessageType entry;
    Sprint (MessageID entry);
    (if Success entry then "true" else "false")%string;
    Sprint (Data entry);
    Error entry;
    FormatRFC3339Nano (RequestTime entry);
    FormatRFC3339Nano (ResponseTime entry);
    SprintMillis (Duration entry) ].

(** The line of a record: its pieces, one after the other. *)
Definition csv_line (record : list string) : list Byte.byte :=
  concat (pieces record).

(** [csv.Writer.Write]: it returns at the first piece the buffered writer
    refuses. *)
Fixpoint csv_Write_pieces (b : bufio.Writer) (ps : list (list Byte.byte))
    : bufio.Writer * option Go.error :=
  match ps with
  | [] => (b, None)
  | piece :: rest =>
      match bufio.WriteString b piece with
      | (b, Some err) => (b, Some err)
      | (b, None) => csv_Write_pieces b rest
      end
  end.

Definition csv_Write (b : bufio.Writer) (record : list string)
    : bufio.Writer * option Go.error :=
  csv_Write_pieces b (pieces record).

Fixpoint csv_records (b : bufio.Writer) (entries : list LogEntry)
    : bufio.Writer * option Go.error :=
  match entries with
  | [] => (b, None)
  | entry :: rest =>
      match csv_Write b (csv_record entry) with
      | (b, Some err) => (b, Some err)
      | (b, None) => csv_records b rest
      end
  end.

(** [w.writer.Flush()] and [w.writer.Error()] end the call: what [Write]
    returns then is the error the buffered writer holds. *)
Definition CSVWriter_Write (w : CSVWriter) (entries : list LogEntry)
    : CSVWriter * option Go.error :=
  match (if header w then (csv_writer w, None)
         else csv_Write (csv_writer w) csv_header) with
  | (b, Some err) => ({| csv_writer := b; header := header w |}, Some err)
  | (b, None) =>
      match csv_records b entries with
      | (b, Some err) => ({| csv_writer := b; header := true |}, Some err)
      | (b, None) =>
          let b := (bufio.Flush b).1 in
          ({| csv_writer := b; header := true |}, bufio.err b)
      end
  end.

(** [w.writer.Flush()], then [w.file.Close()]. *)
Definition CSVWriter_Close (w : CSVWriter) : CSVWriter * option Go.error :=
  let b := (bufio.Flush (csv_writer w)).1 in
  let '(f, err) := os.Close (bufio.wr b) in
  ({| csv_writer := {| bufio.wr := f; bufio.buf := bufio.buf b;
                       bufio.err := bufio.err b |};
      header := header w |}, err).

(** Successive calls of [Write] on one writer. *)
Definition CSVWriter_Writes (w : CSVWriter) (batches : list (list LogEntry))
    : CSVWriter :=
  foldl (fun w entries => (CSVWriter_Write w entries).1) w batches.

Definition CSVWriter_Writer : Writer CSVWriter :=
  {| Write := CSVWriter_Write; Close := CSVWriter_Close |}.

End CSVWriter.

Section BinaryWriter.
(** [json.Marshal] on a [LogEntry]: the encoding, or the error the
    library reports for a value it does not support. *)
Variable Marshal : LogEntry -> Go.error + list Byte.byte.

Definition BinaryWriter := os.File Byte.byte.

Definition NewBinaryWriter (space : option nat) : BinaryWriter :=
  os.Create space.

Definition byte_of (z : Z) : Byte.byte :=
  default Byte.x00 (Byte.of_N (Z.to_N (z mod 256))).

(** [binary.LittleEndian] on a uint32. *)
Definition PutUint32 (v : Z) : list Byte.byte :=
  [byte_of v; byte_of (Z.shiftr v 8); byte_of (Z.shiftr v 16);
   byte_of (Z.shiftr v 24)].

(** One record of the stream: the prefix [binary.Write] emits for
    [uint32(len(data))], then the payload. *)
Definition frame (data : list Byte.byte) : list Byte.byte :=
  PutUint32 (Go.uint32 (Z.of_nat (List.length data))) ++ data.

Fixpoint BinaryWriter_Write (w : BinaryWriter) (entries : list LogEntry)
    : BinaryWriter * option Go.error :=
  match entries with
  | [] => (w, None)
  | entry :: rest =>
      match Marshal entry with
      | inl err => (w, Some err)
      | inr data =>
          let length := Go.uint32 (Z.of_nat (List.length data)) in
          match os.Write w (PutUint32 length) with
          | (w, Some err) => (w, Some err)
          | (w, None) =>
              match os.Write w data with
              | (w, Some err) => (w, Some err)
              | (w, None) => BinaryWriter_Write w rest
              end
          end
      end
  end.

Definition BinaryWriter_Close (w : BinaryWriter) : BinaryWriter * option Go.error :=
  os.Close w.

Definition BinaryWriter_Writer : Writer BinaryWriter :=
  {| Write := BinaryWriter_Write; Close := BinaryWriter_Close |}.

End BinaryWriter.

Section JSONWriter.
Variable Marshal : LogEntry -> Go.error + list Byte.byte.

(** The writer's [file]; its [encoder] writes to that file. *)
Definition JSONWriter := os.File Byte.byte.

Definition NewJSONWriter (space : option nat) : JSONWriter := os.Create space.

(** [json.Encoder.Encode]: the encoding [json.Marshal] gives, then a
    newline, handed to the file in one write; an entry the encoder rejects
    writes nothing. *)
Definition Encode (w : JSONWriter) (entry : LogEntry) : JSONWriter * option Go.error :=
  match Marshal entry with
  | inl err => (w, Some err)
  | inr data => os.Write w (data ++ [Byte.x0a])
  end.

Fixpoint JSONWriter_Write (w : JSONWriter) (entries : list LogEntry)
    : JSONWriter * option Go.error :=
  match entries with
  | [] => (w, None)
  | entry :: rest =>
      match Encode w entry with
      | (w, Some err) => (w, Some (Go.Errorf "failed to write JSON entry" err))
      | (w, None) => JSONWriter_Write w rest
      end
  end.

Definition JSONWriter_Close (w : JSONWriter) : JSONWriter * option Go.error :=
  os.Close w.

Definition JSONWriter_Writer : Writer JSONWriter :=
  {| Write := JSONWriter_Write; Close := JSONWriter_Close |}.

End JSONWriter.

Section MultiWriter.
Context {W : Type} `{!Writer W}.

(** [writers]: interface values, each nil or a pointer to a writer object
    in the store; the same object may be listed more than once. *)
Definition MultiWriter := list Go.pointer.

Definition NewMultiWriter (writers : list Go.pointer) : MultiWriter := writers.

Fixpoint MultiWriter_Write_range (store : gmap Go.addr W) (writers : list Go.pointer)
    (entries : list LogEntry) (err : option Go.error)
    : Go.Result (gmap Go.addr W * option Go.error) :=
  match writers with
  | [] => Go.Returned (store, err)
  | None :: _ => Go.Panic Go.nilDeref
  | Some a :: rest =>
      match store !! a with
      | None => Go.Panic Go.nilDeref
      | Some writer =>
          let '(writer, e) := Write writer entries in
          MultiWriter_Write_range (<[a := writer]> store) rest entries
            (match e with
             | Some e => multierr.Append err e
             | None => err
             end)
      end
  end.

Definition MultiWriter_Write (store : gmap Go.addr W) (w : MultiWriter)
    (entries : list LogEntry) : Go.Result (gmap Go.addr W * option Go.error) :=
  MultiWriter_Write_range store w entries None.

Fixpoint MultiWriter_Close_range (store : gmap Go.addr W) (writers : list Go.pointer)
    (err : option Go.error) : Go.Result (gmap Go.addr W * option Go.error) :=
  match writers with
  | [] => Go.Returned (store, err)
  | None :: _ => Go.Panic Go.nilDeref
  | Some a :: rest =>
      match store !! a with
      | None => Go.Panic Go.nilDeref
      | Some writer =>
          let '(writer, e) := Close writer in
          MultiWriter_Close_range (<[a := writer]> store) rest
            (match e with
             | Some e => multierr.Append err e
             | None => err
             end)
      end
  end.

Definition MultiWriter_Close (store : gmap Go.addr W) (w : MultiWriter)
    : Go.Result (gmap Go.addr W * option Go.error) :=
  MultiWriter_Close_range store w None.

End MultiWriter.

(** Modelled from the spec: the repository has no reader for the binary
    stream. The spec gives the format as "repeated [uint32 little-endian
    length][length bytes of JSON-encoded LogEntry]" and has a reader treat
    a truncated final record as the end of the stream: [ReadFrames]
    returns the complete payloads and the bytes left over. *)
Definition Uint32 (b0 b1 b2 b3 : Byte.byte) : Z :=
  Z.of_N (Byte.to_N b0) + 2 ^ 8 * Z.of_N (Byte.to_N b1)
  + 2 ^ 16 * Z.of_N (Byte.to_N b2) + 2 ^ 24 * Z.of_N (Byte.to_N b3).

Fixpoint ReadFrames (fuel : nat) (stream : list Byte.byte)
    : list (list Byte.byte) * list Byte.byte :=
  match fuel, stream with
  | S fuel, b0 :: b1 :: b2 :: b3 :: rest =>
      let n := Z.to_nat (Uint32 b0 b1 b2 b3) in
      if (n <=? List.length rest)%nat then
        let '(frames, leftover) := ReadFrames fuel (drop n rest) in
        (take n rest :: frames, leftover)
      else ([], stream)
  | _, _ => ([], stream)
  end.

Definition ReadAll (stream : list Byte.byte) : list (list Byte.byte) * list Byte.byte :=
  ReadFrames (S (List.length stream)) stream.

(** *** The processor *)

(** The calls the processor makes through interfaces it does not own,
    in program order. *)
Inductive Event :=
| Requested (a : Go.addr) (log : LogEntry) (e : option Go.error)
| Wrote (batch : list LogEntry) (e : option Go.error)
| WriterClosed (e : option Go.error)
| Cancelled
| Printed (text : string).


Fixpoint requested (tr : list Event) : list LogEntry :=
  match tr with
  | [] => []
  | Requested _ log _ :: rest => log :: requested rest
  | _ :: rest => requested rest
  end.

(** How often the context was cancelled, and what the calls of the
    writer's [Close] returned. *)
Fixpoint cancels (tr : list Event) : nat :=
  match tr with
  | [] => 0
  | Cancelled :: rest => S (cancels rest)
  | _ :: rest => cancels rest
  end.

Fixpoint closes (tr : list Event) : list (option Go.error) :=
  match tr with
  | [] => []
  | WriterClosed e :: rest => e :: closes rest
  | _ :: rest => closes rest
  end.

(** The batches handed to [Write], one by one, and the addresses whose
    message was asked, in the order of the calls. *)
Fixpoint batches (tr : list Event) : list (list LogEntry) :=
  match tr with
  | [] => []
  | Wrote batch _ :: rest => batch :: batches rest
  | _ :: rest => batches rest
  end.

Fixpoint polled (tr : list Event) : list Go.addr :=
  match tr with
  | [] => []
  | Requested a _ _ :: rest => a :: polled rest
  | _ :: rest => polled rest
  end.

(** The errors the calls of [Request] returned. *)
Fixpoint failures (tr : list Event) : list Go.error :=
  match tr with
  | [] => []
  | Requested _ _ (Some e) :: rest => e :: failures rest
  | _ :: rest => failures rest
  end.

(** What the loop's [select] took. *)
Inductive Fired :=
| Done                                      (* <-p.ctx.Done() *)
| Tick (snapshot : list (Go.addr * IO))     (* <-ticker.C *)
| LogTick.                                  (* <-logTicker.C *)

Definition with_logBuffer (p : Processor) (b : list LogEntry) : Processor :=
  {| Mavlink := Mavlink p; AT := AT p; messages := messages p;
     interval := interval p; writer := writer p; ctx := ctx p;
     cancel := cancel p; once := once p; wg := wg p;
     logBatchSize := logBatchSize p; logBuffer := b |}.


Definition with_ctx (p : Processor) (done : bool) : Processor :=
  {| Mavlink := Mavlink p; AT := AT p; messages := messages p;
     interval := interval p; writer := writer p; ctx := done;
     cancel := cancel p; once := once p; wg := wg p;
     logBatchSize := logBatchSize p; logBuffer := logBuffer p |}.

Definition with_once (p : Processor) (ran : bool) : Processor :=
  {| Mavlink := Mavlink p; AT := AT p; messages := messages p;
     interval := interval p; writer := writer p; ctx := ctx p;
     cancel := cancel p; once := ran; wg := wg p;
     logBatchSize := logBatchSize p; logBuffer := logBuffer p |}.

Definition with_wg (p : Processor) (n : nat) : Processor :=
  {| Mavlink := Mavlink p; AT := AT p; messages := messages p;
     interval := interval p; writer := writer p; ctx := ctx p;
     cancel := cancel p; once := once p; wg := n;
     logBatchSize := logBatchSize p; logBuffer := logBuffer p |}.

Definition makeslicePanic : string :=
  "runtime error: makeslice: cap out of range".

Definition tickerPanic : string := "non-positive interval for NewTicker".

(** [ctx] tells whether the parent context is already done; the backend
    fields are left nil, as in the source. *)
Definition NewProcessor (ctx : bool) (interval : Go.Duration) (writer : bool)
    (buffsize : Z) (messages : list Go.addr) : Go.Result Processor :=
  if buffsize <? 0 then Go.Panic makeslicePanic
  else Go.Returned
    {| Mavlink := None; AT := None; messages := list_to_set messages;
       interval := interval; writer := writer; ctx := ctx; cancel := true;
       once := false; wg := 0; logBatchSize := buffsize; logBuffer := [] |}.



Definition Start (p : Processor) : Processor := with_wg p (S (wg p)).

(** [hashset.Values]: the members in an order the library does not fix. *)
Definition Values (s : gset Go.addr) (vs : list Go.addr) : Prop :=
  vs ≡ₚ elements s.

Definition newline : string := String (ascii_of_nat 10) EmptyString.

Section Processor.
Context {M W : Type} `{!Message M} `{!Writer W}.

(** The processor, the message objects it points to, its writer object
    and the calls made so far. *)
Record State := {
  proc : Processor;
  heap : gmap Go.addr M;
  sink : W;
  trace : list Event
}.

Definition emit (st : State) (evs : list Event) : State :=
  {| proc := proc st; heap := heap st; sink := sink st;
     trace := trace st ++ evs |}.

Definition with_proc (st : State) (p : Processor) : State :=
  {| proc := p; heap := heap st; sink := sink st; trace := trace st |}.

(** A step that neither cancels nor closes, and leaves the fields [Close]
    reads or sets alone. *)
Definition quiet (st st' : State) : Prop :=
  cancels (trace st') = cancels (trace st)
  /\ closes (trace st') = closes (trace st)
  /\ once (proc st') = once (proc st)
  /\ writer (proc st') = writer (proc st)
  /\ cancel (proc st') = cancel (proc st)
  /\ wg (proc st') = wg (proc st)
  /\ ctx (proc st') = ctx (proc st).


Definition flushLogsUnsafe (st : State) : Go.Result State :=
  let p := proc st in
  match logBuffer p with
  | [] => Go.Returned st
  | _ :: _ =>
      if writer p then
        let '(w, err) := Write (sink st) (logBuffer p) in
        let printed :=
          match err with
          | Some e => [Printed ("error writing logs: " +:+ Go.Error e +:+ newline)]
          | None => []
          end in
        if logBatchSize p <? 0 then Go.Panic makeslicePanic
        else Go.Returned
          {| proc := with_logBuffer p []; heap := heap st; sink := w;
             trace := trace st ++ Wrote (logBuffer p) err :: printed |}
      else Go.Panic Go.nilDeref
  end.

Definition flushLogs (st : State) : Go.Result State := flushLogsUnsafe st.

Definition addLogEntry (st : State) (entry : LogEntry) : Go.Result State :=
  let p := with_logBuffer (proc st) (logBuffer (proc st) ++ [entry]) in
  let st := with_proc st p in
  if logBatchSize p <=? Z.of_nat (length (logBuffer p))
  then flushLogsUnsafe st
  else Go.Returned st.

(** The body of [request]: the messages of the snapshot in its order,
    each with the script of its call. A member that is not an object (a
    nil [Message]) makes the method call panic. *)
Fixpoint request_range (st : State) (err : option Go.error)
    (snapshot : list (Go.addr * IO)) : Go.Result (State * option Go.error) :=
  match snapshot with
  | [] => Go.Returned (st, err)
  | (a, io) :: rest =>
      match heap st !! a with
      | None => Go.Panic Go.nilDeref
      | Some message =>
          '(message, log, e) ← Request message (proc st) io;
          let err :=
            match e with
            | Some e => multierr.Append err e
            | None => err
            end in
          let st :=
            {| proc := proc st; heap := <[a := message]> (heap st);
               sink := sink st; trace := trace st ++ [Requested a log e] |} in
          st ← addLogEntry st log;
          request_range st err rest
      end
  end.

Definition request (st : State) (snapshot : list (Go.addr * IO))
    : Go.Result (State * option Go.error) :=
  request_range st None snapshot.

(** The [for { select { ... } }] of [loop], one element of [fired] per pass
    through the [select]; the deferred [wg.Done] runs when it returns. *)
Fixpoint loop_select (st : State) (fired : list Fired) : Go.Result State :=
  match fired with
  | [] => Go.Blocked
  | Done :: _ =>
      st ← flushLogs (with_proc st (with_ctx (proc st) true));
      Go.Returned (with_proc st (with_wg (proc st) (Nat.pred (wg (proc st)))))
  | Tick snapshot :: rest =>
      '(st, err) ← request st snapshot;
      match err with
      | Some e =>
          loop_select (emit st [Printed ("error processing: " +:+ Go.Error e
                                         +:+ ". Continuing..." +:+ newline)]) rest
      | None => loop_select st rest
      end
  | LogTick :: rest =>
      st ← flushLogs st;
      loop_select st rest
  end.

(** [loop]: [time.NewTicker(p.interval)] panics on an interval that is
    not positive, before the [select] is reached; the log ticker's five
    seconds are positive. *)
Definition loop (st : State) (fired : list Fired) : Go.Result State :=
  if interval (proc st) <=? 0 then Go.Panic tickerPanic
  else loop_select st fired.

(** The function handed to [p.once.Do]. [racing] is what the loop's
    [select] still takes after the cancellation; once the context is done
    its [Done] case fires at last. [wg.Wait] returns at once when no loop
    is running. One loop is modelled: cmd/log/main.go calls [Start] once. *)
Definition shutdown (st : State) (racing : list Fired)
    : Go.Result (State * option Go.error) :=
  let st :=
    if cancel (proc st)
    then emit (with_proc st (with_ctx (proc st) true)) [Cancelled]
    else st in
  st ← match wg (proc st) with
       | O => Go.Returned st
       | S _ => loop st (racing ++ if ctx (proc st) then [Done] else [])
       end;
  if writer (proc st) then
    let '(w, e) := Close (sink st) in
    let st :=
      {| proc := proc st; heap := heap st; sink := w;
         trace := trace st ++ [WriterClosed e] |} in
    match e with
    | Some e =>
        Go.Returned (st, multierr.Append None (Go.Errorf "error closing writer" e))
    | None => Go.Returned (st, None)
    end
  else Go.Returned (st, None).

Definition Processor_Close (st : State) (racing : list Fired)
    : Go.Result (State * option Go.error) :=
  '(st, err) ← (if once (proc st) then Go.Returned (st, None)
                else '(st, err) ← shutdown st racing;
                     Go.Returned (with_proc st (with_once (proc st) true), err));
  match err with
  | Some err => Go.Returned (st, Some (Go.Errorf "error while closing processor" err))
  | None => Go.Returned (st, None)
  end.

End Processor.
Arguments State M W : clear implicits.

(** *** Statistics *)

Section Statistics.
Context {M W : Type} `{!Message M} `{!Writer W}.

(** The inner loop of [GetSuccessRate]: [successful++] on a Go int. *)
Fixpoint countSuccessful (entries : list LogEntry) (successful : Z) : Z :=
  match entries with
  | [] => successful
  | entry :: rest =>
      countSuccessful rest
        (if Success entry then Go.int64 (successful + 1) else successful)
  end.

Fixpoint successRate_range (h : gmap Go.addr M) (messageType : string)
    (values : list Go.addr) (total successful : Z) : Go.Result (Z * Z) :=
  match values with
  | [] => Go.Returned (total, successful)
  | a :: rest =>
      match h !! a with
      | None => Go.Panic Go.nilDeref
      | Some message =>
          if decide (GetType message = messageType) then
            let entries := GetAllEntries message in
            successRate_range h messageType rest
              (Go.int64 (total + Z.of_nat (length entries)))
              (countSuccessful entries successful)
          else successRate_range h messageType rest total successful
      end
  end.

(** [values] is what [getMessages] returned. *)
Definition GetSuccessRate (st : State M W) (messageType : string)
    (values : list Go.addr) : Go.Result Go.float64 :=
  '(total, successful) ← successRate_range (heap st) messageType values 0 0;
  if total =? 0 then Go.Returned Go.float64_zero
  else Go.Returned
    (Go.float64_mul
       (Go.float64_div (Go.float64_of_int successful) (Go.float64_of_int total))
       (Go.float64_of_int 100)).

(** The inner loop of [GetAverageResponseTime]. *)
Fixpoint sumDurations (entries : list LogEntry) (totalDuration count : Z) : Z * Z :=
  match entries with
  | [] => (totalDuration, count)
  | entry :: rest =>
      if Success entry && (0 <? Duration entry)
      then sumDurations rest (Go.int64 (totalDuration + Duration entry))
             (Go.int64 (count + 1))
      else sumDurations rest totalDuration count
  end.

Fixpoint averageResponseTime_range (h : gmap Go.addr M) (messageType : string)
    (values : list Go.addr) (totalDuration count : Z) : Go.Result (Z * Z) :=
  match values with
  | [] => Go.Returned (totalDuration, count)
  | a :: rest =>
      match h !! a with
      | None => Go.Panic Go.nilDeref
      | Some message =>
          if decide (GetType message = messageType) then
            let '(totalDuration, count) :=
              sumDurations (GetAllEntries message) totalDuration count in
            averageResponseTime_range h messageType rest totalDuration count
          else averageResponseTime_range h messageType rest totalDuration count
      end
  end.

Definition GetAverageResponseTime (st : State M W) (messageType : string)
    (values : list Go.addr) : Go.Result Go.Duration :=
  '(totalDuration, count) ←
    averageResponseTime_range (heap st) messageType values 0 0;
  if count =? 0 then Go.Returned 0
  else Go.Returned (Z.quot totalDuration count).

(** What the two queries are about, in the words of the spec: the
    entries of the members whose type matches, the successful ones among
    them, the successful ones with a positive duration, and the sum of
    durations. *)
Definition entries_of (h : gmap Go.addr M) (messageType : string) (a : Go.addr)
    : list LogEntry :=
  match h !! a with
  | Some message =>
      if decide (GetType message = messageType) then GetAllEntries message else []
  | None => []
  end.

Definition matching_entries (st : State M W) (messageType : string) : list LogEntry :=
  elements (messages (proc st)) ≫= entries_of (heap st) messageType.

Definition successful (entries : list LogEntry) : list LogEntry :=
  filter (fun entry => Success entry = true) entries.

Definition qualifying (entries : list LogEntry) : list LogEntry :=
  filter (fun entry => Success entry = true /\ 0 < Duration entry) entries.

Definition total_duration (entries : list LogEntry) : Z :=
  foldr (fun entry acc => Duration entry + acc) 0 entries.

End Statistics.

End cellularlog.

(** ** Package pkg/mavlink: telemetry messages *)

Module mavlink.
Import cellularlog.

(** [Message[T]]. The field [ctx] is a shared context object: whether it
    is done when the [select] looks is part of the environment
    ([LifetimeDone] in [Selects]). *)
Record Message := {
  index : Z;
  messages : list LogEntry;
  id : Z;
  T : gomavlib.MsgType
}.

Definition NewMessage (T : gomavlib.MsgType) : Message :=
  {| index := 0; messages := []; id := Go.uint32 (gomavlib.GetID T); T := T |}.

Definition add (m : Message) (log : LogEntry) : Message :=
  {| index := index m; messages := messages m ++ [log]; id := id m; T := T m |}.

(** The deferred [m.index++] on a uint64. *)
Definition bump (m : Message) : Message :=
  {| index := Go.uint64 (index m + 1); messages := messages m;
     id := id m; T := T m |}.

Definition GetType (m : Message) : string := "mavlink-" +:+ pretty (id m).

Definition GetAllEntries (m : Message) : list LogEntry := messages m.

(** The [for { select { ... } }] loop, one element of the script per pass. *)
Fixpoint wait (m : Message) (log : LogEntry) (now : Go.Time)
    (script : list Selected) : Go.Result (Message * LogEntry * option Go.error) :=
  match script with
  | [] => Go.Blocked
  | LifetimeDone :: _ =>
      let log := set_Error log "context cancelled" in
      Go.Returned (add m log, log, None)
  | TimeoutDone why :: _ =>
      let log := set_Error log "request timeout" in
      Go.Returned (add m log, log, Some (Err why))
  | Received None :: _ =>
      let log := set_Error log "errors interface mismatch" in
      Go.Returned (add m log, log, Some (Go.New "error interface mismatch"))
  | Received (Some (gomavlib.EventFrame msg)) :: rest =>
      if decide (gomavlib.dynType msg = T m) then
        let log := set_response log (AnyMessage msg) now in
        Go.Returned (add m log, log, None)
      else wait m log now rest
  | Received (Some (gomavlib.EventOther _)) :: rest => wait m log now rest
  end.

(** The events the loop passes over: a frame of another type ([continue])
    and an event that is not a frame. *)
Definition skips (m : Message) (s : Selected) : bool :=
  match s with
  | Received (Some (gomavlib.EventFrame msg)) =>
      negb (bool_decide (gomavlib.dynType msg = T m))
  | Received (Some (gomavlib.EventOther _)) => true
  | _ => false
  end.



Definition Process (m : Message) (requester : option Requester) (io : IO)
    : Go.Result (Message * LogEntry * option Go.error) :=
  let log := new_log (index m) (GetType m) (requestNow io) in
  match requester with
  | Some (ptr_Mavlink r) =>
      match r with
      | None => Go.Panic Go.nilDeref
      | Some _ =>
          match WriteMessageAll io with
          | Some err =>
              let log := set_Error log (Go.Error err) in
              Go.Returned (bump (add m log), log, Some err)
          | None =>
              '(m', log, e) ← wait m log (responseNow io) (Selects io);
              Go.Returned (bump m', log, e)
          end
      end
  | _ =>
      let log := set_Error log "errors interface mismatch" in
      Go.Returned (bump (add m log), log, Some (Go.New "error interface mismatch"))
  end.

(** [processor.Mavlink.Process(m)]: a method call on the interface value
    in the field, which panics when the interface is nil; both
    implementations of [Requester.Process] are the one line
    [return messages.Process(r)]. *)
Definition Request (m : Message) (processor : Processor) (io : IO)
    : Go.Result (Message * LogEntry * option Go.error) :=
  match Mavlink processor with
  | None => Go.Panic Go.nilDeref
  | Some r => Process m (Some r) io
  end.

#[global] Instance Message_Message : cellularlog.Message Message :=
  {| cellularlog.Request := Request; cellularlog.Process := Process;
     cellularlog.GetType := GetType; cellularlog.GetAllEntries := GetAllEntries |}.

End mavlink.

(** ** Package pkg/AT: modem messages *)

Module AT.
Import cellularlog.

Record Message := {
  index : Z;
  messages : list LogEntry;
  cmd : string
}.

Definition NewMessage (cmd : string) : Message :=
  {| index := 0; messages := []; cmd := cmd |}.

Definition add (m : Message) (log : LogEntry) : Message :=
  {| index := index m; messages := messages m ++ [log]; cmd := cmd m |}.

Definition bump (m : Message) : Message :=
  {| index := Go.uint64 (index m + 1); messages := messages m; cmd := cmd m |}.

Definition GetType (m : Message) : string := "at-" +:+ cmd m.

Definition GetAllEntries (m : Message) : list LogEntry := messages m.

Definition Process (m : Message) (requester : option Requester) (io : IO)
    : Go.Result (Message * LogEntry * option Go.error) :=
  let log := new_log (index m) (GetType m) (requestNow io) in
  match requester with
  | Some (ptr_AT r) =>
      match r with
      | None => Go.Panic Go.nilDeref
      | Some _ =>
          match Command io with
          | inl err =>
              let e := Go.Errorf "error while sending AT commands" err in
              let log := set_Error log (Go.Error e) in
              Go.Returned (bump (add m log), log, Some e)
          | inr data =>
              let log := set_response log (AnyStrings data) (responseNow io) in
              Go.Returned (bump (add m log), log, None)
          end
      end
  | _ =>
      let log := set_Error log "errors interface mismatch" in
      Go.Returned (bump (add m log), log, Some (Go.New "error interface mismatch"))
  end.

Definition Request (m : Message) (processor : Processor) (io : IO)
    : Go.Result (Message * LogEntry * option Go.error) :=
  match cellularlog.AT processor with
  | None => Go.Panic Go.nilDeref
  | Some r => Process m (Some r) io
  end.

#[global] Instance Message_Message : cellularlog.Message Message :=
  {| cellularlog.Request := Request; cellularlog.Process := Process;
     cellularlog.GetType := GetType; cellularlog.GetAllEntries := GetAllEntries |}.

End AT.

(** ** The message objects of a run *)

Module objects.
Import cellularlog.

(** The dynamic types behind the [Message] interface. *)
Inductive Msg :=
| Telemetry (m : mavlink.Message)
| Modem (m : AT.Message).

Definition into {A} (inj : A -> Msg)
    (r : Go.Result (A * LogEntry * option Go.error))
    : Go.Result (Msg * LogEntry * option Go.error) :=
  '(m, log, e) ← r; Go.Returned (inj m, log, e).

#[global] Instance Msg_Message : Message Msg :=
  {| Request m p io :=
       match m with
       | Telemetry m => into Telemetry (mavlink.Request m p io)
       | Modem m => into Modem (AT.Request m p io)
       end;
     Process m r io :=
       match m with
       | Telemetry m => into Telemetry (mavlink.Process m r io)
       | Modem m => into Modem (AT.Process m r io)
       end;
     GetType m :=
       match m with
       | Telemetry m => mavlink.GetType m
       | Modem m => AT.GetType m
       end;
     GetAllEntries m :=
       match m with
       | Telemetry m => mavlink.GetAllEntries m
       | Modem m => AT.GetAllEntries m
       end |}.

(** The identity key of the spec: the numeric message ID of a telemetry
    message, the command string of a modem message. *)
Inductive Identity :=
| ByID (id : Z)
| ByCommand (cmd : string).

Definition identity (m : Msg) : Identity :=
  match m with
  | Telemetry m => ByID (mavlink.id m)
  | Modem m => ByCommand (AT.cmd m)
  end.

(** Whether the script [io] lets the request of [m] on [p] come back: the
    back end the message asks for is set and is not a nil pointer, and a
    telemetry request either fails to send or receives something that
    ends its wait. *)
Definition finishes (p : Processor) (m : Msg) (io : IO) : bool :=
  match m with
  | Modem _ =>
      match AT p with
      | None | Some (ptr_AT None) => false
      | Some _ => true
      end
  | Telemetry m =>
      match Mavlink p with
      | None | Some (ptr_Mavlink None) => false
      | Some (ptr_Mavlink (Some _)) =>
          match WriteMessageAll io with
          | Some _ => true
          | None => negb (forallb (mavlink.skips m) (Selects io))
          end
      | Some (ptr_AT _) => true
      end
  end.

(** What a request never changes in a message object: its protocol and,
    for a telemetry message, the type it waits for. *)
Definition kind (m : Msg) : option gomavlib.MsgType :=
  match m with
  | Telemetry m => Some (mavlink.T m)
  | Modem _ => None
  end.

(** Every call of the run can come back: each polled address holds an
    object whose script lets its request finish. *)
Definition answered (p : Processor) (h : gmap Go.addr Msg) (fired : list Fired) : Prop :=
  Forall (fun f =>
            match f with
            | Tick snapshot =>
                Forall (fun '(a, io) =>
                          exists m, h !! a = Some m /\ finishes p m io = true)
                  snapshot
            | _ => True
            end) fired.

(** What the loop leaves alone from one state to a later one: the back
    ends, the writer, the batch size, and the kind of every object. *)
Definition stable {W} (st st' : State Msg W) : Prop :=
  Mavlink (proc st') = Mavlink (proc st)
  /\ AT (proc st') = AT (proc st)
  /\ writer (proc st') = writer (proc st)
  /\ logBatchSize (proc st') = logBatchSize (proc st)
  /\ forall a m, heap st !! a = Some m ->
       exists m', heap st' !! a = Some m' /\ kind m' = kind m.

End objects.

(** ** cmd/generate: the registry generator *)

Module generator.

(** [r >= 'A' && r <= 'Z'] and [r >= 'a' && r <= 'z'] on a byte. *)
Definition isUpper (c : ascii) : bool :=
  ((N_of_ascii "A" <=? N_of_ascii c) && (N_of_ascii c <=? N_of_ascii "Z"))%N.

Definition isLower (c : ascii) : bool :=
  ((N_of_ascii "a" <=? N_of_ascii c) && (N_of_ascii c <=? N_of_ascii "z"))%N.

(** A byte below 0x80: a character that is its own UTF-8 encoding. *)
Definition isASCII (c : ascii) : bool := (N_of_ascii c <? 128)%N.

Definition ascii_only (s : string) : bool :=
  forallb isASCII (list_ascii_of_string s).

(** [strings.ToUpper] on a string of ASCII characters. *)
Definition toUpper (c : ascii) : ascii :=
  if isLower c then ascii_of_N (N_of_ascii c - 32) else c.

Fixpoint ToUpper (s : string) : string :=
  match s with
  | EmptyString => EmptyString
  | String c rest => String (toUpper c) (ToUpper rest)
  end.

(** [strings.HasPrefix(typeName, "Message")] with [typeName[7:]]. *)
Definition afterMessage (typeName : string) : option string :=
  match typeName with
  | String "M" (String "e" (String "s" (String "s" (String "a" (String "g"
      (String "e" name)))))) => Some name
  | _ => None
  end.

(** The loop over [name], for a name of ASCII characters (each rune is
    one byte, so [name[i-1]] and [name[i+1]] are the runes next to [r]):
    [prev] is [None] at [i = 0], and a missing [next] is the zero rune. *)
Fixpoint separate (prev : option ascii) (name : string) : string :=
  match name with
  | EmptyString => EmptyString
  | String r rest =>
      let next := match rest with String n _ => isLower n | EmptyString => false end in
      let underscore :=
        match prev with
        | Some prev => isUpper r && (isLower prev || next)
        | None => false
        end in
      if underscore then String "_" (String r (separate (Some r) rest))
      else String r (separate (Some r) rest)
  end.

(** [None] stands for a name with a byte of 0x80 or above, where [range]
    decodes UTF-8 and [ToUpper] follows Unicode: not modelled. *)
Definition extractMessageName (typeName : string) : option string :=
  match afterMessage typeName with
  | None => Some typeName
  | Some name =>
      if ascii_only name then Some (ToUpper (separate None name)) else None
  end.

(** A capital letter followed by one or more small letters. *)
Definition capitalised (w : string) : bool :=
  match w with
  | String c (String d tl) =>
      isUpper c && forallb isLower (list_ascii_of_string (String d tl))
  | _ => false
  end.

(** The last character of [s], or [prev] when [s] is empty. *)
Fixpoint lastc (prev : option ascii) (s : string) : option ascii :=
  match s with
  | EmptyString => prev
  | String c rest => lastc (Some c) rest
  end.

(** The characters of [s] other than underscores. *)
Definition letters (s : string) : list ascii :=
  filter (fun c => c <> "_"%char) (list_ascii_of_string s).

End generator.

(** ** cmd/log: the command line *)

Module main.
Import cellularlog.

(** The functions of package strings that cmd/log uses, on bytes. *)

(** [strings.Split(s, ",")]. *)
Fixpoint Split (s : string) : list string :=
  match s with
  | EmptyString => [EmptyString]
  | String c rest =>
      if Ascii.eqb c "," then EmptyString :: Split rest
      else match Split rest with
           | part :: parts => String c part :: parts
           | [] => [String c EmptyString]
           end
  end.

(** [strings.Contains(s, substr)]. *)
Fixpoint Contains (s substr : string) : bool :=
  String.prefix substr s
  || match s with
     | EmptyString => false
     | String _ rest => Contains rest substr
     end.

(** [strings.Index(s, ":")]; [None] stands for -1. *)
Fixpoint Index (s : string) : option nat :=
  match s with
  | EmptyString => None
  | String c rest => if Ascii.eqb c ":" then Some O else S <$> Index rest
  end.

(** [s[:i]] and [s[i:]] for [i <= len(s)]. *)
Fixpoint take (i : nat) (s : string) : string :=
  match i, s with
  | S i, String c rest => String c (take i rest)
  | _, _ => EmptyString
  end.

Fixpoint drop (i : nat) (s : string) : string :=
  match i, s with
  | S i, String _ rest => drop i rest
  | _, _ => s
  end.

(** The table [asciiSpace] of package strings: tab, line feed, vertical
    tab, form feed, carriage return and space. *)
Definition asciiSpace (c : ascii) : bool :=
  match c with
  | "009" | "010" | "011" | "012" | "013" | " " => true
  | _ => false
  end%char.

Fixpoint trimLeft (s : string) : string :=
  match s with
  | EmptyString => EmptyString
  | String c rest => if asciiSpace c then trimLeft rest else s
  end.

Fixpoint trimRight (s : string) : string :=
  match s with
  | EmptyString => EmptyString
  | String c rest =>
      match trimRight rest with
      | EmptyString => if asciiSpace c then EmptyString else String c EmptyString
      | kept => String c kept
      end
  end.

Definition first_byte (s : string) : option ascii :=
  match s with
  | EmptyString => None
  | String c _ => Some c
  end.

(** [strings.TrimSpace]. It cuts the ASCII white space at both ends; when
    the first or the last byte it stops at is 0x80 or above it hands over
    to the Unicode-aware [TrimFunc], which is not modelled: [None]. *)
Definition TrimSpace (s : string) : option string :=
  let kept := trimRight (trimLeft s) in
  if forallb generator.isASCII
       (option_list (first_byte kept) ++ option_list (generator.lastc None kept))
  then Some kept else None.

Definition needsMAVLink (messages : string) : bool := Contains messages "mavlink:".

Definition needsAT (messages : string) : bool := Contains messages "at:".

Section parseMessages.
(** [createMAVLinkMessage]: the look-up in [mavlinkRegistry] and, for a
    number, [mavlink.CreateMAVLinkMessageByID] of the generated registry. *)
Variable createMAVLinkMessage : string -> Go.error + mavlink.Message.

(** The body of the loop over [parts]; the result is the pair the function
    returns, a nil slice with a non-nil error. *)
Fixpoint parse_range (parts : list string) (messages : list objects.Msg)
    : option (list objects.Msg * option Go.error) :=
  match parts with
  | [] => Some (messages, None)
  | part :: rest =>
      part ← TrimSpace part;
      if decide (part = EmptyString) then parse_range rest messages
      else
        match Index part with
        | None =>
            Some ([], Some (Go.New ("invalid message format: " +:+ part
                                    +:+ " (expected type:name)")))
        | Some colonIndex =>
            messageType ← TrimSpace (take colonIndex part);
            messageName ← TrimSpace (drop (S colonIndex) part);
            if decide (messageType = "mavlink"%string) then
              match createMAVLinkMessage messageName with
              | inl err =>
                  Some ([], Some (Go.Errorf ("failed to create MAVLink message "
                                             +:+ messageName) err))
              | inr msg => parse_range rest (messages ++ [objects.Telemetry msg])
              end
            else if decide (messageType = "at"%string) then
              parse_range rest (messages ++ [objects.Modem (AT.NewMessage messageName)])
            else
              Some ([], Some (Go.New ("unknown message type: " +:+ messageType
                                      +:+ " (supported: mavlink, at)")))
        end
  end.

(** The message objects are new ones, in the order of the parts. *)
Definition parseMessages (messageStr : string)
    : option (list objects.Msg * option Go.error) :=
  if decide (messageStr = EmptyString)
  then Some ([], Some (Go.New "empty message string"))
  else parse_range (Split messageStr) [].

End parseMessages.

Definition with_Mavlink (p : Processor) (r : option Requester) : Processor :=
  {| Mavlink := r; AT := AT p; messages := messages p;
     interval := interval p; writer := writer p; ctx := ctx p;
     cancel := cancel p; once := once p; wg := wg p;
     logBatchSize := logBatchSize p; logBuffer := logBuffer p |}.

Definition with_AT (p : Processor) (r : option Requester) : Processor :=
  {| Mavlink := Mavlink p; AT := r; messages := messages p;
     interval := interval p; writer := writer p; ctx := ctx p;
     cancel := cancel p; once := once p; wg := wg p;
     logBatchSize := logBatchSize p; logBuffer := logBuffer p |}.

(** [NewMavlink] and [NewAT] open serial devices: what they return is
    given, a non-nil pointer or an error. What is printed with [Verbose]
    is left out. *)
Definition initializeRequesters (p : Processor) (messages : string)
    (NewMavlink NewAT : Go.error + Go.addr) : Processor * option Go.error :=
  let step :=
    if needsMAVLink messages then
      match NewMavlink with
      | inl err => inl (p, Go.Errorf "failed to initialize MAVLink" err)
      | inr mav => inr (with_Mavlink p (Some (ptr_Mavlink (Some mav))))
      end
    else inr p in
  match step with
  | inl (p, err) => (p, Some err)
  | inr p =>
      if needsAT messages then
        match NewAT with
        | inl err => (p, Some (Go.Errorf "failed to initialize AT" err))
        | inr at_ => (with_AT p (Some (ptr_AT (Some at_))), None)
        end
      else (p, None)
  end.


(** *** createWriter *)

Inductive Format := JSON | CSV | Binary.

(** A writer that was made: its type and the file it created. *)
Record Opened := { kind : Format; filename : string }.

(** What [createWriter] returns: one writer, or a [MultiWriter]. *)
Inductive Made :=
| Single (w : Opened)
| Multi (writers : list Opened).

(** The calls [createWriter] makes: the writers it makes, numbered in the
    order of their making, the writers it closes, and what it prints. *)
Inductive Call :=
| Created (n : nat) (w : Opened)
| Closed (n : nat) (e : option Go.error)
| Printed (text : string).

Fixpoint created (calls : list Call) : list (nat * Opened) :=
  match calls with
  | [] => []
  | Created n w :: rest => (n, w) :: created rest
  | _ :: rest => created rest
  end.

Fixpoint closed (calls : list Call) : list nat :=
  match calls with
  | [] => []
  | Closed n _ :: rest => n :: closed rest
  | _ :: rest => closed rest
  end.

Section createWriter.
(** What [os.Create] returns to the [n]-th writer for a file name (nil for
    a file that was created), and what [Close] of the [n]-th writer
    returns. *)
Variable create : nat -> string -> option Go.error.
Variable close : nat -> option Go.error.

Definition NewWriter (n : nat) (k : Format) (name : string) : Go.error + Opened :=
  match create n name with
  | Some err => inl err
  | None => inr {| kind := k; filename := name |}
  end.

Definition createSingleWriter (n : nat) (format filePrefix : string)
    : Go.error + Opened :=
  if decide (format = "json"%string) then NewWriter n JSON (filePrefix +:+ ".json")
  else if decide (format = "csv"%string) then NewWriter n CSV (filePrefix +:+ ".csv")
  else if decide (format = "binary"%string) then NewWriter n Binary (filePrefix +:+ ".bin")
  else inl (Go.New ("unsupported output format: " +:+ format)).

(** [for _, w := range writers { if err := w.Close(); err != nil { ... } }],
    the first writer being number [n]. *)
Fixpoint close_range (n : nat) (writers : list Opened) : list Call :=
  match writers with
  | [] => []
  | _ :: rest =>
      Closed n (close n)
        :: match close n with
           | Some err =>
               [Printed ("error closing writer: " +:+ Go.Error err +:+ newline)]
           | None => []
           end
        ++ close_range (S n) rest
  end.

Fixpoint createWriter_range (formats : list string) (filePrefix : string)
    (writers : list Opened) : option (list Call * (Go.error + list Opened)) :=
  match formats with
  | [] => Some ([], inr writers)
  | format :: rest =>
      format ← TrimSpace format;
      match createSingleWriter (length writers) format filePrefix with
      | inl err => Some (close_range 0 writers, inl err)
      | inr writer =>
          '(calls, result) ← createWriter_range rest filePrefix (writers ++ [writer]);
          Some (Created (length writers) writer :: calls, result)
      end
  end.

Definition createWriter (OutputFormat OutputFile : string)
    : option (list Call * (Go.error + Made)) :=
  match Split OutputFormat with
  | [format] =>
      match createSingleWriter 0 format OutputFile with
      | inl err => Some ([], inl err)
      | inr writer => Some ([Created 0 writer], inr (Single writer))
      end
  | formats =>
      '(calls, result) ← createWriter_range formats OutputFile [];
      match result with
      | inl err => Some (calls, inl err)
      | inr writers => Some (calls, inr (Multi writers))
      end
  end.

End createWriter.

(** The string has no comma. *)
Definition comma_free (s : string) : bool :=
  forallb (fun c => negb (Ascii.eqb c ",")) (list_ascii_of_string s).

(** Only commas and ASCII white space. *)
Definition blank (s : string) : bool :=
  forallb (fun c => Ascii.eqb c "," || asciiSpace c) (list_ascii_of_string s).

End main.

(** ** Concrete objects and scripts *)

Module examples.
Import cellularlog.

Definition heartbeat : gomavlib.MsgType :=
  {| gomavlib.TypeName := "*common.MessageHeartbeat"; gomavlib.GetID := 0 |}.

Definition attitude : gomavlib.MsgType :=
  {| gomavlib.TypeName := "*common.MessageAttitude"; gomavlib.GetID := 30 |}.

Definition attitude_frame : gomavlib.Event :=
  gomavlib.EventFrame {| gomavlib.dynType := attitude; gomavlib.fields := [1; 2; 3] |}.

Definition heartbeat_frame : gomavlib.Event :=
  gomavlib.EventFrame {| gomavlib.dynType := heartbeat; gomavlib.fields := [4] |}.

(** A script for one call: the clock, a successful send, what the
    [select] receives, and the modem's answer. *)
Definition script (selects : list Selected) : IO :=
  {| requestNow := 1000; responseNow := 1500; WriteMessageAll := None;
     Selects := selects; Command := inr ["+CSQ: 20,99"%string] |}.

(** Both contexts done when the [select] looks: the lifetime context was
    cancelled, and with it its child. *)
Definition both_done : Ready :=
  {| lifetime := true; timeout := Some Canceled; incoming := None |}.

(** Only the per-request deadline has passed. *)
Definition deadline_passed : Ready :=
  {| lifetime := false; timeout := Some DeadlineExceeded; incoming := None |}.

(** A file somebody has closed already. *)
Definition closed_file : BinaryWriter :=
  {| os.written := []; os.space := None; os.closed := true |}.

Definition backend : Requester := ptr_Mavlink (Some 7%positive).
Definition modem : Requester := ptr_AT (Some 8%positive).

(** What [json.Marshal] returns in the example runs: the encoder rejects
    the entry with index 1 (as it rejects a payload holding a NaN) and
    encodes every other entry. *)
Definition Marshal (entry : LogEntry) : Go.error + list Byte.byte :=
  if Index entry =? 1 then inl (Go.New "json: unsupported value: NaN")
  else inr (String.list_byte_of_string ("{index:" +:+ pretty (Index entry) +:+ "}")).

#[global] Instance BinaryWriter_Writer : Writer (BinaryWriter) :=
  cellularlog.BinaryWriter_Writer Marshal.

(** The processor of [NewProcessor(ctx, time.Second, writer, 2, messages...)]
    with neither back end set, and its variants. *)
Definition processor (messages : list Go.addr) : Processor :=
  {| Mavlink := None; AT := None; messages := list_to_set messages;
     interval := 1000000000; writer := true; ctx := false; cancel := true;
     once := false; wg := 0; logBatchSize := 2; logBuffer := [] |}.

Definition with_backends (p : Processor) : Processor :=
  {| Mavlink := Some backend; AT := Some modem; messages := messages p;
     interval := interval p; writer := writer p; ctx := ctx p;
     cancel := cancel p; once := once p; wg := wg p;
     logBatchSize := logBatchSize p; logBuffer := logBuffer p |}.

(** Two modem messages made by two calls [AT.NewMessage("+CSQ")], and one
    telemetry message. *)
Definition objects : gmap Go.addr objects.Msg :=
  <[1%positive := objects.Modem (AT.NewMessage "+CSQ")]>
    (<[2%positive := objects.Modem (AT.NewMessage "+CSQ")]>
       (<[3%positive := objects.Telemetry (mavlink.NewMessage heartbeat)]> ∅)).

Definition state (p : Processor) (file : BinaryWriter) : State objects.Msg BinaryWriter :=
  {| proc := p; heap := objects; sink := file; trace := [] |}.

(** A modem message with three entries: two successes that took 100 ms and
    200 ms, and one failure. *)
Definition surveyed : AT.Message :=
  {| AT.index := 3;
     AT.messages :=
       [ set_response (new_log 0 "at-+CSQ" 1000) (AnyStrings ["+CSQ: 20,99"%string])
           (1000 + 100000000);
         set_response (new_log 1 "at-+CSQ" 2000) (AnyStrings ["+CSQ: 21,99"%string])
           (2000 + 200000000);
         set_Error (new_log 2 "at-+CSQ" 3000) "error while sending AT commands: timeout" ];
     AT.cmd := "+CSQ" |}.

Definition survey : State objects.Msg BinaryWriter :=
  {| proc := with_backends (processor [1%positive; 3%positive]);
     heap := <[1%positive := objects.Modem surveyed]> objects;
     sink := os.Create None; trace := [] |}.

(** A run of the loop: a tick over the two modem messages, which fills the
    batch of 2, a periodic flush, a tick over one message, and the
    shutdown. The writer's device takes 10 bytes and the encoder rejects
    index 1, so both calls of [Write] fail. *)
Definition poll : list (Go.addr * IO) :=
  [(1%positive, script []); (2%positive, script [])].

Definition run : list Fired := [Tick poll; LogTick; Tick [(1%positive, script [])]; Done].

Definition polling : State objects.Msg BinaryWriter :=
  state (Start (with_backends (processor [1%positive; 2%positive]))) (os.Create (Some 10%nat)).

(** What [csv.Writer] hands over for a record whose fields need no
    quotes: each field, a comma before every field but the first, and the
    newline. *)
Definition csv_pieces (record : list string) : list (list Byte.byte) :=
  match record with
  | [] => []
  | field :: rest =>
      String.list_byte_of_string field
        :: flat_map (fun field => [[Byte.x2c]; String.list_byte_of_string field]) rest
  end ++ [[Byte.x0a]].

(** Two writer objects: one on a file that is closed, one on an open file. *)
Definition sinks : gmap Go.addr BinaryWriter :=
  <[1%positive := closed_file]> (<[2%positive := os.Create None]> ∅).

(** The processor of [polling] made with a batch size of 0, on a device
    without limit. *)
Definition unbuffered : State objects.Msg BinaryWriter :=
  {| proc :=
       {| Mavlink := Some backend; AT := Some modem;
          messages := list_to_set [1%positive; 2%positive];
          interval := 1000000000; writer := true; ctx := false; cancel := true;
          once := false; wg := 1; logBatchSize := 0; logBuffer := [] |};
     heap := objects; sink := os.Create None; trace := [] |}.

End examples.

(** * Properties *)

(** ** Message.Process *)

Lemma mavlink_wait_returned (m : mavlink.Message) log now script m' log' e :
  mavlink.wait m log now script = Go.Returned (m', log', e) ->
  mavlink.messages m' = mavlink.messages m ++ [log']
  /\ mavlink.index m' = mavlink.index m
  /\ mavlink.id m' = mavlink.id m /\ mavlink.T m' = mavlink.T m.
Proof.
  induction script as [|s rest IH]; simpl; [discriminate|].
  destruct s as [|why|[[msg|name]|]]; try (intros [= <- <- <-]; done); auto.
  case_decide; auto. intros [= <- <- <-]; done.
Qed.

Lemma mavlink_wait_skip (m : mavlink.Message) log now s rest :
  mavlink.skips m s = true ->
  mavlink.wait m log now (s :: rest) = mavlink.wait m log now rest.
Proof.
  destruct s as [|why|[[msg|name]|]]; simpl; try discriminate; auto.
  case_bool_decide; simpl; [discriminate|]. intros _.
  case_decide; [contradiction|reflexivity].
Qed.

Lemma mavlink_wait_skips (m : mavlink.Message) log now skipped rest :
  forallb (mavlink.skips m) skipped = true ->
  mavlink.wait m log now (skipped ++ rest) = mavlink.wait m log now rest.
Proof.
  induction skipped as [|s l IH]; simpl; [reflexivity|].
  intros [Hs Hl]%andb_prop. rewrite <- (IH Hl).
  apply (mavlink_wait_skip m log now s (l ++ rest) Hs).
Qed.

Lemma mavlink_wait_blocked (m : mavlink.Message) log now script :
  mavlink.wait m log now script = Go.Blocked <->
  forallb (mavlink.skips m) script = true.
Proof.
  induction script as [|s rest IH]; simpl; [tauto|].
  destruct s as [|why|[[msg|name]|]]; simpl; try (split; discriminate); auto.
  case_decide; case_bool_decide; try contradiction; simpl; auto.
  split; discriminate.
Qed.

Lemma mavlink_wait_no_panic (m : mavlink.Message) log now script reason :
  mavlink.wait m log now script <> Go.Panic reason.
Proof.
  induction script as [|s rest IH]; simpl; [discriminate|].
  destruct s as [|why|[[msg|name]|]]; try discriminate; auto.
  case_decide; auto; discriminate.
Qed.

(** C6. Every call of [Process] that returns (success, timeout,
    cancellation, closed event stream, send failure or backend type
    mismatch) has appended exactly the returned entry to the message's
    history and incremented the uint64 index once; it keeps the message's
    identity. The modem call never waits, the telemetry call is still
    waiting exactly when everything its [select] received so far was
    passed over, and a passed-over event (a frame of another type, or an
    event that is not a frame) leaves the wait as it was: nothing is
    appended for it. A call panics only on a nil back-end pointer. *)
Theorem Process_appends_exactly_one_entry :
  (forall (m : mavlink.Message) requester io,
      match mavlink.Process m requester io with
      | Go.Returned (m', log, _) =>
          mavlink.messages m' = mavlink.messages m ++ [log]
          /\ mavlink.index m' = Go.uint64 (mavlink.index m + 1)
          /\ mavlink.id m' = mavlink.id m /\ mavlink.T m' = mavlink.T m
      | Go.Blocked =>
          cellularlog.WriteMessageAll io = None
          /\ forallb (mavlink.skips m) (cellularlog.Selects io) = true
      | Go.Panic _ => requester = Some (cellularlog.ptr_Mavlink None)
      end)
  /\ (forall (m : AT.Message) requester io,
      match AT.Process m requester io with
      | Go.Returned (m', log, _) =>
          AT.messages m' = AT.messages m ++ [log]
          /\ AT.index m' = Go.uint64 (AT.index m + 1)
          /\ AT.cmd m' = AT.cmd m
      | Go.Blocked => False
      | Go.Panic _ => requester = Some (cellularlog.ptr_AT None)
      end)
  /\ (forall (m : mavlink.Message) log now s rest,
      mavlink.skips m s = true ->
      mavlink.wait m log now (s :: rest) = mavlink.wait m log now rest).
Proof.
  split; [|split].
  - intros m requester io. unfold mavlink.Process.
    destruct requester as [[[a|]|p]|]; simpl; auto.
    destruct (cellularlog.WriteMessageAll io) as [err|]; simpl; auto.
    destruct (mavlink.wait m _ _ _) as [[[m' log] e]| |reason] eqn:Hw; simpl.
    + apply mavlink_wait_returned in Hw as (H1 & H2 & H3 & H4).
      rewrite H1, H2. auto.
    + split; [reflexivity|]. by apply mavlink_wait_blocked in Hw.
    + by apply mavlink_wait_no_panic in Hw.
  - intros m requester io. unfold AT.Process.
    destruct requester as [[p|[a|]]|]; simpl; auto.
    destruct (cellularlog.Command io) as [err|data]; simpl; auto.
  - intros m log now s rest. apply mavlink_wait_skip.
Qed.

(** The first thing the [select] receives that is not passed over decides
    the call. *)
Lemma mavlink_wait_decided (m : mavlink.Message) log now skipped s rest :
  forallb (mavlink.skips m) skipped = true ->
  mavlink.skips m s = false ->
  mavlink.wait m log now (skipped ++ s :: rest) = mavlink.wait m log now [s].
Proof.
  intros Hskipped Hs. rewrite mavlink_wait_skips by assumption.
  destruct s as [|why|[[msg|name]|]]; simpl in *; try reflexivity; try discriminate.
  case_decide; [reflexivity|].
  case_bool_decide; [contradiction|discriminate].
Qed.

Lemma mavlink_Process_decided (m : mavlink.Message) a io skipped s rest :
  cellularlog.WriteMessageAll io = None ->
  cellularlog.Selects io = skipped ++ s :: rest ->
  forallb (mavlink.skips m) skipped = true ->
  mavlink.skips m s = false ->
  mavlink.Process m (Some (cellularlog.ptr_Mavlink (Some a))) io =
    ('(m', log, e) ←
       mavlink.wait m
         (cellularlog.new_log (mavlink.index m) (mavlink.GetType m)
            (cellularlog.requestNow io))
         (cellularlog.responseNow io) [s];
     Go.Returned (mavlink.bump m', log, e)).
Proof.
  intros Hw Hsel Hskipped Hs. unfold mavlink.Process.
  rewrite Hw, Hsel, (mavlink_wait_decided _ _ _ _ _ _ Hskipped Hs). reflexivity.
Qed.

Section TickAggregate.
Context {W : Type} `{!cellularlog.Writer W}.
Import cellularlog.



End TickAggregate.

(** ** Cancellation and timeout *)

(** C2 at a failing input: the lifetime context is cancelled and the
    per-request context, its child, is done with it, so both cases of the
    [select] can proceed. Nothing in [Process] gives the lifetime case
    priority: the [select] may take the per-request case, and the request
    then records "request timeout", not "context cancelled". *)
Lemma cancelled_request_can_record_timeout :
  cellularlog.lifetime examples.both_done = true
  /\ cellularlog.child_follows examples.both_done
  /\ cellularlog.can_proceed examples.both_done
       (cellularlog.TimeoutDone cellularlog.Canceled)
  /\ exists m' log e,
       mavlink.Process (mavlink.NewMessage examples.heartbeat)
         (Some examples.backend)
         (examples.script [cellularlog.Received (Some examples.attitude_frame);
                           cellularlog.TimeoutDone cellularlog.Canceled])
       = Go.Returned (m', log, e)
       /\ cellularlog.Error log = "request timeout"%string
       /\ cellularlog.Error log <> "context cancelled"%string.
Proof.
  split; [reflexivity|]. split; [intros _; discriminate|]. split; [reflexivity|].
  eexists _, _, _. split; [reflexivity|]. split; [reflexivity|discriminate].
Qed.

(** What the [select] of a telemetry request records, case by case. The
    request records "context cancelled" exactly when the [select] takes the
    lifetime case, which can proceed only once the lifetime context is
    cancelled: a request that waits in the [select] when the cancellation
    comes is reported as cancelled. While the lifetime context is live and
    no event is waiting, a request whose per-request context is done
    records "request timeout" and returns a non-nil error. With both
    contexts done the request records whichever case the [select] took. *)
Theorem lifetime_case_records_cancelled
    (m : mavlink.Message) b io skipped s rest (ready : cellularlog.Ready) :
  cellularlog.WriteMessageAll io = None ->
  cellularlog.Selects io = skipped ++ s :: rest ->
  forallb (mavlink.skips m) skipped = true ->
  mavlink.skips m s = false ->
  cellularlog.can_proceed ready s ->
  exists m' log e,
    mavlink.Process m (Some (cellularlog.ptr_Mavlink (Some b))) io
      = Go.Returned (m', log, e)
    /\ (s = cellularlog.LifetimeDone <->
        cellularlog.Error log = "context cancelled"%string)
    /\ (cellularlog.Error log = "context cancelled"%string ->
        cellularlog.lifetime ready = true /\ cellularlog.Success log = false)
    /\ (cellularlog.lifetime ready = false -> cellularlog.incoming ready = None ->
        cellularlog.Error log = "request timeout"%string
        /\ cellularlog.Success log = false /\ e <> None)
    /\ (cellularlog.lifetime ready = true -> cellularlog.incoming ready = None ->
        cellularlog.Error log = "context cancelled"%string
        \/ cellularlog.Error log = "request timeout"%string).
Proof.
  intros Hw Hsel Hskipped Hs Hready.
  rewrite (mavlink_Process_decided m b io skipped s rest Hw Hsel Hskipped Hs).
  destruct s as [|why|[[msg|name]|]]; simpl in *; try discriminate.
  - eexists _, _, _. split; [reflexivity|]. simpl.
    repeat split; auto; congruence.
  - eexists _, _, _. split; [reflexivity|]. simpl.
    repeat split; auto; try congruence; try discriminate.
  - case_decide; [|case_bool_decide; [contradiction|discriminate]].
    eexists _, _, _. split; [reflexivity|]. simpl.
    repeat split; try congruence; try discriminate.
  - eexists _, _, _. split; [reflexivity|]. simpl.
    repeat split; try congruence; try discriminate.
Qed.

(** ** Absent back ends *)

(** C3 at a failing input: on the processor [NewProcessor] builds, whose
    back-end fields are nil, [Request] of a telemetry message and of a
    modem message both panic on the nil interface, and so does the tick
    that polls such a message: no entry and no error come back. [Process]
    itself, handed the same nil [Requester], does fail with an error and a
    recorded entry. *)
Lemma Request_on_nil_backend_panics :
  cellularlog.NewProcessor false 1000000000 true 2 [3%positive]
    = Go.Returned (examples.processor [3%positive])
  /\ mavlink.Request (mavlink.NewMessage examples.heartbeat)
       (examples.processor [3%positive]) (examples.script [])
     = Go.Panic Go.nilDeref
  /\ AT.Request (AT.NewMessage "+CSQ")
       (examples.processor [1%positive]) (examples.script [])
     = Go.Panic Go.nilDeref
  /\ cellularlog.request
       (examples.state (examples.processor [3%positive]) (os.Create None))
       [(3%positive, examples.script [])]
     = Go.Panic Go.nilDeref
  /\ exists m' log,
       mavlink.Process (mavlink.NewMessage examples.heartbeat) None (examples.script [])
       = Go.Returned (m', log, Some (Go.New "error interface mismatch"))
       /\ mavlink.messages m' = [log].
Proof.
  split; [reflexivity|]. split; [reflexivity|]. split; [reflexivity|].
  split; [reflexivity|]. eexists _, _. split; reflexivity.
Qed.

(** ** The message set *)



(** ** Close *)

Section Shutdown.
Context {M W : Type} `{!cellularlog.Message M} `{!cellularlog.Writer W}.
Import cellularlog.

Lemma cancels_app (tr tr' : list Event) : cancels (tr ++ tr') = (cancels tr + cancels tr')%nat.
Proof. induction tr as [|[] tr IH]; simpl; auto. Qed.

Lemma closes_app (tr tr' : list Event) : closes (tr ++ tr') = closes tr ++ closes tr'.
Proof. induction tr as [|[] tr IH]; simpl; auto. by rewrite IH. Qed.

Lemma quiet_refl (st : State M W) : quiet st st.
Proof. repeat split. Qed.

Lemma quiet_trans (st1 st2 st3 : State M W) : quiet st1 st2 -> quiet st2 st3 -> quiet st1 st3.
Proof. unfold quiet. intuition congruence. Qed.

(** Appending events that are neither a cancellation nor a close, and
    changing objects, buffer or writer state, is quiet. *)
Lemma quiet_step (st st' : State M W) evs :
  trace st' = trace st ++ evs -> cancels evs = 0%nat -> closes evs = [] ->
  once (proc st') = once (proc st) -> writer (proc st') = writer (proc st) ->
  cancel (proc st') = cancel (proc st) -> wg (proc st') = wg (proc st) ->
  ctx (proc st') = ctx (proc st) ->
  quiet st st'.
Proof.
  intros Ht Hc Hcl. unfold quiet. rewrite Ht, cancels_app, closes_app, Hc, Hcl.
  rewrite app_nil_r. intuition.
Qed.

Lemma flushLogsUnsafe_quiet (st st' : State M W) :
  flushLogsUnsafe st = Go.Returned st' -> quiet st st'.
Proof.
  unfold flushLogsUnsafe.
  destruct (logBuffer (proc st)) as [|x l] eqn:Hb; [intros [= <-]; apply quiet_refl|].
  destruct (writer (proc st)) eqn:Hw; [|discriminate].
  destruct (Write (sink st) (x :: l)) as [w err].
  destruct (logBatchSize (proc st) <? 0); [discriminate|].
  intros [= <-]. eapply quiet_step; simpl; try reflexivity; auto.
  - by destruct err.
  - by destruct err.
Qed.

Lemma addLogEntry_quiet (st st' : State M W) entry :
  addLogEntry st entry = Go.Returned st' -> quiet st st'.
Proof.
  unfold addLogEntry. simpl.
  destruct (_ <=? _).
  - intros Hq%flushLogsUnsafe_quiet. eapply quiet_trans; [|exact Hq].
    apply (quiet_step _ _ []); simpl; auto. by rewrite app_nil_r.
  - intros [= <-]. apply (quiet_step _ _ []); simpl; auto. by rewrite app_nil_r.
Qed.

Lemma request_range_quiet snapshot : forall (st st' : State M W) err err',
  request_range st err snapshot = Go.Returned (st', err') -> quiet st st'.
Proof.
  induction snapshot as [|[a io] rest IH]; intros st st' err err'; simpl.
  - intros [= <- _]. apply quiet_refl.
  - destruct (heap st !! a) as [message|]; [|discriminate]. simpl.
    destruct (Request message (proc st) io) as [[[m' log] e]| |]; try discriminate.
    simpl.
    destruct (addLogEntry _ log) as [st1| |] eqn:Hadd; try discriminate. simpl.
    intros Hq%IH. apply addLogEntry_quiet in Hadd.
    eapply quiet_trans; [|exact Hq]. eapply quiet_trans; [|exact Hadd].
    eapply quiet_step; simpl; reflexivity.
Qed.

(** A loop that has returned did so on its [Done] case: it saw the context
    done and gave up its place in the wait group, without cancelling or
    closing anything itself. *)
Lemma loop_exit fired : forall (st st' : State M W),
  loop st fired = Go.Returned st' ->
  cancels (trace st') = cancels (trace st)
  /\ closes (trace st') = closes (trace st)
  /\ once (proc st') = once (proc st)
  /\ writer (proc st') = writer (proc st)
  /\ cancel (proc st') = cancel (proc st)
  /\ wg (proc st') = Nat.pred (wg (proc st))
  /\ ctx (proc st') = true.
Proof.
  intros st st'. unfold loop.
  destruct (interval (proc st) <=? 0); [discriminate|]. revert st st'.
  induction fired as [|f rest IH]; intros st st'; simpl; [discriminate|].
  destruct f as [|snapshot|].
  - destruct (flushLogs _) as [st1| |] eqn:Hf; try discriminate. simpl.
    intros [= <-]. apply flushLogsUnsafe_quiet in Hf.
    destruct Hf as (H1 & H2 & H3 & H4 & H5 & H6 & H7). simpl in *.
    rewrite H6. repeat split; assumption.
  - unfold request.
    destruct (request_range st None snapshot) as [[st1 err]| |] eqn:Hr;
      try discriminate. simpl.
    apply request_range_quiet in Hr.
    destruct Hr as (H1 & H2 & H3 & H4 & H5 & H6 & H7).
    destruct err as [e|]; intros Hq%IH;
      destruct Hq as (Q1 & Q2 & Q3 & Q4 & Q5 & Q6 & Q7); simpl in *;
      rewrite ?cancels_app, ?closes_app in *; simpl in *;
      rewrite ?app_nil_r, ?Nat.add_0_r in *;
      repeat split; congruence.
  - destruct (flushLogs st) as [st1| |] eqn:Hf; try discriminate. simpl.
    intros Hq%IH. apply flushLogsUnsafe_quiet in Hf.
    destruct Hf as (H1 & H2 & H3 & H4 & H5 & H6 & H7).
    destruct Hq as (Q1 & Q2 & Q3 & Q4 & Q5 & Q6 & Q7).
    repeat split; congruence.
Qed.

(** C4, amended. Of two consecutive calls of [Close], the first runs the
    shutdown once (one cancellation when [cancel] is set, which leaves the
    context done; the exit of the loop, which leaves the wait group; one
    [Close] of the writer when there is one) and the second is a no-op
    that changes nothing and returns nil. The first call returns nil
    exactly when the writer's [Close] reported no error, so only then do
    the two calls return the same value. *)
Theorem Close_twice_runs_shutdown_once (st st1 : State M W) racing racing' err1 :
  once (proc st) = false ->
  Processor_Close st racing = Go.Returned (st1, err1) ->
  Processor_Close st1 racing' = Go.Returned (st1, None)
  /\ cancels (trace st1)
     = (cancels (trace st) + if cancel (proc st) then 1 else 0)%nat
  /\ (cancel (proc st) = true -> ctx (proc st1) = true)
  /\ wg (proc st1) = Nat.pred (wg (proc st))
  /\ exists results,
       closes (trace st1) = closes (trace st) ++ results
       /\ length results = (if writer (proc st) then 1 else 0)%nat
       /\ (err1 = None <-> Forall (fun e => e = None) results).
Proof.
  intros Honce. unfold Processor_Close at 1. rewrite Honce. simpl.
  destruct (shutdown st racing) as [[st2 err]| |] eqn:Hs; try discriminate.
  simpl. intros Hret.
  assert (Hst1 : st1 = with_proc st2 (with_once (proc st2) true)
                 /\ err1 = match err with
                           | Some err => Some (Go.Errorf "error while closing processor" err)
                           | None => None
                           end).
  { destruct err; injection Hret as <- <-; auto. }
  destruct Hst1 as [-> ->]. clear Hret.
  split; [reflexivity|].
  unfold shutdown in Hs.
  set (st0 := if cancel (proc st)
              then emit (with_proc st (with_ctx (proc st) true)) [Cancelled]
              else st) in Hs.
  assert (Hst0 : cancels (trace st0)
                 = (cancels (trace st) + if cancel (proc st) then 1 else 0)%nat
                 /\ closes (trace st0) = closes (trace st)
                 /\ writer (proc st0) = writer (proc st)
                 /\ wg (proc st0) = wg (proc st)
                 /\ (cancel (proc st) = true -> ctx (proc st0) = true)).
  { subst st0. destruct (cancel (proc st)); simpl.
    - rewrite cancels_app, closes_app. simpl. rewrite app_nil_r. auto.
    - repeat split; auto with arith. discriminate. }
  destruct Hst0 as (Hc & Hcl & Hw & Hwg & Hctx).
  destruct (match wg (proc st0) with
            | O => Go.Returned st0
            | S _ => loop st0 (racing ++ if ctx (proc st0) then [Done] else [])
            end) as [st3| |] eqn:Hwait; try discriminate.
  assert (Hq : cancels (trace st3) = cancels (trace st0)
               /\ closes (trace st3) = closes (trace st0)
               /\ writer (proc st3) = writer (proc st0)
               /\ wg (proc st3) = Nat.pred (wg (proc st0))
               /\ (ctx (proc st0) = true -> ctx (proc st3) = true)).
  { destruct (wg (proc st0)) eqn:Hn.
    - injection Hwait as <-. rewrite Hn. auto.
    - apply loop_exit in Hwait. rewrite Hn in Hwait. tauto. }
  destruct Hq as (Q1 & Q2 & Q4 & Q6 & Q7). simpl in Hs.
  rewrite Q4, Hw in Hs. rewrite <- Hc, <- Q1, <- Hcl, <- Q2, <- Hwg, <- Q6.
  destruct (writer (proc st)).
  - destruct (Close (sink st3)) as [w e].
    assert (Hev : cancels (trace st3 ++ [WriterClosed e]) = cancels (trace st3)
                  /\ closes (trace st3 ++ [WriterClosed e]) = closes (trace st3) ++ [e]).
    { rewrite cancels_app, closes_app. simpl. auto with arith. }
    destruct Hev as [Hev1 Hev2].
    destruct e as [e|]; injection Hs as <- <-; simpl; rewrite Hev1, Hev2;
      (split; [reflexivity|]); (split; [auto|]); (split; [reflexivity|]);
      eexists; (split; [reflexivity|]); (split; [reflexivity|]).
    + split; [discriminate|]. intros Hall. by inversion Hall.
    + split; auto.
  - injection Hs as <- <-. simpl. split; [reflexivity|]. split; [auto|].
    split; [reflexivity|].
    exists []. rewrite app_nil_r. repeat split; auto.
Qed.

End Shutdown.

(** C4, as stated, fails in its last part: on a writer whose [Close]
    reports an error the first call returns that error, wrapped, and the
    second call returns nil. *)
Lemma second_Close_returns_nil_after_failed_first :
  let st := examples.state (examples.processor []) examples.closed_file in
  exists st1 e1,
    cellularlog.Processor_Close st [] = Go.Returned (st1, Some e1)
    /\ cellularlog.Processor_Close st1 [] = Go.Returned (st1, None)
    /\ cellularlog.closes (cellularlog.trace st1) = [Some os.ErrClosed].
Proof. eexists _, _. repeat split; reflexivity. Qed.

(** ** Buffering and flushing *)

Section Flushing.
Context {M W : Type} `{!cellularlog.Message M} `{!cellularlog.Writer W}.
Import cellularlog.


Lemma requested_app (tr tr' : list Event) :
  requested (tr ++ tr') = requested tr ++ requested tr'.
Proof. induction tr as [|[] tr IH]; simpl; auto. by rewrite IH. Qed.


(** With a writer present a flush always returns. *)
Lemma flushLogsUnsafe_returns (st : State M W) :
  writer (proc st) = true -> 0 <= logBatchSize (proc st) ->
  exists st', flushLogsUnsafe st = Go.Returned st'.
Proof.
  intros Hw Hn. unfold flushLogsUnsafe.
  destruct (logBuffer (proc st)) as [|x l]; [eauto|].
  rewrite Hw. destruct (Write (sink st) (x :: l)) as [w err].
  destruct (Z.ltb_spec (logBatchSize (proc st)) 0); [lia|eauto].
Qed.

Lemma addLogEntry_returns (st : State M W) entry :
  writer (proc st) = true -> 0 <= logBatchSize (proc st) ->
  exists st', addLogEntry st entry = Go.Returned st'.
Proof.
  intros Hw Hn. unfold addLogEntry. destruct (_ <=? _); [|eauto].
  by apply flushLogsUnsafe_returns.
Qed.


(** One pass of the body of [request] over a message whose call returns. *)
Lemma request_range_cons (st : State M W) err a io rest message message' log e :
  heap st !! a = Some message ->
  Request message (proc st) io = Go.Returned (message', log, e) ->
  request_range st err ((a, io) :: rest) =
    (st1 ← addLogEntry
            {| proc := proc st; heap := <[a := message']> (heap st);
               sink := sink st; trace := trace st ++ [Requested a log e] |} log;
     request_range st1
       (match e with Some e => multierr.Append err e | None => err end) rest).
Proof. intros Hm Hr. simpl. rewrite Hm. simpl. rewrite Hr. reflexivity. Qed.



End Flushing.

(** ** The loop comes back *)

Section Progress.
Context {W : Type} `{!cellularlog.Writer W}.
Import cellularlog objects.

Lemma skips_T (m m' : mavlink.Message) s :
  mavlink.T m = mavlink.T m' -> mavlink.skips m s = mavlink.skips m' s.
Proof. intros HT. destruct s as [|why|[[msg|name]|]]; simpl; by rewrite ?HT. Qed.

Lemma finishes_kind p (m m' : Msg) io :
  kind m = kind m' -> finishes p m io = finishes p m' io.
Proof.
  destruct m as [m|m], m' as [m'|m']; simpl; try discriminate; [|reflexivity].
  intros [= HT].
  destruct (Mavlink p) as [[[b|]|b]|]; try reflexivity.
  destruct (WriteMessageAll io); [reflexivity|]. f_equal.
  induction (Selects io) as [|s l IH]; simpl; [reflexivity|].
  by rewrite IH, (skips_T m m' s HT).
Qed.

Lemma Request_returns p (m : Msg) io :
  finishes p m io = true ->
  exists m' log e, Request m p io = Go.Returned (m', log, e) /\ kind m' = kind m.
Proof.
  destruct m as [m|m]; simpl; unfold mavlink.Request, AT.Request.
  - destruct (Mavlink p) as [[[b|]|b]|]; try discriminate; simpl.
    + destruct (WriteMessageAll io) as [err|]; simpl; [intros _; eauto 6|].
      intros Hf.
      destruct (mavlink.wait m _ _ _) as [[[m' log] e]| |reason] eqn:Hw; simpl.
      * apply mavlink_wait_returned in Hw as (_ & _ & _ & HT).
        eexists _, _, _. split; [reflexivity|]. simpl. by rewrite HT.
      * apply mavlink_wait_blocked in Hw. rewrite Hw in Hf. discriminate.
      * by apply mavlink_wait_no_panic in Hw.
    + intros _. eauto 6.
  - destruct (AT p) as [[b|[b|]]|]; try discriminate; simpl; intros _.
    + eauto 6.
    + destruct (Command io); simpl; eauto 6.
Qed.

Lemma stable_refl (st : State Msg W) : stable st st.
Proof. repeat split; eauto. Qed.

Lemma stable_trans (st1 st2 st3 : State Msg W) :
  stable st1 st2 -> stable st2 st3 -> stable st1 st3.
Proof.
  intros (A1 & A2 & A3 & A4 & A5) (B1 & B2 & B3 & B4 & B5).
  repeat split; try congruence.
  intros a m Hm. destruct (A5 a m Hm) as (m2 & Hm2 & Hk2).
  destruct (B5 a m2 Hm2) as (m3 & Hm3 & Hk3). exists m3. split; congruence.
Qed.

Lemma flushLogsUnsafe_stable (st st' : State Msg W) :
  flushLogsUnsafe st = Go.Returned st' -> stable st st'.
Proof.
  unfold flushLogsUnsafe.
  destruct (logBuffer (proc st)); [intros [= <-]; apply stable_refl|].
  destruct (writer (proc st)) eqn:Hw; [|discriminate].
  destruct (Write _ _) as [w err].
  destruct (logBatchSize (proc st) <? 0); [discriminate|].
  intros [= <-]. repeat split; simpl; eauto.
Qed.

Lemma addLogEntry_stable (st st' : State Msg W) entry :
  addLogEntry st entry = Go.Returned st' -> stable st st'.
Proof.
  unfold addLogEntry. simpl. destruct (_ <=? _).
  - intros Hf%flushLogsUnsafe_stable. exact Hf.
  - intros [= <-]. repeat split; simpl; eauto.
Qed.

Lemma answered_stable (st st' : State Msg W) fired :
  stable st st' ->
  answered (proc st) (heap st) fired -> answered (proc st') (heap st') fired.
Proof.
  intros (A1 & A2 & A3 & A4 & A5). unfold answered.
  intros Hall. eapply Forall_impl; [exact Hall|]. clear Hall.
  intros [|snapshot|]; auto.
  intros Hall. eapply Forall_impl; [exact Hall|]. clear Hall.
  intros [a io] (m & Hm & Hf).
  destruct (A5 a m Hm) as (m' & Hm' & Hk). exists m'. split; [exact Hm'|].
  rewrite (finishes_kind _ m' m io Hk). rewrite <- Hf.
  destruct m as [m|m]; simpl; by rewrite ?A1, ?A2.
Qed.

Lemma request_range_returns snapshot : forall (st : State Msg W) err,
  writer (proc st) = true -> 0 <= logBatchSize (proc st) ->
  answered (proc st) (heap st) [Tick snapshot] ->
  exists st' err',
    request_range st err snapshot = Go.Returned (st', err') /\ stable st st'.
Proof.
  induction snapshot as [|[a io] rest IH]; intros st err Hw Hn Ha.
  - simpl. eexists _, _. split; [reflexivity|apply stable_refl].
  - apply Forall_inv in Ha. inversion Ha as [|? ? Hhead Hrest]; subst.
    simpl in Hhead. destruct Hhead as (m & Hm & Hf).
    destruct (Request_returns _ m io Hf) as (m' & log & e & Hr & Hk).
    rewrite (request_range_cons st err a io rest m m' log e Hm Hr).
    set (st0 := {| proc := proc st; heap := <[a:=m']> (heap st); sink := sink st;
                   trace := trace st ++ [Requested a log e] |}).
    assert (Hst0 : stable st st0).
    { repeat split; simpl; auto. intros b mb Hb.
      destruct (decide (a = b)) as [->|Hne].
      - rewrite lookup_insert_eq. exists m'. split; [reflexivity|]. congruence.
      - rewrite lookup_insert_ne by exact Hne. eauto. }
    destruct (addLogEntry_returns st0 log Hw Hn) as [st1 Hadd].
    rewrite Hadd. simpl.
    assert (Hst1 : stable st st1)
      by (eapply stable_trans; [exact Hst0|by apply addLogEntry_stable in Hadd]).
    destruct Hst1 as (A1 & A2 & A3 & A4 & A5).
    destruct (IH st1
                (match e with Some e => multierr.Append err e | None => err end))
      as (st' & err' & Hrun & Hst'); [congruence|lia| |].
    { apply (answered_stable st st1 [Tick rest]); [repeat split; auto|].
      constructor; [exact Hrest|constructor]. }
    exists st', err'. split; [exact Hrun|].
    eapply stable_trans; [|exact Hst']. repeat split; auto.
Qed.

(** The [select] of a run in which every request can come back returns
    once its [Done] case fires. *)
Lemma loop_select_returns fired : forall (st : State Msg W),
  writer (proc st) = true -> 0 <= logBatchSize (proc st) ->
  answered (proc st) (heap st) fired ->
  exists st', loop_select st (fired ++ [Done]) = Go.Returned st'.
Proof.
  induction fired as [|f rest IH]; intros st Hw Hn Ha.
  - simpl.
    destruct (flushLogsUnsafe_returns (with_proc st (with_ctx (proc st) true)) Hw Hn)
      as [st1 Hf].
    unfold flushLogs. rewrite Hf. simpl. eauto.
  - inversion Ha as [|? ? Hf Hrest]; subst. destruct f as [|snapshot|]; simpl.
    + destruct (flushLogsUnsafe_returns (with_proc st (with_ctx (proc st) true)) Hw Hn)
        as [st1 Hfl].
      unfold flushLogs. rewrite Hfl. simpl. eauto.
    + destruct (request_range_returns snapshot st None Hw Hn)
        as (st1 & err & Hr & Hst); [constructor; [exact Hf|constructor]|].
      unfold request. rewrite Hr. simpl.
      pose proof (answered_stable st st1 rest Hst Hrest) as Ha1.
      destruct Hst as (A1 & A2 & A3 & A4 & A5).
      destruct err as [e|]; apply IH; simpl; auto; congruence || lia.
    + destruct (flushLogsUnsafe_returns st Hw Hn) as [st1 Hfl].
      unfold flushLogs. rewrite Hfl. simpl.
      pose proof (flushLogsUnsafe_stable st st1 Hfl) as Hst.
      pose proof (answered_stable st st1 rest Hst Hrest) as Ha1.
      destruct Hst as (A1 & A2 & A3 & A4 & A5).
      apply IH; auto; congruence || lia.
Qed.


(** X13. With a writer present and a positive polling interval, a run in
    which every request can come back returns once the [Done] case fires:
    it neither panics nor stays blocked. *)
Lemma loop_returns fired (st : State Msg W) :
  writer (proc st) = true -> 0 <= logBatchSize (proc st) ->
  0 < interval (proc st) ->
  answered (proc st) (heap st) fired ->
  exists st', loop st (fired ++ [Done]) = Go.Returned st'.
Proof.
  intros Hw Hn Hi Ha. unfold loop.
  destruct (Z.leb_spec (interval (proc st)) 0) as [Hle|_]; [lia|].
  by apply loop_select_returns.
Qed.

End Progress.

(** ** BinaryWriter *)

Lemma byte_of_to_N (z : Z) :
  Z.of_N (Byte.to_N (cellularlog.byte_of z)) = z mod 256.
Proof.
  unfold cellularlog.byte_of.
  assert (Hr : 0 <= z mod 256 < 256) by (apply Z.mod_pos_bound; lia).
  destruct (Byte.of_N (Z.to_N (z mod 256))) as [b|] eqn:Hb; simpl.
  - apply Byte.to_of_N in Hb. rewrite Hb. lia.
  - apply Byte.of_N_None_iff in Hb. lia.
Qed.

Lemma Uint32_PutUint32 (v : Z) b0 b1 b2 b3 :
  0 <= v < 2 ^ 32 ->
  cellularlog.PutUint32 v = [b0; b1; b2; b3] ->
  cellularlog.Uint32 b0 b1 b2 b3 = v.
Proof.
  intros Hv [= <- <- <- <-]. unfold cellularlog.Uint32.
  rewrite !byte_of_to_N, !Z.shiftr_div_pow2 by lia.
  change (2 ^ 8) with 256. change (2 ^ 16) with 65536.
  change (2 ^ 24) with 16777216. change (2 ^ 32) with 4294967296 in Hv.
  assert (H3 : v / 16777216 mod 256 = v / 16777216).
  { apply Z.mod_small. split; [apply Z.div_pos; lia|].
    apply Z.div_lt_upper_bound; lia. }
  rewrite H3.
  pose proof (Z.div_mod v 256 ltac:(lia)) as E0.
  pose proof (Z.div_mod (v / 256) 256 ltac:(lia)) as E1.
  pose proof (Z.div_mod (v / 65536) 256 ltac:(lia)) as E2.
  assert (D1 : v / 256 / 256 = v / 65536) by (rewrite Z.div_div by lia; reflexivity).
  assert (D2 : v / 65536 / 256 = v / 16777216) by (rewrite Z.div_div by lia; reflexivity).
  assert (M1 : (v / 256) mod 256 = v / 256 - 256 * (v / 65536)) by lia.
  assert (M2 : (v / 65536) mod 256 = v / 65536 - 256 * (v / 16777216)) by lia.
  lia.
Qed.

Lemma os_Write_ok {X} (f f' : os.File X) (b : list X) :
  os.Write f b = (f', None) -> os.written f' = os.written f ++ b.
Proof.
  unfold os.Write. destruct (os.closed f); [discriminate|].
  destruct (os.space f) as [n|]; [|by intros [= <-]].
  destruct (_ <=? _)%nat; [by intros [= <-]|discriminate].
Qed.

(** Reading one complete record off the front of a stream. *)
Lemma ReadFrames_frame fuel (data rest : list Byte.byte) :
  Z.of_nat (length data) < 2 ^ 32 ->
  cellularlog.ReadFrames (S fuel) (cellularlog.frame data ++ rest)
  = (data :: (cellularlog.ReadFrames fuel rest).1, (cellularlog.ReadFrames fuel rest).2).
Proof.
  intros Hlen. unfold cellularlog.frame.
  assert (Hu : Go.uint32 (Z.of_nat (length data)) = Z.of_nat (length data))
    by (apply Z.mod_small; lia).
  rewrite Hu.
  destruct (cellularlog.PutUint32 (Z.of_nat (length data)))
    as [|b0 [|b1 [|b2 [|b3 [|]]]]] eqn:Hp; try discriminate.
  apply Uint32_PutUint32 in Hp; [|lia].
  simpl. rewrite Hp, Nat2Z.id.
  rewrite length_app.
  destruct (Nat.leb_spec (length data) (length data + length rest)); [|lia].
  rewrite drop_app_length, take_app_length.
  by destruct (cellularlog.ReadFrames fuel rest).
Qed.

Lemma ReadFrames_frames (payloads : list (list Byte.byte)) : forall fuel,
  (length payloads < fuel)%nat ->
  Forall (fun d => Z.of_nat (length d) < 2 ^ 32) payloads ->
  cellularlog.ReadFrames fuel (concat (map cellularlog.frame payloads)) = (payloads, []).
Proof.
  induction payloads as [|d ds IH]; intros fuel Hfuel Hall.
  - destruct fuel; reflexivity.
  - destruct fuel as [|fuel]; [simpl in Hfuel; lia|].
    inversion Hall as [|? ? Hd Hds]; subst.
    change (concat (map cellularlog.frame (d :: ds)))
      with (cellularlog.frame d ++ concat (map cellularlog.frame ds)).
    rewrite ReadFrames_frame by exact Hd.
    rewrite IH; [reflexivity|simpl in Hfuel; lia|exact Hds].
Qed.

Lemma frame_length (d : list Byte.byte) : (4 <= length (cellularlog.frame d))%nat.
Proof. unfold cellularlog.frame. rewrite length_app. simpl. lia. Qed.

Lemma ReadAll_frames (payloads : list (list Byte.byte)) :
  Forall (fun d => Z.of_nat (length d) < 2 ^ 32) payloads ->
  cellularlog.ReadAll (concat (map cellularlog.frame payloads)) = (payloads, []).
Proof.
  intros Hall. apply ReadFrames_frames; [|exact Hall].
  clear Hall. induction payloads as [|d ds IH]; simpl; [lia|].
  rewrite length_app. pose proof (frame_length d). lia.
Qed.

Lemma repeat_byte_length (n : Z) :
  0 <= n -> Z.of_nat (length (repeat Byte.x00 (Z.to_nat n))) = n.
Proof. intros Hn. rewrite repeat_length, Z2Nat.id; auto. Qed.

(** The length prefix wraps at 2^32. *)
Lemma frame_prefix_wraps (data : list Byte.byte) :
  Z.of_nat (length data) = 2 ^ 32 ->
  take 4 (cellularlog.frame data) = [Byte.x00; Byte.x00; Byte.x00; Byte.x00].
Proof. intros Hlen. unfold cellularlog.frame. rewrite Hlen. reflexivity. Qed.

(** C8, as stated, fails on two kinds of batch. When [json.Marshal]
    rejects an entry, [Write] returns there: the rejected entry and every
    later entry of the batch get no frame. And a payload of 2^32 bytes gets
    the prefix 00 00 00 00, which is not its length. *)
Lemma BinaryWriter_Write_stops_at_rejected_entry :
  let entry i := cellularlog.new_log i "at-+CSQ" 0 in
  let big := repeat Byte.x00 (Z.to_nat (2 ^ 32)) in
  (exists payload,
      examples.Marshal (entry 0) = inr payload
      /\ cellularlog.BinaryWriter_Write examples.Marshal
           (cellularlog.NewBinaryWriter None) [entry 0; entry 1; entry 2]
         = ({| os.written := cellularlog.frame payload; os.space := None;
               os.closed := false |},
            Some (Go.New "json: unsupported value: NaN")))
  /\ Z.of_nat (length big) = 2 ^ 32
  /\ take 4 (cellularlog.frame big) = [Byte.x00; Byte.x00; Byte.x00; Byte.x00].
Proof.
  intros entry.
  assert (Hstop : exists payload,
             examples.Marshal (entry 0) = inr payload
             /\ cellularlog.BinaryWriter_Write examples.Marshal
                  (cellularlog.NewBinaryWriter None) [entry 0; entry 1; entry 2]
                = ({| os.written := cellularlog.frame payload; os.space := None;
                      os.closed := false |},
                   Some (Go.New "json: unsupported value: NaN")))
    by (eexists; split; [vm_compute; reflexivity|]; vm_compute; reflexivity).
  intros big.
  assert (Hlen : Z.of_nat (length big) = 2 ^ 32)
    by (apply repeat_byte_length; discriminate).
  split; [exact Hstop|]. split; [exact Hlen|].
  apply frame_prefix_wraps. exact Hlen.
Qed.

(** C8, amended. For every batch on which [Write] returns nil, every entry
    was encoded and the file grew by the entries' frames in order, each the
    4-byte little-endian encoding of the payload length taken modulo 2^32,
    followed by the payload. When every payload is shorter than 2^32
    bytes, reading the length-prefixed stream gives back exactly the
    payloads, in order and with nothing left over, and so the entries
    themselves under any decoder that inverts the encoder. *)
Theorem BinaryWriter_Write_frames
    (Marshal : cellularlog.LogEntry -> Go.error + list Byte.byte)
    (w w' : cellularlog.BinaryWriter) (entries : list cellularlog.LogEntry) :
  cellularlog.BinaryWriter_Write Marshal w entries = (w', None) ->
  exists payloads,
    Forall2 (fun entry data => Marshal entry = inr data) entries payloads
    /\ os.written w' = os.written w ++ concat (map cellularlog.frame payloads)
    /\ (Forall (fun d => Z.of_nat (length d) < 2 ^ 32) payloads ->
        cellularlog.ReadAll (concat (map cellularlog.frame payloads)) = (payloads, [])
        /\ forall Unmarshal : list Byte.byte -> option cellularlog.LogEntry,
             (forall e d, Marshal e = inr d -> Unmarshal d = Some e) ->
             mapM Unmarshal (cellularlog.ReadAll
                               (concat (map cellularlog.frame payloads))).1
             = Some entries).
Proof.
  intros Hw.
  assert (Hp : exists payloads,
             Forall2 (fun entry data => Marshal entry = inr data) entries payloads
             /\ os.written w' = os.written w ++ concat (map cellularlog.frame payloads)).
  { revert w Hw. induction entries as [|entry rest IH]; intros w; simpl.
    - intros [= <-]. exists []. rewrite app_nil_r. auto.
    - destruct (Marshal entry) as [err|data] eqn:Hm; [discriminate|].
      destruct (os.Write w _) as [w1 [e1|]] eqn:H1; [discriminate|].
      destruct (os.Write w1 data) as [w2 [e2|]] eqn:H2; [discriminate|].
      intros (payloads & Hall & Hwr)%IH.
      exists (data :: payloads). split; [by constructor|].
      apply os_Write_ok in H1, H2. rewrite Hwr, H2, H1. simpl.
      unfold cellularlog.frame. by rewrite <- !app_assoc. }
  destruct Hp as (payloads & Hall & Hwr).
  exists payloads. split; [exact Hall|]. split; [exact Hwr|].
  intros Hshort. rewrite (ReadAll_frames payloads Hshort).
  split; [reflexivity|]. intros Unmarshal Hinv. simpl.
  apply mapM_Some. clear Hwr Hshort Hw.
  induction Hall as [|e d es ds He Hes IH]; constructor; auto.
Qed.

(** ** Statistics *)

Lemma int64_small (z : Z) : - 2 ^ 63 <= z < 2 ^ 63 -> Go.int64 z = z.
Proof. intros Hz. unfold Go.int64. rewrite Z.mod_small; lia. Qed.

Section Queries.
Context {M W : Type} `{!cellularlog.Message M} `{!cellularlog.Writer W}.
Import cellularlog.

Lemma countSuccessful_spec (entries : list LogEntry) : forall acc,
  0 <= acc -> acc + Z.of_nat (length entries) < 2 ^ 63 ->
  countSuccessful entries acc = acc + Z.of_nat (length (successful entries)).
Proof.
  unfold successful.
  induction entries as [|entry rest IH]; intros acc Hacc Hlen; simpl in *; [lia|].
  destruct (Success entry) eqn:Hs.
  - rewrite filter_cons_True by exact Hs.
    rewrite int64_small by lia. rewrite IH by lia. simpl. lia.
  - rewrite filter_cons_False by (rewrite Hs; discriminate). apply IH; lia.
Qed.

Lemma entries_of_Some (h : gmap Go.addr M) messageType a message :
  h !! a = Some message ->
  entries_of h messageType a
  = if decide (GetType message = messageType) then GetAllEntries message else [].
Proof. intros Hm. unfold entries_of. by rewrite Hm. Qed.

Lemma successRate_range_spec (h : gmap Go.addr M) messageType values :
  forall total successful_so_far,
  (forall a, a ∈ values -> is_Some (h !! a)) ->
  0 <= successful_so_far <= total ->
  total + Z.of_nat (length (values ≫= entries_of h messageType)) < 2 ^ 63 ->
  successRate_range h messageType values total successful_so_far
  = Go.Returned
      (total + Z.of_nat (length (values ≫= entries_of h messageType)),
       successful_so_far
       + Z.of_nat (length (successful (values ≫= entries_of h messageType)))).
Proof.
  induction values as [|a rest IH]; intros total succ Hin Hs Hlen.
  - simpl. do 2 f_equal; lia.
  - destruct (Hin a ltac:(set_solver)) as [message Hm].
    rewrite bind_cons, (entries_of_Some h messageType a message Hm) in *.
    unfold successful in *. rewrite filter_app, !length_app.
    rewrite length_app in Hlen.
    simpl successRate_range. rewrite Hm.
    assert (Hfl := length_filter (fun entry => Success entry = true)
                     (GetAllEntries message)).
    destruct (decide (GetType message = messageType)).
    + rewrite int64_small by lia.
      rewrite countSuccessful_spec by lia. unfold successful.
      rewrite IH; [do 2 f_equal; lia|set_solver|lia|lia].
    + simpl in *. rewrite IH; [do 2 f_equal; lia|set_solver|lia|lia].
Qed.

Lemma total_duration_app (l1 l2 : list LogEntry) :
  total_duration (l1 ++ l2) = total_duration l1 + total_duration l2.
Proof. induction l1 as [|x l1 IH]; simpl; [reflexivity|]. rewrite IH. lia. Qed.

Lemma total_duration_Permutation (l1 l2 : list LogEntry) :
  l1 ≡ₚ l2 -> total_duration l1 = total_duration l2.
Proof. induction 1; simpl; lia. Qed.

(** Every qualifying entry lasts at least a nanosecond. *)
Lemma total_duration_qualifying (entries : list LogEntry) :
  Z.of_nat (length (qualifying entries)) <= total_duration (qualifying entries).
Proof.
  unfold qualifying. induction entries as [|entry rest IH]; simpl; [lia|].
  destruct (decide (Success entry = true /\ 0 < Duration entry)) as [Hq|Hq].
  - rewrite filter_cons_True by exact Hq. simpl. lia.
  - rewrite filter_cons_False by exact Hq. exact IH.
Qed.

Lemma sumDurations_spec (entries : list LogEntry) : forall totalDuration count,
  0 <= count <= totalDuration ->
  totalDuration + total_duration (qualifying entries) < 2 ^ 63 ->
  sumDurations entries totalDuration count
  = (totalDuration + total_duration (qualifying entries),
     count + Z.of_nat (length (qualifying entries))).
Proof.
  induction entries as [|entry rest IH]; intros tot cnt Hc Hsum.
  - simpl. f_equal; lia.
  - pose proof (total_duration_qualifying rest) as Hrest.
    unfold qualifying in *. simpl sumDurations.
    destruct (decide (Success entry = true /\ 0 < Duration entry)) as [Hq|Hq].
    + rewrite filter_cons_True in * by exact Hq. simpl in Hsum |- *.
      destruct Hq as [Hs Hd]. rewrite Hs. simpl.
      destruct (Z.ltb_spec 0 (Duration entry)); [|lia].
      rewrite !int64_small by lia. rewrite IH by lia. f_equal; lia.
    + rewrite filter_cons_False in * by exact Hq.
      assert (Hb : Success entry && (0 <? Duration entry) = false).
      { destruct (Success entry); simpl; [|reflexivity].
        destruct (Z.ltb_spec 0 (Duration entry)); [|reflexivity].
        exfalso. apply Hq. auto. }
      rewrite Hb. apply IH; assumption.
Qed.

Lemma averageResponseTime_range_spec (h : gmap Go.addr M) messageType values :
  forall totalDuration count,
  (forall a, a ∈ values -> is_Some (h !! a)) ->
  0 <= count <= totalDuration ->
  totalDuration
  + total_duration (qualifying (values ≫= entries_of h messageType)) < 2 ^ 63 ->
  averageResponseTime_range h messageType values totalDuration count
  = Go.Returned
      (totalDuration
       + total_duration (qualifying (values ≫= entries_of h messageType)),
       count
       + Z.of_nat (length (qualifying (values ≫= entries_of h messageType)))).
Proof.
  induction values as [|a rest IH]; intros tot cnt Hin Hc Hsum.
  - simpl. do 2 f_equal; lia.
  - destruct (Hin a ltac:(set_solver)) as [message Hm].
    rewrite bind_cons, (entries_of_Some h messageType a message Hm) in *.
    unfold qualifying in *. rewrite filter_app, length_app, total_duration_app in *.
    pose proof (total_duration_qualifying (rest ≫= entries_of h messageType)) as Hrest.
    unfold qualifying in Hrest.
    simpl averageResponseTime_range. rewrite Hm.
    destruct (decide (GetType message = messageType)).
    + pose proof (total_duration_qualifying (GetAllEntries message)) as Hthis.
      unfold qualifying in Hthis.
      rewrite sumDurations_spec by (unfold qualifying; lia). unfold qualifying.
      rewrite IH; [do 2 f_equal; lia|set_solver|lia|lia].
    + simpl in *. rewrite IH; [do 2 f_equal; lia|set_solver|lia|lia].
Qed.

(** C9. On a snapshot of the message set whose members are all message
    objects, with fewer than 2^63 matching entries and durations whose sum
    fits an int64: [GetSuccessRate] returns, in float64 arithmetic,
    (successful entries / matching entries) * 100, and 0 when there is no
    matching entry; [GetAverageResponseTime] returns the sum of the
    durations of the successful entries with a positive duration divided
    (as integers) by their number, and 0 when there is none. *)
Theorem statistics_over_matching_entries (st : State M W) messageType values :
  Values (messages (proc st)) values ->
  (forall a, a ∈ messages (proc st) -> is_Some (heap st !! a)) ->
  Z.of_nat (length (matching_entries st messageType)) < 2 ^ 63 ->
  total_duration (qualifying (matching_entries st messageType)) < 2 ^ 63 ->
  GetSuccessRate st messageType values
  = Go.Returned
      match matching_entries st messageType with
      | [] => Go.float64_zero
      | _ :: _ =>
          Go.float64_mul
            (Go.float64_div
               (Go.float64_of_int
                  (Z.of_nat (length (successful (matching_entries st messageType)))))
               (Go.float64_of_int
                  (Z.of_nat (length (matching_entries st messageType)))))
            (Go.float64_of_int 100)
      end
  /\ GetAverageResponseTime st messageType values
     = Go.Returned
         match qualifying (matching_entries st messageType) with
         | [] => 0
         | _ :: _ =>
             Z.quot (total_duration (qualifying (matching_entries st messageType)))
               (Z.of_nat (length (qualifying (matching_entries st messageType))))
         end.
Proof.
  intros Hvalues Hheap Hlen Hsum. unfold matching_entries in *.
  assert (Hperm : values ≫= entries_of (heap st) messageType
                  ≡ₚ elements (messages (proc st)) ≫= entries_of (heap st) messageType)
    by (unfold Values in Hvalues; by rewrite Hvalues).
  assert (Hin : forall a, a ∈ values -> is_Some (heap st !! a)).
  { intros a Ha. apply Hheap. unfold Values in Hvalues.
    rewrite Hvalues in Ha. by apply elem_of_elements. }
  set (E := elements (messages (proc st)) ≫= entries_of (heap st) messageType) in *.
  set (V := values ≫= entries_of (heap st) messageType) in *.
  assert (HlenV : length V = length E) by (by rewrite Hperm).
  assert (HsuccV : length (successful V) = length (successful E))
    by (unfold successful; by rewrite Hperm).
  assert (HqV : qualifying V ≡ₚ qualifying E)
    by (unfold qualifying; by rewrite Hperm).
  split.
  - unfold GetSuccessRate.
    rewrite successRate_range_spec; [|exact Hin|lia|fold V; lia].
    fold V. simpl. rewrite HlenV, HsuccV.
    destruct E as [|x E']; [reflexivity|]. simpl length.
    destruct (Z.eqb_spec (0 + Z.of_nat (S (length E'))) 0); [lia|]. reflexivity.
  - unfold GetAverageResponseTime.
    rewrite averageResponseTime_range_spec;
      [|exact Hin|lia|fold V; rewrite (total_duration_Permutation _ _ HqV); lia].
    fold V. simpl.
    rewrite (total_duration_Permutation _ _ HqV), (Permutation_length HqV).
    destruct (qualifying E) as [|x Q]; [reflexivity|]. simpl length.
    destruct (Z.eqb_spec (Z.of_nat (S (length Q))) 0); [lia|]. reflexivity.
Qed.

End Queries.

(** ** The theorems at concrete inputs *)


(** A request that passes over an attitude frame and then ends on the
    lifetime case, and one that ends on its deadline while the lifetime
    context is live. *)
Lemma lifetime_case_records_cancelled_witness :
  cellularlog.can_proceed examples.both_done cellularlog.LifetimeDone
  /\ cellularlog.can_proceed examples.deadline_passed
       (cellularlog.TimeoutDone cellularlog.DeadlineExceeded)
  /\ (exists m' log e,
        mavlink.Process (mavlink.NewMessage examples.heartbeat)
          (Some (cellularlog.ptr_Mavlink (Some 7%positive)))
          (examples.script [cellularlog.Received (Some examples.attitude_frame);
                            cellularlog.LifetimeDone])
        = Go.Returned (m', log, e)
        /\ cellularlog.Error log = "context cancelled"%string)
  /\ (exists m' log e,
        mavlink.Process (mavlink.NewMessage examples.heartbeat)
          (Some (cellularlog.ptr_Mavlink (Some 7%positive)))
          (examples.script [cellularlog.TimeoutDone cellularlog.DeadlineExceeded])
        = Go.Returned (m', log, e)
        /\ cellularlog.Error log = "request timeout"%string /\ e <> None).
Proof.
  split; [reflexivity|]. split; [reflexivity|]. split.
  - destruct (lifetime_case_records_cancelled (mavlink.NewMessage examples.heartbeat)
                7%positive
                (examples.script [cellularlog.Received (Some examples.attitude_frame);
                                  cellularlog.LifetimeDone])
                [cellularlog.Received (Some examples.attitude_frame)]
                cellularlog.LifetimeDone [] examples.both_done
                eq_refl eq_refl eq_refl eq_refl eq_refl)
      as (m' & log & e & HP & Hiff & _).
    exists m', log, e. split; [exact HP|]. apply Hiff. reflexivity.
  - destruct (lifetime_case_records_cancelled (mavlink.NewMessage examples.heartbeat)
                7%positive
                (examples.script [cellularlog.TimeoutDone cellularlog.DeadlineExceeded])
                [] (cellularlog.TimeoutDone cellularlog.DeadlineExceeded) []
                examples.deadline_passed
                eq_refl eq_refl eq_refl eq_refl eq_refl)
      as (m' & log & e & HP & _ & _ & Hlive & _).
    exists m', log, e. split; [exact HP|].
    destruct (Hlive eq_refl eq_refl) as (Ht & _ & He). split; assumption.
Defined.

(** Closing a processor with an open file twice. *)
Lemma Close_twice_runs_shutdown_once_witness :
  exists st1,
    cellularlog.once (cellularlog.proc examples.polling) = false
    /\ cellularlog.Processor_Close examples.polling [] = Go.Returned (st1, None)
    /\ cellularlog.Processor_Close st1 [] = Go.Returned (st1, None)
    /\ cellularlog.cancels (cellularlog.trace st1) = 1%nat.
Proof.
  eexists. split; [reflexivity|]. split; [vm_compute; reflexivity|].
  refine (let H := Close_twice_runs_shutdown_once examples.polling _ [] [] None
                     eq_refl _ in conj (proj1 H) (proj1 (proj2 H))).
  vm_compute; reflexivity.
Defined.


(** A heartbeat request that passes over an attitude frame and then
    receives a heartbeat: one entry, index 1 afterwards. *)
Lemma Process_appends_exactly_one_entry_witness :
  mavlink.skips (mavlink.NewMessage examples.heartbeat)
    (cellularlog.Received (Some examples.attitude_frame)) = true
  /\ (forall log now rest,
        mavlink.wait (mavlink.NewMessage examples.heartbeat) log now
          (cellularlog.Received (Some examples.attitude_frame) :: rest)
        = mavlink.wait (mavlink.NewMessage examples.heartbeat) log now rest)
  /\ exists m' log,
       mavlink.Process (mavlink.NewMessage examples.heartbeat) (Some examples.backend)
         (examples.script [cellularlog.Received (Some examples.attitude_frame);
                           cellularlog.Received (Some examples.heartbeat_frame)])
       = Go.Returned (m', log, None)
       /\ mavlink.messages m' = [log] /\ mavlink.index m' = 1
       /\ cellularlog.Success log = true.
Proof.
  split; [reflexivity|]. split.
  - intros log now rest.
    exact (proj2 (proj2 Process_appends_exactly_one_entry)
             (mavlink.NewMessage examples.heartbeat) log now
             (cellularlog.Received (Some examples.attitude_frame)) rest eq_refl).
  - pose proof (proj1 Process_appends_exactly_one_entry
                  (mavlink.NewMessage examples.heartbeat) (Some examples.backend)
                  (examples.script [cellularlog.Received (Some examples.attitude_frame);
                                    cellularlog.Received (Some examples.heartbeat_frame)]))
      as Hone.
    destruct (mavlink.Process _ _ _) as [[[m' log] e]| |] eqn:HP;
      [|vm_compute in HP; discriminate HP..].
    destruct Hone as (Hm & Hi & _).
    assert (He : e = None /\ cellularlog.Success log = true).
    { vm_compute in HP. injection HP as _ <- <-. split; reflexivity. }
    destruct He as [-> Hs].
    exists m', log. split; [reflexivity|]. split; [exact Hm|].
    split; [exact Hi|exact Hs].
Defined.

(** Two frames written to an empty file and read back. *)
Lemma BinaryWriter_Write_frames_witness :
  let entries := [cellularlog.new_log 0 "at-+CSQ" 0; cellularlog.new_log 2 "at-+CSQ" 0] in
  exists w' payloads,
    cellularlog.BinaryWriter_Write examples.Marshal (os.Create None) entries = (w', None)
    /\ Forall (fun d => Z.of_nat (length d) < 2 ^ 32) payloads
    /\ cellularlog.ReadAll (os.written w') = (payloads, [])
    /\ Forall2 (fun entry data => examples.Marshal entry = inr data) entries payloads.
Proof.
  intros entries.
  destruct (cellularlog.BinaryWriter_Write examples.Marshal (os.Create None) entries)
    as [w' err] eqn:Hw.
  assert (Herr : err = None) by (vm_compute in Hw; congruence).
  subst err.
  destruct (BinaryWriter_Write_frames examples.Marshal (os.Create None) w' entries Hw)
    as (payloads & Hall & Hwr & Hread).
  assert (Hshort : Forall (fun d => Z.of_nat (length d) < 2 ^ 32) payloads).
  { inversion Hall as [|? d0 ? ds0 H0 Hrest]; subst.
    inversion Hrest as [|? d1 ? ds1 H1 Hnil]; subst. inversion Hnil; subst.
    vm_compute in H0, H1.
    injection H0 as <-. injection H1 as <-.
    repeat constructor. }
  exists w', payloads. split; [reflexivity|]. split; [exact Hshort|].
  split; [|exact Hall].
  rewrite Hwr. simpl. exact (proj1 (Hread Hshort)).
Defined.

(** The spec's example: two successes of 100 ms and 200 ms and one failure
    give the success rate 66.66666666666666 (the float64 product of the
    quotient 2/3 and 100), which rounds to 66.67, and an average of
    150 ms. The snapshot lists the members in another order than
    [elements]; the third member is a telemetry message, which does not
    match the type. *)
Lemma statistics_over_matching_entries_witness :
  cellularlog.Values (cellularlog.messages (cellularlog.proc examples.survey))
    [1%positive; 3%positive]
  /\ length (cellularlog.matching_entries examples.survey "at-+CSQ") = 3%nat
  /\ cellularlog.GetSuccessRate examples.survey "at-+CSQ" [1%positive; 3%positive]
     = Go.Returned (S754_finite false 4691249611844266 (-46))
  /\ 66665 * 2 ^ 46 <= 1000 * 4691249611844266 < 66675 * 2 ^ 46
  /\ cellularlog.GetAverageResponseTime examples.survey "at-+CSQ"
       [1%positive; 3%positive]
     = Go.Returned 150000000.
Proof.
  assert (Hvalues : cellularlog.Values
                      (cellularlog.messages (cellularlog.proc examples.survey))
                      [1%positive; 3%positive]).
  { unfold cellularlog.Values.
    replace (elements (cellularlog.messages (cellularlog.proc examples.survey)))
      with [3%positive; 1%positive] by (vm_compute; reflexivity).
    apply perm_swap. }
  assert (Hheap : forall a,
             a ∈ cellularlog.messages (cellularlog.proc examples.survey) ->
             is_Some (cellularlog.heap examples.survey !! a)).
  { apply (bool_decide_unpack
             (set_Forall (fun a => is_Some (cellularlog.heap examples.survey !! a))
                (cellularlog.messages (cellularlog.proc examples.survey)))).
    vm_compute. exact I. }
  assert (Hlen : Z.of_nat (length (cellularlog.matching_entries examples.survey
                                     "at-+CSQ")) < 2 ^ 63)
    by (vm_compute; reflexivity).
  assert (Hsum : cellularlog.total_duration
                   (cellularlog.qualifying
                      (cellularlog.matching_entries examples.survey "at-+CSQ"))
                 < 2 ^ 63)
    by (vm_compute; reflexivity).
  destruct (statistics_over_matching_entries examples.survey "at-+CSQ"
              [1%positive; 3%positive] Hvalues Hheap Hlen Hsum)
    as [Hrate Hmean].
  split; [exact Hvalues|]. split; [vm_compute; reflexivity|].
  split; [rewrite Hrate; vm_compute; reflexivity|].
  split; [lia|]. rewrite Hmean. vm_compute. reflexivity.
Defined.


(** * Further properties of the writers *)


(** ** CSVWriter *)

Lemma os_Write_part {X} (f f' : os.File X) (b : list X) err :
  os.Write f b = (f', err) ->
  exists part, os.written f' = os.written f ++ part /\ part `prefix_of` b
               /\ (err = None -> part = b).
Proof.
  unfold os.Write. destruct (os.closed f).
  { intros [= <- <-]. exists []. rewrite app_nil_r.
    split; [reflexivity|]. split; [apply prefix_nil|discriminate]. }
  destruct (os.space f) as [n|]; [destruct (_ <=? _)%nat|]; intros [= <- <-]; simpl.
  - exists b. done.
  - exists (take n b). split; [reflexivity|]. split; [apply prefix_take|discriminate].
  - exists b. done.
Qed.

Lemma os_Write_roomy {X} (f : os.File X) (b : list X) :
  os.space f = None -> os.closed f = false ->
  os.Write f b
  = ({| os.written := os.written f ++ b; os.space := None; os.closed := false |}, None).
Proof. unfold os.Write. by intros -> ->. Qed.

Lemma Flush_roomy (b : bufio.Writer) :
  bufio.roomy b ->
  exists b', bufio.Flush b = (b', None) /\ bufio.roomy b' /\ bufio.buf b' = []
             /\ os.written (bufio.wr b') = os.written (bufio.wr b) ++ bufio.buf b.
Proof.
  intros (Hs & Hc & He). unfold bufio.Flush. rewrite He.
  destruct (bufio.buf b) as [|x l] eqn:Hb.
  - exists b. rewrite Hb, app_nil_r. by repeat split.
  - rewrite (os_Write_roomy _ _ Hs Hc). eexists. split; [reflexivity|]. by repeat split.
Qed.

Lemma WriteString_roomy (b : bufio.Writer) (s : list Byte.byte) :
  bufio.roomy b ->
  exists b', bufio.WriteString b s = (b', None) /\ bufio.roomy b'
             /\ os.written (bufio.wr b') ++ bufio.buf b'
                = os.written (bufio.wr b) ++ bufio.buf b ++ s.
Proof.
  intros (Hs & Hc & He). unfold bufio.WriteString. rewrite He.
  destruct (_ <=? bufio.Available b).
  { eexists. split; [reflexivity|]. by repeat split. }
  destruct (bufio.buf b) as [|x l] eqn:Hb.
  { rewrite (os_Write_roomy _ _ Hs Hc). eexists. split; [reflexivity|].
    simpl. rewrite app_nil_r. by repeat split. }
  set (room := Z.to_nat (bufio.Available b)).
  destruct (Flush_roomy {| bufio.wr := bufio.wr b;
                           bufio.buf := (x :: l) ++ take room s;
                           bufio.err := None |})
    as (b1 & -> & (Hs1 & Hc1 & He1) & Hb1 & Hw1); [by repeat split|].
  simpl in Hw1. destruct (_ <=? bufio.Available b1).
  - eexists. split; [reflexivity|]. split; [by repeat split|]. simpl.
    rewrite Hw1, Hb1. simpl. rewrite <- !app_assoc. simpl.
    by rewrite <- (app_assoc l), take_drop.
  - rewrite (os_Write_roomy _ _ Hs1 Hc1). eexists. split; [reflexivity|].
    split; [by repeat split|]. simpl. rewrite Hw1, app_nil_r, <- !app_assoc. simpl.
    by rewrite <- (app_assoc l), take_drop.
Qed.

Lemma Flush_accounts (b b' : bufio.Writer) stream e :
  bufio.accounts b stream -> bufio.Flush b = (b', e) ->
  bufio.accounts b' stream /\ e = bufio.err b' /\ (e = None -> bufio.buf b' = []).
Proof.
  unfold bufio.accounts, bufio.Flush. destruct (bufio.err b) as [e0|] eqn:He.
  { intros Hp [= <- <-]. rewrite He. by repeat split. }
  destruct (bufio.buf b) as [|x l] eqn:Hb.
  { intros Hp [= <- <-]. rewrite He, Hb. by repeat split. }
  intros Hp. destruct (os.Write (bufio.wr b) (x :: l)) as [f [e1|]] eqn:Hw;
    apply os_Write_part in Hw as (part & Hf & Hpart & Hall); intros [= <- <-]; simpl.
  - split; [|by repeat split]. rewrite Hf, <- Hp. by apply prefix_app.
  - rewrite Hf, (Hall eq_refl), app_nil_r. by repeat split.
Qed.

Lemma WriteString_accounts (b b' : bufio.Writer) (s stream : list Byte.byte) e :
  bufio.accounts b stream -> bufio.WriteString b s = (b', e) ->
  bufio.accounts b' (stream ++ s) /\ e = bufio.err b'.
Proof.
  unfold bufio.WriteString. intros Hacc.
  destruct (bufio.err b) as [e0|] eqn:He.
  { intros [= <- <-]. unfold bufio.accounts in *. rewrite He in *.
    split; [by apply prefix_app_r|reflexivity]. }
  assert (Hall : os.written (bufio.wr b) ++ bufio.buf b = stream)
    by (unfold bufio.accounts in Hacc; by rewrite He in Hacc).
  destruct (_ <=? bufio.Available b).
  { intros [= <- <-]. unfold bufio.accounts. simpl.
    by rewrite app_assoc, Hall. }
  destruct (bufio.buf b) as [|x l] eqn:Hb.
  { rewrite app_nil_r in Hall.
    destruct (os.Write (bufio.wr b) s) as [f e1] eqn:Hw.
    apply os_Write_part in Hw as (part & Hf & Hpart & Hfull). intros [= <- <-].
    unfold bufio.accounts. simpl. split; [|reflexivity]. destruct e1 as [e1|].
    - rewrite Hf, Hall. by apply prefix_app.
    - by rewrite Hf, (Hfull eq_refl), app_nil_r, Hall. }
  set (room := Z.to_nat (bufio.Available b)).
  destruct (bufio.Flush _) as [b1 e1] eqn:Hfl.
  apply (Flush_accounts _ _ (stream ++ take room s)) in Hfl as (Hacc1 & -> & Hempty).
  2:{ unfold bufio.accounts. simpl. by rewrite <- Hall, <- app_assoc. }
  assert (Hsplit : (stream ++ take room s) ++ drop room s = stream ++ s)
    by (by rewrite <- app_assoc, take_drop).
  unfold bufio.accounts in Hacc1.
  destruct (bufio.err b1) as [e1|] eqn:He1.
  { intros [= <- <-]. unfold bufio.accounts. rewrite He1.
    split; [|reflexivity]. rewrite <- Hsplit. by apply prefix_app_r. }
  rewrite (Hempty eq_refl), app_nil_r in Hacc1.
  destruct (_ <=? bufio.Available b1).
  { intros [= <- <-]. unfold bufio.accounts. simpl.
    rewrite (Hempty eq_refl), Hacc1. simpl. by rewrite Hsplit. }
  destruct (os.Write (bufio.wr b1) (drop room s)) as [f e2] eqn:Hw.
  apply os_Write_part in Hw as (part & Hf & Hpart & Hfull). intros [= <- <-].
  unfold bufio.accounts. simpl. split; [|reflexivity]. destruct e2 as [e2|].
  - rewrite Hf, Hacc1, <- Hsplit. by apply prefix_app.
  - by rewrite Hf, (Hfull eq_refl), app_nil_r, Hacc1, Hsplit.
Qed.

Lemma accounts_failed (b : bufio.Writer) (stream more : list Byte.byte) :
  bufio.err b <> None -> bufio.accounts b stream -> bufio.accounts b (stream ++ more).
Proof.
  unfold bufio.accounts. destruct (bufio.err b); [|done].
  intros _ Hp. by apply prefix_app_r.
Qed.

Lemma accounts_written (b : bufio.Writer) (stream : list Byte.byte) :
  bufio.accounts b stream -> os.written (bufio.wr b) `prefix_of` stream.
Proof.
  unfold bufio.accounts. destruct (bufio.err b); [done|].
  intros <-. by apply prefix_app_r.
Qed.

Section CSVLines.
Variable Sprint : cellularlog.any -> string.
Variable Format : Go.Time -> string.
Variable Millis : Go.Duration -> string.
Variable pieces : list string -> list (list Byte.byte).
Import cellularlog.

Lemma csv_Write_pieces_roomy (ps : list (list Byte.byte)) : forall b,
  bufio.roomy b ->
  exists b', csv_Write_pieces b ps = (b', None) /\ bufio.roomy b'
             /\ os.written (bufio.wr b') ++ bufio.buf b'
                = os.written (bufio.wr b) ++ bufio.buf b ++ concat ps.
Proof.
  induction ps as [|piece rest IH]; intros b Hroomy.
  - exists b. simpl. by rewrite app_nil_r.
  - destruct (WriteString_roomy b piece Hroomy) as (b1 & Hw & Hr1 & H1).
    destruct (IH b1 Hr1) as (b2 & Hrest & Hr2 & H2).
    exists b2. simpl. rewrite Hw. split; [exact Hrest|]. split; [exact Hr2|].
    by rewrite H2, app_assoc, H1, <- !app_assoc.
Qed.

Lemma csv_records_roomy (entries : list LogEntry) : forall b,
  bufio.roomy b ->
  exists b', csv_records Sprint Format Millis pieces b entries = (b', None)
             /\ bufio.roomy b'
             /\ os.written (bufio.wr b') ++ bufio.buf b'
                = os.written (bufio.wr b) ++ bufio.buf b
                  ++ concat (map (fun entry =>
                                    csv_line pieces (csv_record Sprint Format Millis entry))
                               entries).
Proof.
  induction entries as [|entry rest IH]; intros b Hroomy.
  - exists b. simpl. by rewrite app_nil_r.
  - destruct (csv_Write_pieces_roomy
                (pieces (csv_record Sprint Format Millis entry)) b Hroomy)
      as (b1 & Hw & Hr1 & H1).
    destruct (IH b1 Hr1) as (b2 & Hrest & Hr2 & H2).
    exists b2. simpl. unfold csv_Write. rewrite Hw.
    split; [exact Hrest|]. split; [exact Hr2|].
    unfold csv_line at 1. by rewrite H2, app_assoc, H1, <- !app_assoc.
Qed.

(** On a device without limit a call of [Write] that starts with an empty
    buffer puts its lines in the file and leaves the buffer empty. *)
Lemma CSVWriter_Write_roomy (w : CSVWriter) (entries : list LogEntry) :
  bufio.roomy (csv_writer w) -> bufio.buf (csv_writer w) = [] ->
  CSVWriter_Write Sprint Format Millis pieces w entries
  = ({| csv_writer :=
          {| bufio.wr :=
               {| os.written :=
                    os.written (bufio.wr (csv_writer w))
                    ++ (if header w then [] else csv_line pieces csv_header)
                    ++ concat (map (fun entry =>
                                      csv_line pieces
                                        (csv_record Sprint Format Millis entry))
                                 entries);
                  os.space := None; os.closed := false |};
             bufio.buf := []; bufio.err := None |};
        header := true |}, None).
Proof.
  intros Hroomy Hempty. unfold CSVWriter_Write.
  assert (Hhead : exists b1,
            (if header w then (csv_writer w, None)
             else csv_Write pieces (csv_writer w) csv_header) = (b1, None)
            /\ bufio.roomy b1
            /\ os.written (bufio.wr b1) ++ bufio.buf b1
               = os.written (bufio.wr (csv_writer w))
                 ++ (if header w then [] else csv_line pieces csv_header)).
  { destruct (header w).
    - exists (csv_writer w). by rewrite Hempty, !app_nil_r.
    - destruct (csv_Write_pieces_roomy (pieces csv_header) (csv_writer w) Hroomy)
        as (b1 & Hw & Hr1 & H1).
      exists b1. rewrite Hempty in H1. simpl in H1.
      split; [exact Hw|]. split; [exact Hr1|exact H1]. }
  destruct Hhead as (b1 & -> & Hr1 & H1).
  destruct (csv_records_roomy entries b1 Hr1) as (b2 & -> & Hr2 & H2).
  destruct (Flush_roomy b2 Hr2) as (b3 & Hfl & (Hs3 & Hc3 & He3) & Hb3 & H3).
  rewrite Hfl. simpl. rewrite He3. f_equal.
  destruct b3 as [[written3 space3 closed3] buf3 err3]. simpl in *. subst.
  by rewrite app_assoc, <- H1, <- !app_assoc, <- H2.
Qed.

Lemma CSVWriter_Writes_roomy (batches : list (list LogEntry)) : forall lines,
  CSVWriter_Writes Sprint Format Millis pieces
    {| csv_writer :=
         {| bufio.wr := {| os.written := lines; os.space := None; os.closed := false |};
            bufio.buf := []; bufio.err := None |};
       header := true |} batches
  = {| csv_writer :=
         {| bufio.wr :=
              {| os.written :=
                   lines ++ concat (map (fun entry =>
                                           csv_line pieces
                                             (csv_record Sprint Format Millis entry))
                                      (concat batches));
                 os.space := None; os.closed := false |};
            bufio.buf := []; bufio.err := None |};
       header := true |}.
Proof.
  unfold CSVWriter_Writes.
  induction batches as [|b rest IH]; intros lines; simpl.
  - by rewrite app_nil_r.
  - rewrite CSVWriter_Write_roomy by (by repeat split). simpl.
    rewrite IH. by rewrite map_app, concat_app, app_assoc.
Qed.

(** X2. On a device without limit, one or more calls of [Write] on a new CSV
    writer leave the line of the header followed by one line per entry, in
    the order of the calls and of the entries within each call; an empty
    batch still writes the header. *)
Theorem CSVWriter_Writes_rows (batches : list (list LogEntry)) :
  batches <> [] ->
  let w := CSVWriter_Writes Sprint Format Millis pieces (NewCSVWriter None) batches in
  os.written (bufio.wr (csv_writer w))
  = concat (map (csv_line pieces)
              (csv_header :: map (csv_record Sprint Format Millis) (concat batches)))
  /\ header w = true.
Proof.
  destruct batches as [|first more]; [done|]. intros _.
  change (CSVWriter_Writes Sprint Format Millis pieces (NewCSVWriter None) (first :: more))
    with (CSVWriter_Writes Sprint Format Millis pieces
            (CSVWriter_Write Sprint Format Millis pieces (NewCSVWriter None) first).1 more).
  rewrite CSVWriter_Write_roomy by (by repeat split).
  simpl. rewrite CSVWriter_Writes_roomy. simpl.
  split; [|reflexivity].
  by rewrite <- app_assoc, <- concat_app, <- map_app, map_map.
Qed.

Lemma csv_Write_pieces_accounts (ps : list (list Byte.byte)) :
  forall (b b' : bufio.Writer) stream e,
  bufio.accounts b stream -> csv_Write_pieces b ps = (b', e) ->
  bufio.accounts b' (stream ++ concat ps)
  /\ (forall x, e = Some x -> bufio.err b' = Some x).
Proof.
  induction ps as [|piece rest IH]; intros b b' stream e Hacc; simpl.
  - intros [= <- <-]. rewrite app_nil_r. split; [exact Hacc|discriminate].
  - destruct (bufio.WriteString b piece) as [b1 e1] eqn:Hw.
    apply (WriteString_accounts _ _ _ stream) in Hw as [Hacc1 ->]; [|exact Hacc].
    destruct (bufio.err b1) as [x|] eqn:He1.
    + intros [= <- <-]. split; [|by intros ? [= <-]].
      rewrite app_assoc. apply accounts_failed; [by rewrite He1|exact Hacc1].
    + intros Hrest. rewrite app_assoc. by apply (IH b1).
Qed.

Lemma csv_records_accounts (entries : list LogEntry) :
  forall (b b' : bufio.Writer) stream e,
  bufio.accounts b stream ->
  csv_records Sprint Format Millis pieces b entries = (b', e) ->
  bufio.accounts b'
    (stream ++ concat (map (fun entry =>
                              csv_line pieces (csv_record Sprint Format Millis entry))
                         entries))
  /\ (forall x, e = Some x -> bufio.err b' = Some x).
Proof.
  induction entries as [|entry rest IH]; intros b b' stream e Hacc; simpl.
  - intros [= <- <-]. rewrite app_nil_r. split; [exact Hacc|discriminate].
  - unfold csv_Write.
    destruct (csv_Write_pieces b _) as [b1 e1] eqn:Hw.
    apply (csv_Write_pieces_accounts _ _ _ stream) in Hw as [Hacc1 He1]; [|exact Hacc].
    destruct e1 as [x|].
    + intros [= <- <-]. split; [|by intros ? [= <-]; apply He1].
      rewrite app_assoc. apply accounts_failed; [by rewrite (He1 x eq_refl)|exact Hacc1].
    + intros Hrest. rewrite app_assoc. by apply (IH b1).
Qed.

(** What a call of [Write] hands over is accounted for, and a call that
    leaves no error behind has flushed and set the flag. *)
Lemma CSVWriter_Write_accounts (w : CSVWriter) (entries : list LogEntry) stream :
  bufio.accounts (csv_writer w) stream ->
  let w' := (CSVWriter_Write Sprint Format Millis pieces w entries).1 in
  bufio.accounts (csv_writer w')
    (stream ++ (if header w then [] else csv_line pieces csv_header)
     ++ concat (map (fun entry =>
                       csv_line pieces (csv_record Sprint Format Millis entry))
                  entries))
  /\ (bufio.err (csv_writer w') = None ->
      bufio.buf (csv_writer w') = [] /\ header w' = true)
  /\ (header w = true -> header w' = true).
Proof.
  intros Hacc. unfold CSVWriter_Write.
  destruct (if header w then (csv_writer w, None)
            else csv_Write pieces (csv_writer w) csv_header) as [b1 e1] eqn:Hhead.
  assert (H1 : bufio.accounts b1
                 (stream ++ (if header w then [] else csv_line pieces csv_header))
               /\ (forall x, e1 = Some x -> bufio.err b1 = Some x /\ header w = false)).
  { destruct (header w).
    - injection Hhead as <- <-. rewrite app_nil_r. split; [exact Hacc|discriminate].
    - apply (csv_Write_pieces_accounts _ _ _ stream) in Hhead as [Ha He]; [|exact Hacc].
      split; [exact Ha|]. intros x Hx. split; [by apply He|reflexivity]. }
  destruct H1 as [Hacc1 He1]. destruct e1 as [x|].
  { destruct (He1 x eq_refl) as [Hx Hfalse]. rewrite Hfalse in *. simpl. rewrite Hx.
    split; [|split; discriminate]. rewrite app_assoc.
    apply accounts_failed; [by rewrite Hx|exact Hacc1]. }
  destruct (csv_records Sprint Format Millis pieces b1 entries) as [b2 e2] eqn:Hrec.
  apply (csv_records_accounts _ _ _ _ _ Hacc1) in Hrec as [Hacc2 He2].
  rewrite <- app_assoc in Hacc2. destruct e2 as [x|].
  { simpl. rewrite (He2 x eq_refl). split; [exact Hacc2|]. split; [discriminate|done]. }
  destruct (bufio.Flush b2) as [b3 e3] eqn:Hfl.
  apply (Flush_accounts _ _ _ _ Hacc2) in Hfl as (Hacc3 & -> & Hempty). simpl.
  split; [exact Hacc3|]. split; [|done]. intros Hnone. split; [by apply Hempty|reflexivity].
Qed.

(** A writer that has met an error is left as it is. *)
Lemma CSVWriter_Write_failed (w : CSVWriter) (entries : list LogEntry) x :
  bufio.err (csv_writer w) = Some x ->
  csv_writer (CSVWriter_Write Sprint Format Millis pieces w entries).1 = csv_writer w.
Proof.
  intros Hx.
  assert (Hpieces : forall ps, (csv_Write_pieces (csv_writer w) ps).1 = csv_writer w).
  { intros [|piece rest]; [reflexivity|]. simpl. unfold bufio.WriteString.
    by rewrite Hx. }
  assert (Hrecords : forall es,
            (csv_records Sprint Format Millis pieces (csv_writer w) es).1 = csv_writer w).
  { intros [|entry rest]; [reflexivity|]. simpl. unfold csv_Write.
    destruct (pieces _) as [|piece ps]; simpl.
    - clear entry. induction rest as [|entry rest IH]; [reflexivity|]. simpl.
      unfold csv_Write. destruct (pieces _) as [|piece ps]; [exact IH|].
      simpl. unfold bufio.WriteString. by rewrite Hx.
    - unfold bufio.WriteString. by rewrite Hx. }
  unfold CSVWriter_Write.
  destruct (if header w then (csv_writer w, None)
            else csv_Write pieces (csv_writer w) csv_header) as [b1 e1] eqn:Hhead.
  assert (Hb1 : b1 = csv_writer w).
  { destruct (header w); [by injection Hhead as <- _|].
    unfold csv_Write in Hhead. by rewrite <- (Hpieces (pieces csv_header)), Hhead. }
  subst b1. destruct e1 as [e1|]; [reflexivity|].
  specialize (Hrecords entries).
  destruct (csv_records Sprint Format Millis pieces (csv_writer w) entries) as [b2 e2].
  simpl in Hrecords. subst b2. destruct e2 as [e2|]; [reflexivity|].
  simpl. unfold bufio.Flush. by rewrite Hx.
Qed.

(** A header line that fits the buffer of a new writer is taken without a
    write to the file, so the flag is set whatever the device does. *)
Lemma csv_Write_pieces_fit (ps : list (list Byte.byte)) : forall b,
  bufio.err b = None ->
  Z.of_nat (length (bufio.buf b ++ concat ps)) <= bufio.defaultBufSize ->
  (csv_Write_pieces b ps).2 = None.
Proof.
  induction ps as [|piece rest IH]; intros b He Hfit; [reflexivity|].
  simpl in *. unfold bufio.WriteString. rewrite He.
  rewrite !length_app in Hfit. unfold bufio.Available.
  destruct (Z.leb_spec (Z.of_nat (length piece))
              (bufio.defaultBufSize - Z.of_nat (length (bufio.buf b)))) as [_|Hbig];
    [|lia].
  apply IH; [reflexivity|]. simpl. rewrite !length_app. lia.
Qed.

Lemma CSVWriter_Write_sets_header (w : CSVWriter) (entries : list LogEntry) :
  bufio.err (csv_writer w) = None -> bufio.buf (csv_writer w) = [] ->
  Z.of_nat (length (csv_line pieces csv_header)) <= bufio.defaultBufSize ->
  header (CSVWriter_Write Sprint Format Millis pieces w entries).1 = true.
Proof.
  intros He Hb Hfit. unfold CSVWriter_Write. destruct (header w) eqn:Hh.
  - by destruct (csv_records _ _ _ _ _ _) as [b2 [e2|]].
  - unfold csv_Write.
    pose proof (csv_Write_pieces_fit (pieces csv_header) (csv_writer w) He) as Hnone.
    rewrite Hb in Hnone. specialize (Hnone Hfit).
    destruct (csv_Write_pieces (csv_writer w) (pieces csv_header)) as [b1 e1].
    simpl in Hnone. subst e1.
    by destruct (csv_records _ _ _ _ _ _) as [b2 [e2|]].
Qed.

(** X1. Whatever is written to a new CSV writer, in any number of calls, on
    any device and whichever calls fail: the file holds, from its start, a
    part of the header line followed by the lines of the entries in order,
    so the header is there once, ahead of every row; while the writer has
    met no error the file holds all of it. The flag [header] is set by
    the first call, also when a full device lets nothing reach the file. *)
Theorem CSV_header_once space (batches : list (list LogEntry)) :
  let w := CSVWriter_Writes Sprint Format Millis pieces (NewCSVWriter space) batches in
  let lines :=
    concat (map (csv_line pieces)
              (csv_header :: map (csv_record Sprint Format Millis) (concat batches))) in
  os.written (bufio.wr (csv_writer w)) `prefix_of` lines
  /\ (batches <> [] -> bufio.err (csv_writer w) = None ->
      os.written (bufio.wr (csv_writer w)) = lines)
  /\ (batches <> [] ->
      Z.of_nat (length (csv_line pieces csv_header)) <= bufio.defaultBufSize ->
      header w = true).
Proof.
  set (line := fun entry => csv_line pieces (csv_record Sprint Format Millis entry)).
  assert (Hlines : forall entries,
            concat (map (csv_line pieces)
                      (csv_header :: map (csv_record Sprint Format Millis) entries))
            = csv_line pieces csv_header ++ concat (map line entries)).
  { intros entries. simpl. by rewrite map_map. }
  assert (Hinv : forall batches w seen,
    ((header w = false /\ seen = [] /\ bufio.err (csv_writer w) = None
      /\ os.written (bufio.wr (csv_writer w)) = [] /\ bufio.buf (csv_writer w) = [])
     \/ (bufio.err (csv_writer w) = None /\ header w = true
         /\ bufio.buf (csv_writer w) = []
         /\ os.written (bufio.wr (csv_writer w))
            = csv_line pieces csv_header ++ concat (map line seen))
     \/ (bufio.err (csv_writer w) <> None
         /\ os.written (bufio.wr (csv_writer w))
              `prefix_of` csv_line pieces csv_header ++ concat (map line seen))) ->
    let w' := CSVWriter_Writes Sprint Format Millis pieces w batches in
    let all := csv_line pieces csv_header ++ concat (map line (seen ++ concat batches)) in
    os.written (bufio.wr (csv_writer w')) `prefix_of` all
    /\ (batches <> [] -> bufio.err (csv_writer w') = None ->
        os.written (bufio.wr (csv_writer w')) = all)).
  { unfold CSVWriter_Writes. intros bs.
    induction bs as [|entries rest IH]; intros w seen Hw; simpl.
    - rewrite app_nil_r. split; [|done].
      destruct Hw as [(_ & -> & _ & -> & _)|[(_ & _ & _ & ->)|(_ & Hp)]];
        [apply prefix_nil|done|exact Hp].
    - assert (Hnext :
        (bufio.err (csv_writer (CSVWriter_Write Sprint Format Millis pieces w entries).1)
         = None
         /\ header (CSVWriter_Write Sprint Format Millis pieces w entries).1 = true
         /\ bufio.buf (csv_writer
                         (CSVWriter_Write Sprint Format Millis pieces w entries).1) = []
         /\ os.written (bufio.wr (csv_writer
                         (CSVWriter_Write Sprint Format Millis pieces w entries).1))
            = csv_line pieces csv_header ++ concat (map line (seen ++ entries)))
        \/ (bufio.err (csv_writer
                         (CSVWriter_Write Sprint Format Millis pieces w entries).1)
            <> None
            /\ os.written (bufio.wr (csv_writer
                         (CSVWriter_Write Sprint Format Millis pieces w entries).1))
                 `prefix_of` csv_line pieces csv_header
                             ++ concat (map line (seen ++ entries)))).
      { rewrite map_app, concat_app.
        destruct Hw as [(Hh & -> & He & Hwr & Hb)|[(He & Hh & Hb & Hwr)|(He & Hp)]].
        - destruct (CSVWriter_Write_accounts w entries []) as (Hacc & Hdone & _).
          { unfold bufio.accounts. by rewrite He, Hwr, Hb. }
          rewrite Hh in Hacc. simpl in Hacc. fold line in Hacc.
          destruct (bufio.err (csv_writer
                      (CSVWriter_Write Sprint Format Millis pieces w entries).1))
            as [x|] eqn:Hx.
          + right. split; [done|]. unfold bufio.accounts in Hacc. by rewrite Hx in Hacc.
          + left. destruct (Hdone eq_refl) as [Hb' Hh']. split; [reflexivity|].
            split; [exact Hh'|]. split; [exact Hb'|].
            unfold bufio.accounts in Hacc. rewrite Hx, Hb', app_nil_r in Hacc.
            exact Hacc.
        - destruct (CSVWriter_Write_accounts w entries
                      (csv_line pieces csv_header ++ concat (map line seen)))
            as (Hacc & Hdone & Hkeep).
          { unfold bufio.accounts. by rewrite He, Hwr, Hb, app_nil_r. }
          rewrite Hh in Hacc. simpl in Hacc. fold line in Hacc.
          rewrite <- app_assoc in Hacc.
          destruct (bufio.err (csv_writer
                      (CSVWriter_Write Sprint Format Millis pieces w entries).1))
            as [x|] eqn:Hx.
          + right. split; [done|]. unfold bufio.accounts in Hacc. by rewrite Hx in Hacc.
          + left. destruct (Hdone eq_refl) as [Hb' Hh']. split; [reflexivity|].
            split; [exact Hh'|]. split; [exact Hb'|].
            unfold bufio.accounts in Hacc. rewrite Hx, Hb', app_nil_r in Hacc.
            exact Hacc.
        - right. destruct (bufio.err (csv_writer w)) as [x|] eqn:Hx; [|done].
          rewrite (CSVWriter_Write_failed w entries x Hx), Hx. split; [done|].
          rewrite app_assoc. by apply prefix_app_r. }
      destruct (IH (CSVWriter_Write Sprint Format Millis pieces w entries).1
                  (seen ++ entries)) as [Hpre Hall].
      { destruct Hnext as [H1|H2]; [right; left; exact H1|right; right; exact H2]. }
      simpl in Hpre, Hall. rewrite <- app_assoc in Hpre, Hall.
      split; [exact Hpre|]. intros _ Hnone. destruct rest as [|next rest'].
      + simpl in *. rewrite app_nil_r in *.
        destruct Hnext as [(_ & _ & _ & Hwr)|(Habs & _)]; [exact Hwr|done].
      + by apply Hall. }
  intros w lines. subst w lines. rewrite Hlines.
  destruct (Hinv batches (NewCSVWriter space) []) as [Hpre Hall].
  { left. by repeat split. }
  simpl in Hpre, Hall. split; [exact Hpre|]. split; [exact Hall|].
  intros Hne Hfit. destruct batches as [|first more]; [done|].
  unfold CSVWriter_Writes. simpl.
  assert (Hfirst : header (CSVWriter_Write Sprint Format Millis pieces
                             (NewCSVWriter space) first).1 = true)
    by (by apply CSVWriter_Write_sets_header).
  revert Hfirst.
  generalize (CSVWriter_Write Sprint Format Millis pieces (NewCSVWriter space) first).1.
  clear Hpre Hall Hne. induction more as [|entries rest IH]; intros w Hw; [exact Hw|].
  simpl. apply IH.
  by apply (CSVWriter_Write_accounts w entries (os.written (bufio.wr (csv_writer w))
                                                  ++ bufio.buf (csv_writer w)));
    [unfold bufio.accounts; destruct (bufio.err (csv_writer w));
       [apply prefix_app_r|]|].
Qed.

End CSVLines.

(** C7 at a failing input: for any entry, the first [Write] of a new
    writer emits the ten-column header and then a row of nine values: the
    file holds the line of the header and the line of the row. The row has
    no value for the column "timestamp": under that column stands the
    value of [success], every later value is one column to the left of its
    heading, and nothing stands under "duration_ms". *)
Lemma CSV_row_misses_timestamp Sprint Format Millis pieces (entry : cellularlog.LogEntry) :
  let row := cellularlog.csv_record Sprint Format Millis entry in
  cellularlog.CSVWriter_Write Sprint Format Millis pieces (cellularlog.NewCSVWriter None)
    [entry]
  = ({| cellularlog.csv_writer :=
          {| bufio.wr :=
               {| os.written :=
                    cellularlog.csv_line pieces cellularlog.csv_header
                    ++ cellularlog.csv_line pieces row;
                  os.space := None; os.closed := false |};
             bufio.buf := []; bufio.err := None |};
        cellularlog.header := true |}, None)
  /\ length cellularlog.csv_header = 10%nat /\ length row = 9%nat
  /\ cellularlog.csv_header !! 3%nat = Some "timestamp"%string
  /\ row !! 3%nat = Some (if cellularlog.Success entry then "true" else "false")%string
  /\ cellularlog.csv_header !! 9%nat = Some "duration_ms"%string
  /\ row !! 9%nat = None
  /\ row !! 8%nat = Some (Millis (cellularlog.Duration entry)).
Proof.
  split; [|repeat split; reflexivity].
  rewrite CSVWriter_Write_roomy by (by repeat split). simpl. by rewrite app_nil_r.
Qed.


Lemma BinaryWriter_Write_rejected
    (Marshal : cellularlog.LogEntry -> Go.error + list Byte.byte)
    (w : cellularlog.BinaryWriter) entry more err :
  Marshal entry = inl err ->
  cellularlog.BinaryWriter_Write Marshal w (entry :: more) = (w, Some err).
Proof. intros Hm. simpl. by rewrite Hm. Qed.

Lemma BinaryWriter_Write_roomy
    (Marshal : cellularlog.LogEntry -> Go.error + list Byte.byte)
    (w : cellularlog.BinaryWriter) entry more data :
  os.space w = None -> os.closed w = false ->
  Marshal entry = inr data ->
  cellularlog.BinaryWriter_Write Marshal w (entry :: more)
  = cellularlog.BinaryWriter_Write Marshal
      {| os.written := os.written w ++ cellularlog.frame data;
         os.space := None; os.closed := false |} more.
Proof.
  intros Hspace Hclosed Hm. simpl. rewrite Hm.
  unfold os.Write at 1. rewrite Hclosed, Hspace.
  unfold os.Write at 1. simpl.
  unfold cellularlog.frame. by rewrite <- app_assoc.
Qed.

(** X4. On an open file with room, [Write] can only
    fail because [json.Marshal] rejects an entry, and it returns that
    error unchanged. The file then holds, after what it held before,
    the complete frames of exactly the entries in front of the rejected
    one: nothing of the rejected entry, no partial frame, and nothing of
    the entries behind it, which are never encoded. *)
Theorem BinaryWriter_Write_keeps_whole_frames
    (Marshal : cellularlog.LogEntry -> Go.error + list Byte.byte)
    (w : cellularlog.BinaryWriter) (entries : list cellularlog.LogEntry) :
  os.space w = None -> os.closed w = false ->
  exists done rest payloads,
    entries = done ++ rest
    /\ Forall2 (fun entry data => Marshal entry = inr data) done payloads
    /\ os.written (cellularlog.BinaryWriter_Write Marshal w entries).1
       = os.written w ++ concat (map cellularlog.frame payloads)
    /\ match rest with
       | [] => (cellularlog.BinaryWriter_Write Marshal w entries).2 = None
       | bad :: _ =>
           exists e, Marshal bad = inl e
                     /\ (cellularlog.BinaryWriter_Write Marshal w entries).2 = Some e
       end.
Proof.
  revert w. induction entries as [|entry more IH]; intros w Hspace Hclosed.
  - exists [], [], []. simpl. rewrite app_nil_r. repeat split; constructor.
  - destruct (Marshal entry) as [err|data] eqn:Hm.
    + rewrite (BinaryWriter_Write_rejected Marshal w entry more err Hm).
      exists [], (entry :: more), []. simpl. rewrite app_nil_r.
      split; [reflexivity|]. split; [constructor|]. split; [reflexivity|].
      exists err. split; [exact Hm|reflexivity].
    + rewrite (BinaryWriter_Write_roomy Marshal w entry more data Hspace Hclosed Hm).
      destruct (IH {| os.written := os.written w ++ cellularlog.frame data;
                      os.space := None; os.closed := false |} eq_refl eq_refl)
        as (done & rest & payloads & He & Hall & Hwr & Hres).
      exists (entry :: done), rest, (data :: payloads).
      split; [by rewrite He|]. split; [by constructor|].
      split; [|exact Hres].
      rewrite Hwr. simpl. by rewrite <- app_assoc.
Qed.

Lemma BinaryWriter_Write_keeps_whole_frames_witness :
  os.space (cellularlog.NewBinaryWriter None) = None
  /\ os.closed (cellularlog.NewBinaryWriter None) = false
  /\ exists done rest payloads,
       [cellularlog.new_log 0 "at-+CSQ" 0; cellularlog.new_log 1 "at-+CSQ" 0;
        cellularlog.new_log 2 "at-+CSQ" 0] = done ++ rest
       /\ Forall2 (fun entry data => examples.Marshal entry = inr data) done payloads
       /\ os.written
            (cellularlog.BinaryWriter_Write examples.Marshal
               (cellularlog.NewBinaryWriter None)
               [cellularlog.new_log 0 "at-+CSQ" 0; cellularlog.new_log 1 "at-+CSQ" 0;
                cellularlog.new_log 2 "at-+CSQ" 0]).1
          = concat (map cellularlog.frame payloads).
Proof.
  split; [reflexivity|]. split; [reflexivity|].
  destruct (BinaryWriter_Write_keeps_whole_frames examples.Marshal
              (cellularlog.NewBinaryWriter None)
              [cellularlog.new_log 0 "at-+CSQ" 0; cellularlog.new_log 1 "at-+CSQ" 0;
               cellularlog.new_log 2 "at-+CSQ" 0] eq_refl eq_refl)
    as (done & rest & payloads & He & Hall & Hwr & _).
  exists done, rest, payloads. split; [exact He|]. split; [exact Hall|exact Hwr].
Defined.

Lemma Append_not_nil (err : option Go.error) (e : Go.error) : multierr.Append err e <> None.
Proof. destruct err as [[]|]; discriminate. Qed.

Section FanOut.
Context {W : Type} `{!cellularlog.Writer W}.
Import cellularlog.

Lemma MultiWriter_Write_range_spec (writers : list Go.pointer) :
  forall (store : gmap Go.addr W) entries err,
  NoDup writers ->
  (forall p, p ∈ writers -> exists a sink, p = Some a /\ store !! a = Some sink) ->
  exists store' err',
    MultiWriter_Write_range store writers entries err = Go.Returned (store', err')
    /\ (forall a sink, Some a ∈ writers -> store !! a = Some sink ->
        store' !! a = Some (Write sink entries).1)
    /\ (forall a, Some a ∉ writers -> store' !! a = store !! a)
    /\ (err' = None <->
        err = None
        /\ forall a sink, Some a ∈ writers -> store !! a = Some sink ->
           (Write sink entries).2 = None).
Proof.
  induction writers as [|p rest IH]; intros store entries err Hnd Hin.
  - exists store, err. simpl. split; [reflexivity|].
    split; [intros a sink Ha; by apply elem_of_nil in Ha|].
    split; [reflexivity|]. split; [intros ->; split; [reflexivity|]|tauto].
    intros a sink Ha. by apply elem_of_nil in Ha.
  - apply NoDup_cons in Hnd as [Hp Hnd].
    destruct (Hin p ltac:(left)) as (a & sink & -> & Hsink).
    simpl. rewrite Hsink.
    destruct (Write sink entries) as [sink' e] eqn:Hw.
    destruct (IH (<[a := sink']> store) entries
                (match e with Some e => multierr.Append err e | None => err end) Hnd)
      as (store' & err' & Hrun & Hlisted & Hother & Herr).
    { intros q Hq. destruct (Hin q ltac:(by right)) as (b & sb & -> & Hb).
      exists b, sb. split; [reflexivity|].
      rewrite lookup_insert_ne; [exact Hb|]. intros ->. contradiction. }
    exists store', err'. split; [exact Hrun|]. split; [|split].
    + intros b sb Hb Hsb. apply elem_of_cons in Hb as [[= ->]|Hb].
      * rewrite Hother by exact Hp. rewrite lookup_insert_eq.
        rewrite Hsink in Hsb. injection Hsb as <-. by rewrite Hw.
      * apply Hlisted; [exact Hb|].
        rewrite lookup_insert_ne; [exact Hsb|]. intros ->. contradiction.
    + intros b Hb. rewrite not_elem_of_cons in Hb. destruct Hb as [Hne Hb].
      rewrite Hother by exact Hb. apply lookup_insert_ne. congruence.
    + rewrite Herr. split.
      * intros [He Hall]. destruct e as [e|]; [by apply Append_not_nil in He|].
        split; [exact He|]. intros b sb Hb Hsb.
        apply elem_of_cons in Hb as [[= ->]|Hb].
        -- rewrite Hsink in Hsb. injection Hsb as <-. by rewrite Hw.
        -- apply (Hall b sb Hb). rewrite lookup_insert_ne; [exact Hsb|].
           intros ->. contradiction.
      * intros [-> Hall].
        pose proof (Hall a sink ltac:(left) Hsink) as Hhead. rewrite Hw in Hhead.
        simpl in Hhead. subst e. split; [reflexivity|].
        intros b sb Hb Hsb. destruct (decide (a = b)) as [<-|Hne].
        -- contradiction.
        -- rewrite lookup_insert_ne in Hsb by exact Hne.
           apply (Hall b sb); [by right|exact Hsb].
Qed.

(** X5. With distinct, non-nil sinks, [Write]
    returns and has handed the batch to every sink, whatever the sinks
    before it returned: each listed sink is in the state its own [Write]
    of the batch leaves, every other writer object is untouched, and the
    result is nil exactly when every sink returned nil. *)
Theorem MultiWriter_Write_reaches_every_sink
    (store : gmap Go.addr W) (w : MultiWriter) (entries : list LogEntry) :
  NoDup w ->
  (forall p, p ∈ w -> exists a sink, p = Some a /\ store !! a = Some sink) ->
  exists store' err,
    MultiWriter_Write store w entries = Go.Returned (store', err)
    /\ (forall a sink, Some a ∈ w -> store !! a = Some sink ->
        store' !! a = Some (Write sink entries).1)
    /\ (forall a, Some a ∉ w -> store' !! a = store !! a)
    /\ (err = None <->
        forall a sink, Some a ∈ w -> store !! a = Some sink ->
          (Write sink entries).2 = None).
Proof.
  intros Hnd Hin.
  destruct (MultiWriter_Write_range_spec w store entries None Hnd Hin)
    as (store' & err & Hrun & Hlisted & Hother & Herr).
  exists store', err. split; [exact Hrun|]. split; [exact Hlisted|].
  split; [exact Hother|]. rewrite Herr. tauto.
Qed.

Lemma MultiWriter_Close_range_spec (writers : list Go.pointer) :
  forall (store : gmap Go.addr W) err,
  NoDup writers ->
  (forall p, p ∈ writers -> exists a sink, p = Some a /\ store !! a = Some sink) ->
  exists store' err',
    MultiWriter_Close_range store writers err = Go.Returned (store', err')
    /\ (forall a sink, Some a ∈ writers -> store !! a = Some sink ->
        store' !! a = Some (Close sink).1)
    /\ (forall a, Some a ∉ writers -> store' !! a = store !! a)
    /\ (err' = None <->
        err = None
        /\ forall a sink, Some a ∈ writers -> store !! a = Some sink ->
           (Close sink).2 = None).
Proof.
  induction writers as [|p rest IH]; intros store err Hnd Hin.
  - exists store, err. simpl. split; [reflexivity|].
    split; [intros a sink Ha; by apply elem_of_nil in Ha|].
    split; [reflexivity|]. split; [intros ->; split; [reflexivity|]|tauto].
    intros a sink Ha. by apply elem_of_nil in Ha.
  - apply NoDup_cons in Hnd as [Hp Hnd].
    destruct (Hin p ltac:(left)) as (a & sink & -> & Hsink).
    simpl. rewrite Hsink.
    destruct (Close sink) as [sink' e] eqn:Hw.
    destruct (IH (<[a := sink']> store)
                (match e with Some e => multierr.Append err e | None => err end) Hnd)
      as (store' & err' & Hrun & Hlisted & Hother & Herr).
    { intros q Hq. destruct (Hin q ltac:(by right)) as (b & sb & -> & Hb).
      exists b, sb. split; [reflexivity|].
      rewrite lookup_insert_ne; [exact Hb|]. intros ->. contradiction. }
    exists store', err'. split; [exact Hrun|]. split; [|split].
    + intros b sb Hb Hsb. apply elem_of_cons in Hb as [[= ->]|Hb].
      * rewrite Hother by exact Hp. rewrite lookup_insert_eq.
        rewrite Hsink in Hsb. injection Hsb as <-. by rewrite Hw.
      * apply Hlisted; [exact Hb|].
        rewrite lookup_insert_ne; [exact Hsb|]. intros ->. contradiction.
    + intros b Hb. rewrite not_elem_of_cons in Hb. destruct Hb as [Hne Hb].
      rewrite Hother by exact Hb. apply lookup_insert_ne. congruence.
    + rewrite Herr. split.
      * intros [He Hall]. destruct e as [e|]; [by apply Append_not_nil in He|].
        split; [exact He|]. intros b sb Hb Hsb.
        apply elem_of_cons in Hb as [[= ->]|Hb].
        -- rewrite Hsink in Hsb. injection Hsb as <-. by rewrite Hw.
        -- apply (Hall b sb Hb). rewrite lookup_insert_ne; [exact Hsb|].
           intros ->. contradiction.
      * intros [-> Hall].
        pose proof (Hall a sink ltac:(left) Hsink) as Hhead. rewrite Hw in Hhead.
        simpl in Hhead. subst e. split; [reflexivity|].
        intros b sb Hb Hsb. destruct (decide (a = b)) as [<-|Hne].
        -- contradiction.
        -- rewrite lookup_insert_ne in Hsb by exact Hne.
           apply (Hall b sb); [by right|exact Hsb].
Qed.

(** X6. With distinct, non-nil sinks, [Close]
    returns and has closed every sink, whatever the sinks before it
    returned: each listed sink is in the state its own [Close] leaves,
    every other writer object is untouched, and the result is nil exactly
    when every sink's [Close] returned nil. *)
Theorem MultiWriter_Close_reaches_every_sink
    (store : gmap Go.addr W) (w : MultiWriter) :
  NoDup w ->
  (forall p, p ∈ w -> exists a sink, p = Some a /\ store !! a = Some sink) ->
  exists store' err,
    MultiWriter_Close store w = Go.Returned (store', err)
    /\ (forall a sink, Some a ∈ w -> store !! a = Some sink ->
        store' !! a = Some (Close sink).1)
    /\ (forall a, Some a ∉ w -> store' !! a = store !! a)
    /\ (err = None <->
        forall a sink, Some a ∈ w -> store !! a = Some sink ->
          (Close sink).2 = None).
Proof.
  intros Hnd Hin.
  destruct (MultiWriter_Close_range_spec w store None Hnd Hin)
    as (store' & err & Hrun & Hlisted & Hother & Herr).
  exists store', err. split; [exact Hrun|]. split; [exact Hlisted|].
  split; [exact Hother|]. rewrite Herr. tauto.
Qed.

End FanOut.

(** A sink on a closed file and a sink on an open one: the first fails,
    the second still gets its frame, and the result is not nil. *)
Lemma MultiWriter_Write_reaches_every_sink_witness :
  NoDup [Some 1%positive; Some 2%positive]
  /\ exists store' err,
       cellularlog.MultiWriter_Write examples.sinks [Some 1%positive; Some 2%positive]
         [cellularlog.new_log 0 "at-+CSQ" 0]
       = Go.Returned (store', err)
       /\ err <> None
       /\ os.written <$> (store' !! 2%positive)
          = Some (os.written
                    (cellularlog.BinaryWriter_Write examples.Marshal (os.Create None)
                       [cellularlog.new_log 0 "at-+CSQ" 0]).1).
Proof.
  assert (Hnd : NoDup [Some 1%positive; Some 2%positive]).
  { apply NoDup_cons. split; [|apply NoDup_singleton].
    intros Hin. apply list_elem_of_singleton in Hin. discriminate. }
  assert (Hin : forall p, p ∈ [Some 1%positive; Some 2%positive] ->
                exists a sink, p = Some a /\ examples.sinks !! a = Some sink).
  { intros p Hp. apply elem_of_cons in Hp as [->|Hp].
    - eexists _, _. split; reflexivity.
    - apply list_elem_of_singleton in Hp as ->. eexists _, _. split; reflexivity. }
  split; [exact Hnd|].
  destruct (MultiWriter_Write_reaches_every_sink examples.sinks
              [Some 1%positive; Some 2%positive]
              [cellularlog.new_log 0 "at-+CSQ" 0] Hnd Hin)
    as (store' & err & Hrun & Hlisted & _ & Herr).
  exists store', err. split; [exact Hrun|]. split.
  - intros Hnil.
    pose proof (proj1 Herr Hnil 1%positive examples.closed_file
                  ltac:(left) eq_refl) as Hfirst.
    vm_compute in Hfirst. discriminate Hfirst.
  - pose proof (Hlisted 2%positive (os.Create None) ltac:(right; left) eq_refl)
      as Hsecond.
    exact (f_equal (fmap os.written) Hsecond).
Defined.

(** * Further properties of the processor *)

Section Batches.
Context {M W : Type} `{!cellularlog.Message M} `{!cellularlog.Writer W}.
Import cellularlog.

Lemma batches_app (tr tr' : list Event) : batches (tr ++ tr') = batches tr ++ batches tr'.
Proof. induction tr as [|[] tr IH]; simpl; auto. by rewrite IH. Qed.

Lemma polled_app (tr tr' : list Event) : polled (tr ++ tr') = polled tr ++ polled tr'.
Proof. induction tr as [|[] tr IH]; simpl; auto. by rewrite IH. Qed.

Lemma failures_app (tr tr' : list Event) :
  failures (tr ++ tr') = failures tr ++ failures tr'.
Proof. induction tr as [|[? ? [?|]| | | |] tr IH]; simpl; auto. by rewrite IH. Qed.

(** What a flush adds to the trace: no request, and one [Write] of the
    whole buffer unless the buffer is empty. *)
Lemma flushLogsUnsafe_events (st st' : State M W) :
  flushLogsUnsafe st = Go.Returned st' ->
  logBatchSize (proc st') = logBatchSize (proc st)
  /\ logBuffer (proc st') = []
  /\ exists evs,
       trace st' = trace st ++ evs
       /\ polled evs = [] /\ failures evs = [] /\ requested evs = []
       /\ batches evs = match logBuffer (proc st) with [] => [] | b => [b] end.
Proof.
  unfold flushLogsUnsafe.
  destruct (logBuffer (proc st)) as [|x l] eqn:Hb.
  { intros [= <-]. rewrite Hb. repeat split. exists []. by rewrite app_nil_r. }
  destruct (writer (proc st)); [|discriminate].
  destruct (Write (sink st) (x :: l)) as [w err].
  destruct (logBatchSize (proc st) <? 0); [discriminate|].
  intros [= <-]. simpl. repeat split.
  eexists. split; [reflexivity|]. by destruct err.
Qed.

Lemma addLogEntry_events (st st' : State M W) entry :
  addLogEntry st entry = Go.Returned st' ->
  logBatchSize (proc st') = logBatchSize (proc st)
  /\ exists evs,
       trace st' = trace st ++ evs
       /\ polled evs = [] /\ failures evs = [] /\ requested evs = []
       /\ ((logBatchSize (proc st) <= Z.of_nat (length (logBuffer (proc st))) + 1
            /\ batches evs = [logBuffer (proc st) ++ [entry]]
            /\ logBuffer (proc st') = [])
           \/ (Z.of_nat (length (logBuffer (proc st))) + 1 < logBatchSize (proc st)
               /\ batches evs = []
               /\ logBuffer (proc st') = logBuffer (proc st) ++ [entry])).
Proof.
  unfold addLogEntry. simpl. rewrite length_app. simpl.
  destruct (Z.leb_spec (logBatchSize (proc st))
              (Z.of_nat (length (logBuffer (proc st)) + 1))) as [Hle|Hlt].
  - intros Hf%flushLogsUnsafe_events. simpl in Hf.
    destruct Hf as (Hn & Hb & evs & Ht & Hp & Hfl & Hrq & Hbs).
    split; [exact Hn|]. exists evs. repeat (split; [assumption|]).
    left. split; [lia|]. split; [|exact Hb].
    rewrite Hbs. by destruct (logBuffer (proc st)).
  - intros [= <-]. simpl. split; [reflexivity|]. exists [].
    rewrite app_nil_r. repeat (split; [reflexivity|]).
    right. split; [lia|auto].
Qed.

(** What the body of [request] adds to the trace. *)
Lemma request_range_events snapshot : forall (st st' : State M W) err err',
  request_range st err snapshot = Go.Returned (st', err') ->
  logBatchSize (proc st') = logBatchSize (proc st)
  /\ exists evs,
       trace st' = trace st ++ evs
       /\ polled evs = map fst snapshot
       /\ length (requested evs) = length snapshot
       /\ (err' = None <-> err = None /\ failures evs = [])
       /\ Forall (fun b => b <> []) (batches evs)
       /\ (1 <= logBatchSize (proc st) ->
           Z.of_nat (length (logBuffer (proc st))) < logBatchSize (proc st) ->
           Forall (fun b => Z.of_nat (length b) = logBatchSize (proc st)) (batches evs)
           /\ Z.of_nat (length (logBuffer (proc st'))) < logBatchSize (proc st))
       /\ (logBatchSize (proc st) <= 1 -> logBuffer (proc st) = [] ->
           batches evs = map (fun entry => [entry]) (requested evs)
           /\ logBuffer (proc st') = []).
Proof.
  induction snapshot as [|[a io] rest IH]; intros st st' err err'; simpl.
  - intros [= <- <-]. split; [reflexivity|]. exists []. rewrite app_nil_r.
    repeat split; auto; try constructor; tauto.
  - destruct (heap st !! a) as [message|]; [|discriminate]. simpl.
    destruct (Request message (proc st) io) as [[[m' log] e]| |]; try discriminate.
    simpl.
    destruct (addLogEntry _ log) as [st1| |] eqn:Hadd; try discriminate. simpl.
    intros Hrest%IH. apply addLogEntry_events in Hadd. simpl in Hadd.
    destruct Hadd as (Hn1 & evs1 & Ht1 & Hp1 & Hf1 & Hr1 & Hcase).
    destruct Hrest as (Hn2 & evs2 & Ht2 & Hp2 & Hl2 & He2 & Hne2 & Hsz2 & Hone2).
    split; [congruence|].
    exists (Requested a log e :: evs1 ++ evs2).
    split; [rewrite Ht2, Ht1, <- !app_assoc; reflexivity|].
    split; [simpl; rewrite polled_app, Hp1, Hp2; reflexivity|].
    split; [simpl; rewrite requested_app, Hr1; simpl; by rewrite Hl2|].
    split.
    { rewrite He2. destruct e as [e|]; simpl; rewrite failures_app, Hf1; simpl.
      - split; [intros [Habs _]; by apply Append_not_nil in Habs|intros [_ [=]]].
      - tauto. }
    simpl. rewrite batches_app, requested_app, Hr1. simpl. split; [|split].
    + apply Forall_app. split; [|exact Hne2].
      destruct Hcase as [(_ & -> & _)|(_ & -> & _)]; repeat constructor.
      by destruct (logBuffer (proc st)).
    + intros H1 Hbelow. rewrite Hn1 in Hsz2.
      destruct Hcase as [(Hle & Hb & Hbuf)|(Hlt & Hb & Hbuf)].
      * destruct Hsz2 as [Hall Hb']; [exact H1|rewrite Hbuf; simpl; lia|].
        split; [|exact Hb']. apply Forall_app. split; [|exact Hall].
        rewrite Hb. repeat constructor. rewrite length_app. simpl. lia.
      * destruct Hsz2 as [Hall Hb']; [exact H1|rewrite Hbuf, length_app; simpl; lia|].
        split; [|exact Hb']. rewrite Hb. exact Hall.
    + intros H1 Hempty. rewrite Hn1 in Hone2. rewrite Hempty in Hcase. simpl in Hcase.
      destruct Hcase as [(Hle & Hb & Hbuf)|(Hlt & _)]; [|lia].
      destruct (Hone2 H1 Hbuf) as [Hb2 Hbuf2].
      split; [|exact Hbuf2]. by rewrite Hb, Hb2.
Qed.

(** What a run of the loop adds to the trace. [below] says the buffer is
    shorter than a batch. *)
Lemma loop_events fired : forall (st st' : State M W),
  loop st fired = Go.Returned st' ->
  exists evs,
    trace st' = trace st ++ evs
    /\ Forall (fun b => b <> []) (batches evs)
    /\ (1 <= logBatchSize (proc st) ->
        Z.of_nat (length (logBuffer (proc st))) < logBatchSize (proc st) ->
        Forall (fun b => Z.of_nat (length b) <= logBatchSize (proc st)) (batches evs)).
Proof.
  assert (Hflush : forall s s' : State M W,
    flushLogsUnsafe s = Go.Returned s' ->
    logBatchSize (proc s') = logBatchSize (proc s)
    /\ logBuffer (proc s') = []
    /\ exists evs,
         trace s' = trace s ++ evs
         /\ Forall (fun b => b <> []) (batches evs)
         /\ (Z.of_nat (length (logBuffer (proc s))) < logBatchSize (proc s) ->
             Forall (fun b => Z.of_nat (length b) <= logBatchSize (proc s))
               (batches evs))).
  { intros s s' Hf. apply flushLogsUnsafe_events in Hf.
    destruct Hf as (Hn & Hb & evs & Ht & _ & _ & _ & Hbs).
    split; [exact Hn|]. split; [exact Hb|]. exists evs. split; [exact Ht|].
    rewrite Hbs. destruct (logBuffer (proc s)); split; repeat constructor; auto.
    lia. }
  intros st st'. unfold loop.
  destruct (interval (proc st) <=? 0); [discriminate|]. revert st st'.
  induction fired as [|f rest IH]; intros st st'; simpl; [discriminate|].
  destruct f as [|snapshot|].
  - destruct (flushLogs _) as [st1| |] eqn:Hf; try discriminate. simpl.
    intros [= <-]. apply Hflush in Hf. simpl in Hf.
    destruct Hf as (_ & _ & evs & Ht & Hne & Hsz).
    exists evs. simpl. split; [exact Ht|]. split; [exact Hne|]. auto.
  - unfold request.
    destruct (request_range st None snapshot) as [[st1 err]| |] eqn:Hr;
      try discriminate. simpl.
    apply request_range_events in Hr.
    destruct Hr as (Hn & evs1 & Ht1 & _ & _ & _ & Hne1 & Hsz1 & _).
    destruct err as [e|]; intros Hl%IH; destruct Hl as (evs2 & Ht2 & Hne2 & Hsz2);
      simpl in Ht2, Hsz2; rewrite Hn in Hsz2.
    + eexists (evs1 ++ _ :: evs2).
      split; [rewrite Ht2, Ht1, <- !app_assoc; reflexivity|].
      rewrite batches_app. simpl.
      split; [apply Forall_app; auto|].
      intros H1 Hbelow. destruct (Hsz1 H1 Hbelow) as [Hall Hb'].
      apply Forall_app. split; [|auto].
      eapply Forall_impl; [exact Hall|]. simpl. intros; lia.
    + exists (evs1 ++ evs2).
      split; [rewrite Ht2, Ht1, <- !app_assoc; reflexivity|].
      rewrite batches_app.
      split; [apply Forall_app; auto|].
      intros H1 Hbelow. destruct (Hsz1 H1 Hbelow) as [Hall Hb'].
      apply Forall_app. split; [|auto].
      eapply Forall_impl; [exact Hall|]. simpl. intros; lia.
  - destruct (flushLogs st) as [st1| |] eqn:Hf; try discriminate. simpl.
    apply Hflush in Hf. destruct Hf as (Hn & Hb & evs1 & Ht1 & Hne1 & Hsz1).
    intros Hl%IH. destruct Hl as (evs2 & Ht2 & Hne2 & Hsz2).
    rewrite Hn, Hb in Hsz2. simpl in Hsz2.
    exists (evs1 ++ evs2).
    split; [rewrite Ht2, Ht1, <- !app_assoc; reflexivity|].
    rewrite batches_app.
    split; [apply Forall_app; auto|].
    intros H1 Hbelow. apply Forall_app. split; [auto|]. apply Hsz2; lia.
Qed.

(** X7. One pass of [request] asks every message of the snapshot exactly
    once, in the snapshot's order, whatever the earlier calls returned: an
    error of one [Request] does not stop the pass, each call leaves one
    entry, and the pass reports an error exactly when one of the calls
    returned one. *)
Theorem request_asks_every_member (st st' : State M W) snapshot err :
  request st snapshot = Go.Returned (st', err) ->
  exists evs,
    trace st' = trace st ++ evs
    /\ polled evs = map fst snapshot
    /\ length (requested evs) = length snapshot
    /\ (err = None <-> failures evs = []).
Proof.
  unfold request. intros Hr%request_range_events.
  destruct Hr as (_ & evs & Ht & Hp & Hl & He & _).
  exists evs. repeat (split; [assumption|]). tauto.
Qed.

(** X8. While the buffer is shorter than the batch size (as it is in a
    new processor with a positive batch size), every batch that [request]
    hands to [Write] holds exactly [logBatchSize] entries, and the buffer
    is again shorter than the batch size afterwards. *)
Theorem request_writes_full_batches (st st' : State M W) snapshot err :
  1 <= logBatchSize (proc st) ->
  Z.of_nat (length (logBuffer (proc st))) < logBatchSize (proc st) ->
  request st snapshot = Go.Returned (st', err) ->
  logBatchSize (proc st') = logBatchSize (proc st)
  /\ Z.of_nat (length (logBuffer (proc st'))) < logBatchSize (proc st)
  /\ exists evs,
       trace st' = trace st ++ evs
       /\ Forall (fun b => Z.of_nat (length b) = logBatchSize (proc st)) (batches evs).
Proof.
  unfold request. intros H1 Hbelow Hr%request_range_events.
  destruct Hr as (Hn & evs & Ht & _ & _ & _ & _ & Hsz & _).
  destruct (Hsz H1 Hbelow) as [Hall Hb]. eauto.
Qed.

(** X9. A batch size of 0 or 1 switches the buffering off: starting from
    an empty buffer, [request] hands every entry to [Write] on its own, in
    the order of the calls, and leaves the buffer empty. *)
Theorem request_unbuffered (st st' : State M W) snapshot err :
  logBatchSize (proc st) <= 1 ->
  logBuffer (proc st) = [] ->
  request st snapshot = Go.Returned (st', err) ->
  logBuffer (proc st') = []
  /\ exists evs,
       trace st' = trace st ++ evs
       /\ batches evs = map (fun entry => [entry]) (requested evs)
       /\ length (batches evs) = length snapshot.
Proof.
  unfold request. intros H1 Hempty Hr%request_range_events.
  destruct Hr as (Hn & evs & Ht & _ & Hl & _ & _ & _ & Hone).
  destruct (Hone H1 Hempty) as [Hb Hbuf]. split; [exact Hbuf|].
  exists evs. split; [exact Ht|]. split; [exact Hb|].
  by rewrite Hb, length_map.
Qed.

(** X10. [Write] is never called with an empty batch: in every run of the
    loop that has returned, each batch handed to the writer holds at least
    one entry, and, when the run starts with a positive batch size and a
    buffer shorter than it, at most [logBatchSize] entries. *)
Theorem loop_never_writes_empty_batch (st st' : State M W) fired :
  loop st fired = Go.Returned st' ->
  exists evs,
    trace st' = trace st ++ evs
    /\ Forall (fun b => b <> []) (batches evs)
    /\ (1 <= logBatchSize (proc st) ->
        Z.of_nat (length (logBuffer (proc st))) < logBatchSize (proc st) ->
        Forall (fun b => (1 <= Z.of_nat (length b) <= logBatchSize (proc st)))
          (batches evs)).
Proof.
  intros Hl%loop_events. destruct Hl as (evs & Ht & Hne & Hsz).
  exists evs. split; [exact Ht|]. split; [exact Hne|].
  intros H1 Hbelow. specialize (Hsz H1 Hbelow).
  apply Forall_forall. intros b Hb.
  rewrite Forall_forall in Hne, Hsz. specialize (Hne b Hb). specialize (Hsz b Hb).
  destruct b; [done|]. simpl length in *. lia.
Qed.

End Batches.

Section Closing.
Context {M W : Type} `{!cellularlog.Message M} `{!cellularlog.Writer W}.
Import cellularlog.



End Closing.


(** ** Runs of the further properties *)

(** Two calls of [Write], the second with an empty batch. *)
Lemma CSVWriter_Writes_rows_witness :
  [[cellularlog.new_log 0 "at-+CSQ" 0]; []] <> []
  /\ os.written
       (bufio.wr
          (cellularlog.csv_writer
             (cellularlog.CSVWriter_Writes (fun _ => "<nil>"%string) pretty pretty
                examples.csv_pieces (cellularlog.NewCSVWriter None)
                [[cellularlog.new_log 0 "at-+CSQ" 0]; []])))
     = concat
         (map (cellularlog.csv_line examples.csv_pieces)
            [cellularlog.csv_header;
             cellularlog.csv_record (fun _ => "<nil>"%string) pretty pretty
               (cellularlog.new_log 0 "at-+CSQ" 0)]).
Proof.
  split; [discriminate|].
  exact (proj1 (CSVWriter_Writes_rows (fun _ => "<nil>"%string) pretty pretty
                  examples.csv_pieces
                  [[cellularlog.new_log 0 "at-+CSQ" 0]; []] ltac:(discriminate))).
Defined.

(** One call on a device that is full: nothing reaches the file, the call
    fails, and the flag is set all the same. *)
Lemma CSV_header_once_witness :
  (cellularlog.CSVWriter_Write (fun _ => "<nil>"%string) pretty pretty
     examples.csv_pieces (cellularlog.NewCSVWriter (Some 0%nat))
     [cellularlog.new_log 0 "at-+CSQ" 0]).2 = Some os.ENOSPC
  /\ os.written
       (bufio.wr
          (cellularlog.csv_writer
             (cellularlog.CSVWriter_Writes (fun _ => "<nil>"%string) pretty pretty
                examples.csv_pieces (cellularlog.NewCSVWriter (Some 0%nat))
                [[cellularlog.new_log 0 "at-+CSQ" 0]]))) = []
  /\ cellularlog.header
       (cellularlog.CSVWriter_Writes (fun _ => "<nil>"%string) pretty pretty
          examples.csv_pieces (cellularlog.NewCSVWriter (Some 0%nat))
          [[cellularlog.new_log 0 "at-+CSQ" 0]]) = true.
Proof.
  split; [vm_compute; reflexivity|]. split; [vm_compute; reflexivity|].
  apply (proj2 (proj2 (CSV_header_once (fun _ => "<nil>"%string) pretty pretty
                         examples.csv_pieces (Some 0%nat)
                         [[cellularlog.new_log 0 "at-+CSQ" 0]]))).
  - discriminate.
  - vm_compute. discriminate.
Defined.

(** Closing a sink on a closed file and a sink on an open one: the first
    fails, the second is closed all the same. *)
Lemma MultiWriter_Close_reaches_every_sink_witness :
  NoDup [Some 1%positive; Some 2%positive]
  /\ exists store' err,
       cellularlog.MultiWriter_Close examples.sinks [Some 1%positive; Some 2%positive]
       = Go.Returned (store', err)
       /\ err <> None
       /\ os.closed <$> (store' !! 2%positive) = Some true.
Proof.
  assert (Hnd : NoDup [Some 1%positive; Some 2%positive]).
  { apply NoDup_cons. split; [|apply NoDup_singleton].
    intros Hin. apply list_elem_of_singleton in Hin. discriminate. }
  assert (Hin : forall p, p ∈ [Some 1%positive; Some 2%positive] ->
                exists a sink, p = Some a /\ examples.sinks !! a = Some sink).
  { intros p Hp. apply elem_of_cons in Hp as [->|Hp].
    - eexists _, _. split; reflexivity.
    - apply list_elem_of_singleton in Hp as ->. eexists _, _. split; reflexivity. }
  split; [exact Hnd|].
  destruct (MultiWriter_Close_reaches_every_sink examples.sinks
              [Some 1%positive; Some 2%positive] Hnd Hin)
    as (store' & err & Hrun & Hlisted & _ & Herr).
  exists store', err. split; [exact Hrun|]. split.
  - intros Hnil.
    pose proof (proj1 Herr Hnil 1%positive examples.closed_file
                  ltac:(left) eq_refl) as Hfirst.
    vm_compute in Hfirst. discriminate Hfirst.
  - pose proof (Hlisted 2%positive (os.Create None) ltac:(right; left) eq_refl)
      as Hsecond.
    exact (f_equal (fmap os.closed) Hsecond).
Defined.

(** One tick over the two modem messages. *)
Lemma request_asks_every_member_witness :
  exists st' err,
    cellularlog.request examples.polling examples.poll = Go.Returned (st', err)
    /\ exists evs,
         cellularlog.trace st' = cellularlog.trace examples.polling ++ evs
         /\ cellularlog.polled evs = [1%positive; 2%positive].
Proof.
  edestruct request_asks_every_member
    with (st := examples.polling) (snapshot := examples.poll)
    as (evs & Ht & Hp & _); [vm_compute; reflexivity|].
  eexists. eexists. split; [vm_compute; reflexivity|].
  exists evs. split; [exact Ht|exact Hp].
Defined.

(** The same tick fills the batch of 2. *)
Lemma request_writes_full_batches_witness :
  1 <= cellularlog.logBatchSize (cellularlog.proc examples.polling)
  /\ exists st' err,
       cellularlog.request examples.polling examples.poll = Go.Returned (st', err)
       /\ cellularlog.logBuffer (cellularlog.proc st') = []
       /\ exists evs,
            cellularlog.trace st' = cellularlog.trace examples.polling ++ evs
            /\ Forall (fun b => Z.of_nat (length b) = 2) (cellularlog.batches evs).
Proof.
  split; [vm_compute; discriminate|].
  edestruct request_writes_full_batches
    with (st := examples.polling) (snapshot := examples.poll)
    as (_ & _ & Hevs);
    [vm_compute; discriminate|vm_compute; reflexivity|vm_compute; reflexivity|].
  eexists. eexists. split; [vm_compute; reflexivity|].
  split; [reflexivity|]. exact Hevs.
Defined.

(** With a batch size of 0 the same tick writes twice. *)
Lemma request_unbuffered_witness :
  cellularlog.logBatchSize (cellularlog.proc examples.unbuffered) <= 1
  /\ exists st' err,
       cellularlog.request examples.unbuffered examples.poll = Go.Returned (st', err)
       /\ exists evs,
            cellularlog.trace st' = cellularlog.trace examples.unbuffered ++ evs
            /\ length (cellularlog.batches evs) = 2%nat.
Proof.
  split; [vm_compute; discriminate|].
  edestruct request_unbuffered
    with (st := examples.unbuffered) (snapshot := examples.poll)
    as (_ & evs & Ht & _ & Hl);
    [vm_compute; discriminate|reflexivity|vm_compute; reflexivity|].
  eexists. eexists. split; [vm_compute; reflexivity|].
  exists evs. split; [exact Ht|exact Hl].
Defined.

(** The run of [examples.run]: a full batch, then a batch of one. *)
Lemma loop_never_writes_empty_batch_witness :
  exists st',
    cellularlog.loop examples.polling examples.run = Go.Returned st'
    /\ exists evs,
         cellularlog.trace st' = cellularlog.trace examples.polling ++ evs
         /\ Forall (fun b => b <> []) (cellularlog.batches evs).
Proof.
  edestruct loop_never_writes_empty_batch
    with (st := examples.polling) (fired := examples.run)
    as (evs & Ht & Hne & _); [vm_compute; reflexivity|].
  eexists. split; [vm_compute; reflexivity|].
  exists evs. split; [exact Ht|exact Hne].
Defined.


(** A run of two ticks and a periodic flush returns when [Done] fires. *)
Lemma loop_returns_witness :
  exists st',
    cellularlog.loop examples.polling
      ([cellularlog.Tick examples.poll; cellularlog.LogTick;
        cellularlog.Tick [(1%positive, examples.script [])]] ++ [cellularlog.Done])
    = Go.Returned st'.
Proof.
  apply (loop_returns
           [cellularlog.Tick examples.poll; cellularlog.LogTick;
            cellularlog.Tick [(1%positive, examples.script [])]] examples.polling).
  - reflexivity.
  - vm_compute. discriminate.
  - vm_compute. reflexivity.
  - repeat constructor; vm_compute; eauto.
Defined.

(** * Further properties of the messages *)

Lemma mavlink_wait_entry (m : mavlink.Message) log now script m' log' e :
  mavlink.wait m log now script = Go.Returned (m', log', e) ->
  cellularlog.Index log' = cellularlog.Index log
  /\ cellularlog.MessageType log' = cellularlog.MessageType log
  /\ cellularlog.MessageID log' = cellularlog.MessageID log
  /\ cellularlog.RequestTime log' = cellularlog.RequestTime log
  /\ ((cellularlog.Success log' = true /\ e = None
       /\ cellularlog.ResponseTime log' = now
       /\ cellularlog.Duration log' = Go.Sub now (cellularlog.RequestTime log)
       /\ cellularlog.Error log' = cellularlog.Error log
       /\ exists msg, cellularlog.Data log' = cellularlog.AnyMessage msg
                      /\ gomavlib.dynType msg = mavlink.T m)
      \/ (cellularlog.Success log' = cellularlog.Success log
          /\ cellularlog.Data log' = cellularlog.Data log
          /\ cellularlog.ResponseTime log' = cellularlog.ResponseTime log
          /\ cellularlog.Duration log' = cellularlog.Duration log
          /\ (e = None -> cellularlog.Error log' = "context cancelled"%string))).
Proof.
  induction script as [|s rest IH]; simpl; [discriminate|].
  destruct s as [|why|[[msg|name]|]]; auto;
    try (intros [= <- <- <-]; simpl; repeat split; right; repeat split; auto;
         discriminate).
  case_decide; auto. intros [= <- <- <-]. simpl. repeat split.
  left. repeat split. eauto.
Qed.

(** X14. The entry a returning [Process] leaves describes its request: it
    carries the index the message had before the call, the message's type
    string and the time of the request, and no message ID. A successful
    entry comes with a nil error, the data received, the response time and
    their difference as duration; an unsuccessful entry has no data, a zero
    response time and a zero duration. A modem request returns an error
    exactly when its entry is unsuccessful; a telemetry request can return
    nil with an unsuccessful entry, and then the entry says
    [context cancelled]. *)
Theorem Process_entry_describes_request :
  (forall (m : mavlink.Message) requester io,
      match mavlink.Process m requester io with
      | Go.Returned (_, log, e) =>
          cellularlog.Index log = mavlink.index m
          /\ cellularlog.MessageType log = mavlink.GetType m
          /\ cellularlog.RequestTime log = cellularlog.requestNow io
          /\ cellularlog.MessageID log = cellularlog.AnyNil
          /\ if cellularlog.Success log
             then e = None
                  /\ cellularlog.ResponseTime log = cellularlog.responseNow io
                  /\ cellularlog.Duration log
                     = Go.Sub (cellularlog.responseNow io) (cellularlog.requestNow io)
                  /\ cellularlog.Error log = EmptyString
                  /\ exists msg, cellularlog.Data log = cellularlog.AnyMessage msg
                                 /\ gomavlib.dynType msg = mavlink.T m
             else cellularlog.Data log = cellularlog.AnyNil
                  /\ cellularlog.ResponseTime log = 0
                  /\ cellularlog.Duration log = 0
                  /\ (e = None ->
                      cellularlog.Error log = "context cancelled"%string)
      | _ => True
      end)
  /\ (forall (m : AT.Message) requester io,
      match AT.Process m requester io with
      | Go.Returned (_, log, e) =>
          cellularlog.Index log = AT.index m
          /\ cellularlog.MessageType log = AT.GetType m
          /\ cellularlog.RequestTime log = cellularlog.requestNow io
          /\ cellularlog.MessageID log = cellularlog.AnyNil
          /\ if cellularlog.Success log
             then e = None
                  /\ cellularlog.ResponseTime log = cellularlog.responseNow io
                  /\ cellularlog.Duration log
                     = Go.Sub (cellularlog.responseNow io) (cellularlog.requestNow io)
                  /\ cellularlog.Error log = EmptyString
                  /\ exists data, cellularlog.Command io = inr data
                                  /\ cellularlog.Data log = cellularlog.AnyStrings data
             else cellularlog.Data log = cellularlog.AnyNil
                  /\ cellularlog.ResponseTime log = 0
                  /\ cellularlog.Duration log = 0
                  /\ e <> None
                  /\ cellularlog.Error log <> EmptyString
      | _ => True
      end).
Proof.
  split.
  - intros m requester io. unfold mavlink.Process.
    destruct requester as [[[a|]|p]|]; simpl; auto;
      try (repeat split; discriminate).
    destruct (cellularlog.WriteMessageAll io) as [err|]; simpl;
      [repeat split; discriminate|].
    destruct (mavlink.wait m _ _ _) as [[[m' log] e]| |reason] eqn:Hw; simpl; auto.
    apply mavlink_wait_entry in Hw. simpl in Hw.
    destruct Hw as (H1 & H2 & H3 & H4 & [Hok|Hfail]).
    + destruct Hok as (-> & He & Hr & Hd & Herr & Hmsg). repeat split; auto.
    + destruct Hfail as (-> & Hdata & Hr & Hd & Hc). repeat split; auto.
  - intros m requester io. unfold AT.Process.
    destruct requester as [[p|[a|]]|]; simpl; auto;
      try (repeat split; discriminate).
    destruct (cellularlog.Command io) as [err|data] eqn:Hcmd; simpl.
    + repeat split; discriminate.
    + repeat split. eauto.
Qed.

Lemma uint64_range (z : Z) : 0 <= Go.uint64 z < 2 ^ 64.
Proof. unfold Go.uint64. apply Z.mod_pos_bound. lia. Qed.

Lemma uint64_step (i : Z) (k : nat) :
  Go.uint64 (Go.uint64 (i + 1) + Z.of_nat k) = Go.uint64 (i + Z.of_nat (S k)).
Proof.
  unfold Go.uint64. rewrite Zplus_mod_idemp_l. f_equal. lia.
Qed.

Lemma mavlink_Process_index (m m' : mavlink.Message) requester io log e :
  mavlink.Process m requester io = Go.Returned (m', log, e) ->
  mavlink.messages m' = mavlink.messages m ++ [log]
  /\ mavlink.index m' = Go.uint64 (mavlink.index m + 1)
  /\ mavlink.GetType m' = mavlink.GetType m
  /\ cellularlog.Index log = mavlink.index m
  /\ cellularlog.MessageType log = mavlink.GetType m.
Proof.
  unfold mavlink.Process.
  destruct requester as [[[a|]|p]|]; simpl; try discriminate;
    try (intros [= <- <- <-]; simpl; auto).
  destruct (cellularlog.WriteMessageAll io) as [err|]; simpl;
    [intros [= <- <- <-]; simpl; auto|].
  destruct (mavlink.wait m _ _ _) as [[[m1 log1] e1]| |reason] eqn:Hw; simpl;
    try discriminate.
  intros [= <- <- <-].
  pose proof (mavlink_wait_returned _ _ _ _ _ _ _ Hw) as (H1 & H2 & H3 & H4).
  pose proof (mavlink_wait_entry _ _ _ _ _ _ _ Hw) as (E1 & E2 & _).
  simpl in *. unfold mavlink.GetType. simpl. rewrite H1, H2, H3. auto.
Qed.

Lemma AT_Process_index (m m' : AT.Message) requester io log e :
  AT.Process m requester io = Go.Returned (m', log, e) ->
  AT.messages m' = AT.messages m ++ [log]
  /\ AT.index m' = Go.uint64 (AT.index m + 1)
  /\ AT.GetType m' = AT.GetType m
  /\ cellularlog.Index log = AT.index m
  /\ cellularlog.MessageType log = AT.GetType m.
Proof.
  unfold AT.Process.
  destruct requester as [[p|[a|]]|]; simpl; try discriminate;
    try (intros [= <- <- <-]; simpl; auto).
  destruct (cellularlog.Command io) as [err|data]; simpl;
    intros [= <- <- <-]; simpl; auto.
Qed.

Lemma mavlink_Processes_history calls : forall (m m' : mavlink.Message),
  cellularlog.Processes m calls = Go.Returned m' ->
  mavlink.GetType m' = mavlink.GetType m
  /\ mavlink.index m' = (if calls is [] then mavlink.index m
                         else Go.uint64 (mavlink.index m + Z.of_nat (length calls)))
  /\ exists new,
       mavlink.messages m' = mavlink.messages m ++ new
       /\ length new = length calls
       /\ Forall (fun entry => cellularlog.MessageType entry = mavlink.GetType m) new
       /\ map cellularlog.Index new
          = (if calls is [] then []
             else mavlink.index m
                  :: map (fun k => Go.uint64 (mavlink.index m + Z.of_nat k))
                       (seq 1 (pred (length calls)))).
Proof.
  induction calls as [|[requester io] rest IH]; intros m m'; simpl.
  - intros [= <-]. repeat split. exists []. by rewrite app_nil_r.
  - destruct (mavlink.Process m requester io) as [[[m1 log] e]| |] eqn:Hp;
      try discriminate. simpl.
    apply mavlink_Process_index in Hp as (P1 & P2 & P3 & P4 & P5).
    intros (I1 & I2 & new & I3 & I4 & I5 & I6)%IH.
    split; [congruence|]. split.
    { rewrite I2, P2. destruct rest as [|c rest']; [reflexivity|].
      simpl length. by rewrite uint64_step. }
    exists (log :: new). rewrite I3, P1, <- app_assoc. simpl.
    split; [reflexivity|]. split; [by rewrite I4|].
    split; [constructor; [exact P5|by rewrite <- P3]|].
    rewrite I6, P4. f_equal. destruct rest as [|c rest']; [reflexivity|].
    simpl length. simpl pred. rewrite P2.
    change (seq 1 (S (length rest'))) with (1%nat :: seq 2 (length rest')).
    simpl map. f_equal. rewrite <- (seq_shift _ 1), map_map.
    apply map_ext. intros k. apply uint64_step.
Qed.

Lemma AT_Processes_history calls : forall (m m' : AT.Message),
  cellularlog.Processes m calls = Go.Returned m' ->
  AT.GetType m' = AT.GetType m
  /\ AT.index m' = (if calls is [] then AT.index m
                    else Go.uint64 (AT.index m + Z.of_nat (length calls)))
  /\ exists new,
       AT.messages m' = AT.messages m ++ new
       /\ length new = length calls
       /\ Forall (fun entry => cellularlog.MessageType entry = AT.GetType m) new
       /\ map cellularlog.Index new
          = (if calls is [] then []
             else AT.index m
                  :: map (fun k => Go.uint64 (AT.index m + Z.of_nat k))
                       (seq 1 (pred (length calls)))).
Proof.
  induction calls as [|[requester io] rest IH]; intros m m'; simpl.
  - intros [= <-]. repeat split. exists []. by rewrite app_nil_r.
  - destruct (AT.Process m requester io) as [[[m1 log] e]| |] eqn:Hp;
      try discriminate. simpl.
    apply AT_Process_index in Hp as (P1 & P2 & P3 & P4 & P5).
    intros (I1 & I2 & new & I3 & I4 & I5 & I6)%IH.
    split; [congruence|]. split.
    { rewrite I2, P2. destruct rest as [|c rest']; [reflexivity|].
      simpl length. by rewrite uint64_step. }
    exists (log :: new). rewrite I3, P1, <- app_assoc. simpl.
    split; [reflexivity|]. split; [by rewrite I4|].
    split; [constructor; [exact P5|by rewrite <- P3]|].
    rewrite I6, P4. f_equal. destruct rest as [|c rest']; [reflexivity|].
    simpl length. simpl pred. rewrite P2.
    change (seq 1 (S (length rest'))) with (1%nat :: seq 2 (length rest')).
    simpl map. f_equal. rewrite <- (seq_shift _ 1), map_map.
    apply map_ext. intros k. apply uint64_step.
Qed.

(** X15. The history of a message made by [NewMessage] and used by
    successive calls of [Process], whatever their requesters and outcomes:
    it holds one entry per call, in the order of the calls, the entry of
    call number k (from 0) has index k (modulo 2^64, the index being a
    uint64), every entry carries the message's type string, and the
    message's own index is the number of calls. *)
Theorem history_indexes_count_calls :
  (forall T calls (m' : mavlink.Message),
      cellularlog.Processes (mavlink.NewMessage T) calls = Go.Returned m' ->
      map cellularlog.Index (mavlink.GetAllEntries m')
      = map (fun k => Go.uint64 (Z.of_nat k)) (seq 0 (length calls))
      /\ Forall (fun entry => cellularlog.MessageType entry = mavlink.GetType m')
           (mavlink.GetAllEntries m')
      /\ mavlink.index m' = Go.uint64 (Z.of_nat (length calls)))
  /\ (forall cmd calls (m' : AT.Message),
      cellularlog.Processes (AT.NewMessage cmd) calls = Go.Returned m' ->
      map cellularlog.Index (AT.GetAllEntries m')
      = map (fun k => Go.uint64 (Z.of_nat k)) (seq 0 (length calls))
      /\ Forall (fun entry => cellularlog.MessageType entry = AT.GetType m')
           (AT.GetAllEntries m')
      /\ AT.index m' = Go.uint64 (Z.of_nat (length calls))).
Proof.
  split.
  - intros T calls m' Hp.
    apply mavlink_Processes_history in Hp
      as (Hty & Hidx & new & Hm & Hlen & Hall & Hmap).
    unfold mavlink.GetAllEntries. simpl in *. rewrite Hm, Hty. simpl.
    split; [|split; [exact Hall|]].
    + rewrite Hmap. destruct calls as [|c rest]; [reflexivity|].
      simpl length. simpl pred. simpl seq. simpl map. f_equal.
    + rewrite Hidx. by destruct calls.
  - intros cmd calls m' Hp.
    apply AT_Processes_history in Hp
      as (Hty & Hidx & new & Hm & Hlen & Hall & Hmap).
    unfold AT.GetAllEntries. simpl in *. rewrite Hm, Hty. simpl.
    split; [|split; [exact Hall|]].
    + rewrite Hmap. destruct calls as [|c rest]; [reflexivity|].
      simpl length. simpl pred. simpl seq. simpl map. f_equal.
    + rewrite Hidx. by destruct calls.
Qed.

(** Two calls on a new modem message, the second with no back end. *)
Lemma history_indexes_count_calls_witness :
  exists m',
    cellularlog.Processes (AT.NewMessage "+CSQ")
      [(Some examples.modem, examples.script []); (None, examples.script [])]
    = Go.Returned m'
    /\ map cellularlog.Index (AT.GetAllEntries m') = [0; 1].
Proof.
  eexists. split; [vm_compute; reflexivity|].
  exact (proj1 (proj2 history_indexes_count_calls "+CSQ"%string
                  [(Some examples.modem, examples.script []);
                   (None, examples.script [])] _ eq_refl)).
Defined.

(** X16. The type string of a message tells its identity key and nothing
    else: two messages have the same [GetType] exactly when they are two
    telemetry messages with the same numeric ID or two modem messages with
    the same command. A telemetry and a modem message never share a type
    string. *)
Theorem GetType_tells_identity (m1 m2 : objects.Msg) :
  cellularlog.GetType m1 = cellularlog.GetType m2
  <-> objects.identity m1 = objects.identity m2.
Proof.
  destruct m1 as [t1|a1], m2 as [t2|a2]; simpl;
    unfold mavlink.GetType, AT.GetType; simpl.
  - split.
    + intros [= Hp]. simpl in Hp. apply pretty_Z_inj in Hp. congruence.
    + intros [= ->]. reflexivity.
  - split; discriminate.
  - split; discriminate.
  - split.
    + intros [= Hc]. change (AT.cmd a1 = AT.cmd a2) in Hc. congruence.
    + intros [= ->]. reflexivity.
Qed.

Section Averages.
Context {M W : Type} `{!cellularlog.Message M} `{!cellularlog.Writer W}.
Import cellularlog.

Lemma total_duration_between (entries : list LogEntry) (lo hi : Z) :
  Forall (fun entry => lo <= Duration entry <= hi) entries ->
  Z.of_nat (length entries) * lo <= total_duration entries
  <= Z.of_nat (length entries) * hi.
Proof.
  induction 1 as [|entry rest Hentry Hrest IH]; [simpl; lia|].
  unfold total_duration in *. simpl foldr. simpl length.
  rewrite Nat2Z.inj_succ. nia.
Qed.

(** X17. The average response time is a mean of what it averages: when at
    least one entry of the type is successful with a positive duration and
    the durations sum below 2^63 ns, [GetAverageResponseTime] returns a
    value of at least 1 ns that lies between the smallest and the largest
    of those durations. *)
Theorem average_lies_between_extremes (st : State M W) messageType values lo hi :
  (forall a, a ∈ values -> is_Some (heap st !! a)) ->
  total_duration (qualifying (values ≫= entries_of (heap st) messageType)) < 2 ^ 63 ->
  qualifying (values ≫= entries_of (heap st) messageType) <> [] ->
  Forall (fun entry => lo <= Duration entry <= hi)
    (qualifying (values ≫= entries_of (heap st) messageType)) ->
  exists r,
    GetAverageResponseTime st messageType values = Go.Returned r
    /\ lo <= r <= hi /\ 1 <= r.
Proof.
  intros Hin Hsum Hne Hall. unfold GetAverageResponseTime.
  rewrite averageResponseTime_range_spec; [|exact Hin|lia|lia].
  simpl.
  pose proof (total_duration_qualifying (values ≫= entries_of (heap st) messageType))
    as Hlow.
  pose proof (total_duration_between _ lo hi Hall) as Hbetween.
  set (Q := qualifying (values ≫= entries_of (heap st) messageType)) in *.
  assert (Hpos : 0 < Z.of_nat (length Q)) by (destruct Q; [done|simpl; lia]).
  rewrite !Z.add_0_l.
  destruct (Z.eqb_spec (Z.of_nat (length Q)) 0) as [Hz|_]; [lia|].
  eexists. split; [reflexivity|].
  rewrite Z.quot_div_nonneg by lia.
  split; [split|].
  - apply Z.div_le_lower_bound; lia.
  - apply Z.div_le_upper_bound; lia.
  - apply Z.div_le_lower_bound; lia.
Qed.

End Averages.

(** The surveyed modem message: durations of 100 ms and 200 ms. *)
Lemma average_lies_between_extremes_witness :
  exists r,
    cellularlog.GetAverageResponseTime examples.survey "at-+CSQ" [1%positive; 3%positive]
    = Go.Returned r
    /\ 100000000 <= r <= 200000000.
Proof.
  destruct (average_lies_between_extremes examples.survey "at-+CSQ"%string
              [1%positive; 3%positive] 100000000 200000000)
    as (r & Hr & Hb & _).
  - intros a Ha. apply elem_of_cons in Ha as [->|Ha]; [by eexists|].
    apply list_elem_of_singleton in Ha as ->. by eexists.
  - vm_compute. reflexivity.
  - vm_compute. discriminate.
  - apply (bool_decide_unpack
             (Forall (fun entry => 100000000 <= cellularlog.Duration entry <= 200000000)
                (cellularlog.qualifying
                   ([1%positive; 3%positive]
                      ≫= cellularlog.entries_of (cellularlog.heap examples.survey)
                           "at-+CSQ")))).
    vm_compute. exact I.
  - exists r. split; [exact Hr|exact Hb].
Defined.


(** * Properties of the registry generator *)

Section Generator.
Import generator.

Lemma isLower_range c : isLower c = true <-> (97 <= N_of_ascii c <= 122)%N.
Proof.
  unfold isLower. rewrite andb_true_iff, !N.leb_le. reflexivity.
Qed.

Lemma isUpper_range c : isUpper c = true <-> (65 <= N_of_ascii c <= 90)%N.
Proof.
  unfold isUpper. rewrite andb_true_iff, !N.leb_le. reflexivity.
Qed.

Lemma isLower_not_upper c : isLower c = true -> isUpper c = false.
Proof.
  intros Hl%isLower_range. destruct (isUpper c) eqn:Hu; [|reflexivity].
  apply isUpper_range in Hu. lia.
Qed.

Lemma toUpper_not_lower c : isLower (toUpper c) = false.
Proof.
  unfold toUpper. destruct (isLower c) eqn:Hl; [|exact Hl].
  apply isLower_range in Hl.
  destruct (isLower _) eqn:Hu; [|reflexivity].
  apply isLower_range in Hu. rewrite N_ascii_embedding in Hu by lia. lia.
Qed.

Lemma toUpper_underscore c : toUpper c = "_"%char <-> c = "_"%char.
Proof.
  unfold toUpper. destruct (isLower c) eqn:Hl; [|reflexivity].
  apply isLower_range in Hl. split.
  - intros Hc. apply (f_equal N_of_ascii) in Hc.
    rewrite N_ascii_embedding in Hc by lia. simpl in Hc. lia.
  - intros ->. simpl in Hl. lia.
Qed.

Lemma ToUpper_app s t : ToUpper (s +:+ t) = ToUpper s +:+ ToUpper t.
Proof. induction s as [|c s IH]; simpl; [reflexivity|]. by rewrite IH. Qed.

Lemma separate_lowers tl : forall prev rest,
  forallb isLower (list_ascii_of_string tl) = true ->
  separate prev (tl +:+ rest) = tl +:+ separate (lastc prev tl) rest.
Proof.
  induction tl as [|c tl IH]; intros prev rest; simpl; [reflexivity|].
  intros [Hc Htl]%andb_prop. rewrite (isLower_not_upper c Hc).
  rewrite (IH (Some c) rest Htl).
  by destruct prev.
Qed.

Lemma lastc_lower tl : forall prev,
  tl <> EmptyString -> forallb isLower (list_ascii_of_string tl) = true ->
  exists c, lastc prev tl = Some c /\ isLower c = true.
Proof.
  induction tl as [|c tl IH]; intros prev Hne; [done|]. simpl.
  intros [Hc Htl]%andb_prop. destruct tl as [|d tl'].
  - simpl. eauto.
  - apply IH; [done|exact Htl].
Qed.

Lemma separate_word w rest prev :
  capitalised w = true ->
  exists c, isLower c = true
    /\ separate prev (w +:+ rest)
       = match prev with
         | Some _ => String "_" (w +:+ separate (Some c) rest)
         | None => w +:+ separate (Some c) rest
         end.
Proof.
  destruct w as [|c [|d tl]]; try discriminate.
  unfold capitalised. intros [Hc Htl]%andb_prop.
  destruct (lastc_lower (String d tl) (Some c) ltac:(done) Htl) as (l & Hl & Hlow).
  exists l. split; [exact Hlow|].
  change (String c (String d tl) +:+ rest) with (String c (String d tl +:+ rest)).
  cbn [separate]. rewrite (separate_lowers (String d tl) (Some c) rest Htl), Hl.
  simpl in Htl. apply andb_prop in Htl as [Hd _].
  change (String d tl +:+ rest) with (String d (tl +:+ rest)). cbn iota beta.
  rewrite Hc, Hd. simpl andb.
  destruct prev as [p|]; [|reflexivity].
  rewrite orb_true_r. reflexivity.
Qed.

Lemma append_nil_r (s : string) : s +:+ EmptyString = s.
Proof.
  induction s as [|c s IH]; [reflexivity|].
  change (String c (s +:+ EmptyString) = String c s). by rewrite IH.
Qed.

Lemma list_ascii_of_string_app (s t : string) :
  list_ascii_of_string (s +:+ t) = list_ascii_of_string s ++ list_ascii_of_string t.
Proof.
  induction s as [|c s IH]; [reflexivity|].
  change (c :: list_ascii_of_string (s +:+ t)
          = c :: (list_ascii_of_string s ++ list_ascii_of_string t)).
  by rewrite IH.
Qed.

Lemma separate_words ws : forall prev,
  Forall (fun w => capitalised w = true) ws ->
  separate prev (String.concat EmptyString ws)
  = match prev, ws with
    | Some _, _ :: _ => String "_" (String.concat "_" ws)
    | _, _ => String.concat "_" ws
    end.
Proof.
  induction ws as [|w ws IH]; intros prev Hall.
  - cbn. by destruct prev.
  - inversion Hall as [|? ? Hw Hws]; subst.
    destruct ws as [|w' ws'].
    + cbn [String.concat].
      destruct (separate_word w EmptyString prev Hw) as (c & _ & Hsep).
      rewrite append_nil_r in Hsep. rewrite Hsep. cbn [separate].
      rewrite append_nil_r. by destruct prev.
    + change (String.concat EmptyString (w :: w' :: ws'))
        with (w +:+ String.concat EmptyString (w' :: ws')).
      destruct (separate_word w (String.concat EmptyString (w' :: ws')) prev Hw)
        as (c & _ & Hsep).
      rewrite Hsep, (IH (Some c) Hws). by destruct prev.
Qed.

Lemma capitalised_ascii_only w : capitalised w = true -> ascii_only w = true.
Proof.
  destruct w as [|c [|d tl]]; try discriminate. unfold capitalised, ascii_only.
  intros [Hc Htl]%andb_prop. apply forallb_forall. intros x Hx.
  change (In x (c :: list_ascii_of_string (String d tl))) in Hx.
  destruct Hx as [<-|Hx].
  - apply isUpper_range in Hc. unfold isASCII. apply N.ltb_lt. lia.
  - rewrite forallb_forall in Htl. specialize (Htl x Hx).
    apply isLower_range in Htl. unfold isASCII. apply N.ltb_lt. lia.
Qed.

Lemma ascii_only_words ws :
  Forall (fun w => capitalised w = true) ws ->
  ascii_only (String.concat EmptyString ws) = true.
Proof.
  induction 1 as [|w ws Hw Hws IH]; [reflexivity|].
  destruct ws as [|w' ws']; [by apply capitalised_ascii_only|].
  change (String.concat EmptyString (w :: w' :: ws'))
    with (w +:+ String.concat EmptyString (w' :: ws')).
  unfold ascii_only in *. rewrite list_ascii_of_string_app, forallb_app.
  apply andb_true_intro. split; [by apply capitalised_ascii_only|exact IH].
Qed.

(** X18. A type name made of the prefix [Message] and words in camel
    case, each a capital letter followed by one or more small letters, is
    turned into the words in upper case joined by underscores: the
    registry key of [MessageGpsRawInt] is [GPS_RAW_INT]. *)
Theorem extractMessageName_camel_case (ws : list string) :
  Forall (fun w => capitalised w = true) ws ->
  extractMessageName ("Message" +:+ String.concat EmptyString ws)
  = Some (ToUpper (String.concat "_" ws)).
Proof.
  intros Hall. unfold extractMessageName.
  change (afterMessage ("Message" +:+ String.concat EmptyString ws))
    with (Some (String.concat EmptyString ws)).
  cbn iota beta. rewrite (ascii_only_words ws Hall), (separate_words ws None Hall).
  reflexivity.
Qed.

Lemma extractMessageName_camel_case_witness :
  extractMessageName "MessageGpsRawInt" = Some "GPS_RAW_INT"%string.
Proof.
  exact (extractMessageName_camel_case ["Gps"; "Raw"; "Int"]%string
           ltac:(repeat constructor)).
Defined.

Lemma letters_separate name : forall prev,
  letters (separate prev name) = letters name.
Proof.
  unfold letters. induction name as [|r rest IH]; intros prev; [reflexivity|].
  cbn [separate].
  destruct (match prev with Some p => _ | None => false end);
    cbn [list_ascii_of_string]; rewrite ?filter_cons; cbn [list_ascii_of_string];
    repeat case_decide; try congruence; rewrite ?filter_cons;
    repeat case_decide; try congruence; by rewrite IH.
Qed.

Lemma letters_ToUpper s : letters (ToUpper s) = map toUpper (letters s).
Proof.
  unfold letters. induction s as [|c s IH]; [reflexivity|].
  cbn [ToUpper list_ascii_of_string]. rewrite !filter_cons.
  pose proof (toUpper_underscore c) as Hu.
  repeat case_decide; cbn [map]; rewrite ?IH; tauto || reflexivity.
Qed.

Lemma ToUpper_no_lower s :
  forallb (fun c => negb (isLower c)) (list_ascii_of_string (ToUpper s)) = true.
Proof.
  induction s as [|c s IH]; [reflexivity|]. cbn [ToUpper list_ascii_of_string forallb].
  by rewrite toUpper_not_lower, IH.
Qed.

Lemma length_ToUpper s : String.length (ToUpper s) = String.length s.
Proof. induction s as [|c s IH]; cbn; [reflexivity|]. by rewrite IH. Qed.

Lemma length_separate name : forall prev,
  (String.length name <= String.length (separate prev name)
   <= 2 * String.length name)%nat
  /\ (prev = None -> name <> EmptyString ->
      (String.length (separate prev name) < 2 * String.length name)%nat).
Proof.
  induction name as [|r rest IH]; intros prev; [cbn; split; [lia|done]|].
  cbn [separate]. destruct (IH (Some r)) as [Hlen _].
  destruct prev as [p|].
  - split; [|discriminate].
    destruct (isUpper r && _); cbn [String.length]; lia.
  - split; [cbn [String.length]; lia|]. intros _ _. cbn [String.length]. lia.
Qed.

(** X19. [extractMessageName] returns a type name without the prefix
    [Message] unchanged (it is not put in upper case). After the prefix it
    only inserts underscores and raises small letters: the result without
    its underscores is the name without its underscores in upper case, it
    has no small letter, and it inserts fewer underscores than the name
    has characters. *)
Theorem extractMessageName_keeps_letters (typeName : string) :
  match extractMessageName typeName, afterMessage typeName with
  | Some result, None => result = typeName
  | Some result, Some name =>
      letters result = map toUpper (letters name)
      /\ forallb (fun c => negb (isLower c)) (list_ascii_of_string result) = true
      /\ (String.length name <= String.length result <= 2 * String.length name)%nat
      /\ (name <> EmptyString ->
          (String.length result < 2 * String.length name)%nat)
  | None, Some name => ascii_only name = false
  | None, None => False
  end.
Proof.
  unfold extractMessageName. destruct (afterMessage typeName) as [name|]; [|reflexivity].
  destruct (ascii_only name) eqn:Ha; [|reflexivity].
  rewrite letters_ToUpper, letters_separate, length_ToUpper.
  split; [reflexivity|]. split; [apply ToUpper_no_lower|].
  destruct (length_separate name None) as [Hlen Hstrict].
  split; [exact Hlen|]. intros Hne. by apply Hstrict.
Qed.

End Generator.

(** * Properties of the command line *)

Section CommandLine.
Import main.
Variable createMAVLinkMessage : string -> Go.error + mavlink.Message.

Lemma Split_comma_free (s : string) : comma_free s = true -> Split s = [s].
Proof.
  unfold comma_free. induction s as [|c s IH]; [reflexivity|].
  cbn [list_ascii_of_string forallb Split]. intros [Hc Hs]%andb_prop.
  apply negb_true_iff in Hc. rewrite Hc, (IH Hs). reflexivity.
Qed.

Lemma Split_cons_comma_free (s rest : string) :
  comma_free s = true ->
  Split (s +:+ String "," rest) = s :: Split rest.
Proof.
  unfold comma_free. induction s as [|c s IH]; [reflexivity|].
  cbn [list_ascii_of_string forallb]. intros [Hc Hs]%andb_prop.
  apply negb_true_iff in Hc.
  change (String c s +:+ String "," rest) with (String c (s +:+ String "," rest)).
  cbn [Split]. rewrite Hc, (IH Hs). reflexivity.
Qed.

Lemma Split_concat (parts : list string) :
  parts <> [] -> Forall (fun part => comma_free part = true) parts ->
  Split (String.concat "," parts) = parts.
Proof.
  induction parts as [|part parts IH]; [done|]. intros _ Hall.
  inversion Hall as [|? ? Hpart Hparts]; subst.
  destruct parts as [|part' parts'].
  - by apply Split_comma_free.
  - change (String.concat "," (part :: part' :: parts'))
      with (part +:+ String "," (String.concat "," (part' :: parts'))).
    rewrite (Split_cons_comma_free _ _ Hpart), IH; [reflexivity|done|exact Hparts].
Qed.

Lemma trimRight_cons (c : ascii) (s : string) :
  asciiSpace c = false -> trimRight (String c s) = String c (trimRight s).
Proof. intros Hc. cbn [trimRight]. rewrite Hc. by destruct (trimRight s). Qed.

Lemma trimRight_before (c d : ascii) (s : string) :
  asciiSpace d = false ->
  trimRight (String c (String d s)) = String c (String d (trimRight s)).
Proof.
  intros Hd. change (trimRight (String c (String d s)))
    with (match trimRight (String d s) with
          | EmptyString => if asciiSpace c then EmptyString else String c EmptyString
          | kept => String c kept
          end).
  by rewrite (trimRight_cons d s Hd).
Qed.

Lemma trimRight_blank (s : string) : trimLeft s = EmptyString -> trimRight s = EmptyString.
Proof.
  induction s as [|c s IH]; [reflexivity|]. cbn [trimLeft trimRight].
  destruct (asciiSpace c) eqn:Hc; [|discriminate]. intros Hs. by rewrite (IH Hs).
Qed.

Lemma trimLeft_trimRight_blank (s : string) :
  trimRight s = EmptyString -> trimLeft s = EmptyString.
Proof.
  induction s as [|c s IH]; [reflexivity|]. cbn [trimLeft trimRight].
  destruct (trimRight s) eqn:Hr; [|discriminate].
  destruct (asciiSpace c); [|discriminate]. intros _. by apply IH.
Qed.

Lemma trimRight_idem (s : string) : trimRight (trimRight s) = trimRight s.
Proof.
  induction s as [|c s IH]; [reflexivity|]. cbn [trimRight].
  destruct (trimRight s) as [|d kept] eqn:Hr.
  - destruct (asciiSpace c) eqn:Hc; [reflexivity|]. cbn [trimRight]. by rewrite Hc.
  - cbn [trimRight]. cbn [trimRight] in IH.
    destruct (match trimRight kept with
              | EmptyString => if asciiSpace d then EmptyString else String d EmptyString
              | String a s0 => String d (String a s0)
              end) eqn:Hk; [discriminate|]. by rewrite IH.
Qed.

Lemma trimLeft_trimRight (s : string) :
  trimLeft (trimRight s) = trimRight (trimLeft s).
Proof.
  induction s as [|c s IH]; [reflexivity|].
  destruct (asciiSpace c) eqn:Hc.
  - cbn [trimLeft trimRight]. rewrite Hc.
    destruct (trimRight s) as [|d kept] eqn:Hr.
    + rewrite (trimLeft_trimRight_blank s Hr). reflexivity.
    + cbn [trimLeft]. rewrite Hc. exact IH.
  - rewrite (trimRight_cons c s Hc). cbn [trimLeft]. rewrite Hc.
    by rewrite (trimRight_cons c s Hc).
Qed.

Lemma trim_trimRight (s : string) :
  trimRight (trimLeft (trimRight s)) = trimRight (trimLeft s).
Proof. by rewrite trimLeft_trimRight, trimRight_idem. Qed.

Lemma ascii_only_trimLeft (s : string) :
  generator.ascii_only s = true -> generator.ascii_only (trimLeft s) = true.
Proof.
  unfold generator.ascii_only. induction s as [|c s IH]; [reflexivity|].
  cbn [trimLeft]. destruct (asciiSpace c); [|auto].
  cbn [list_ascii_of_string forallb]. intros [_ Hs]%andb_prop. by apply IH.
Qed.

Lemma ascii_only_trimRight (s : string) :
  generator.ascii_only s = true -> generator.ascii_only (trimRight s) = true.
Proof.
  unfold generator.ascii_only. induction s as [|c s IH]; [reflexivity|].
  cbn [list_ascii_of_string forallb]. intros [Hc Hs]%andb_prop.
  cbn [trimRight]. specialize (IH Hs).
  destruct (trimRight s) as [|d kept].
  - destruct (asciiSpace c); [reflexivity|].
    cbn [list_ascii_of_string forallb]. by rewrite Hc.
  - change (forallb generator.isASCII (c :: list_ascii_of_string (String d kept)) = true).
    cbn [forallb]. by rewrite Hc, IH.
Qed.

Lemma lastc_ascii (s : string) : forall prev,
  forallb generator.isASCII (option_list prev) = true ->
  generator.ascii_only s = true ->
  forallb generator.isASCII (option_list (generator.lastc prev s)) = true.
Proof.
  unfold generator.ascii_only. induction s as [|c s IH]; intros prev Hp; [auto|].
  cbn [list_ascii_of_string forallb generator.lastc]. intros [Hc Hs]%andb_prop.
  apply IH; [|exact Hs]. cbn. by rewrite Hc.
Qed.

Lemma TrimSpace_ascii_only (s : string) :
  generator.ascii_only s = true -> TrimSpace s = Some (trimRight (trimLeft s)).
Proof.
  intros Hs. unfold TrimSpace.
  pose proof (ascii_only_trimRight _ (ascii_only_trimLeft _ Hs)) as Hk.
  set (kept := trimRight (trimLeft s)) in *.
  rewrite forallb_app, (lastc_ascii kept None eq_refl Hk).
  destruct kept as [|c kept']; [reflexivity|].
  unfold generator.ascii_only in Hk. cbn [list_ascii_of_string forallb] in Hk.
  apply andb_prop in Hk as [Hc _]. cbn. by rewrite Hc.
Qed.

(** One modem part, written [at:cmd] or [at :cmd]. *)
Lemma parse_range_modem (part cmd : string) rest acc :
  part = ("at:" +:+ cmd)%string \/ part = ("at :" +:+ cmd)%string ->
  generator.ascii_only cmd = true ->
  parse_range createMAVLinkMessage (part :: rest) acc
  = parse_range createMAVLinkMessage rest
      (acc ++ [objects.Modem (AT.NewMessage (trimRight (trimLeft cmd)))]).
Proof.
  intros Hpart Hcmd.
  pose proof (ascii_only_trimRight cmd Hcmd) as Hright.
  pose proof (TrimSpace_ascii_only (trimRight cmd) Hright) as Hname.
  rewrite trim_trimRight in Hname.
  assert (Hlast : forall p, generator.isASCII p = true ->
            forallb generator.isASCII
              (option_list (generator.lastc (Some p) (trimRight cmd))) = true).
  { intros p Hp. apply lastc_ascii; [cbn; by rewrite Hp|exact Hright]. }
  destruct Hpart as [-> | ->].
  - assert (Htrim : TrimSpace ("at:" +:+ cmd) = Some ("at:" +:+ trimRight cmd)%string).
    { unfold TrimSpace.
      change ("at:" +:+ cmd)%string with (String "a" (String "t" (String ":" cmd))).
      cbn [trimLeft asciiSpace]. rewrite !trimRight_cons by reflexivity.
      cbn [first_byte option_list app forallb generator.lastc].
      rewrite forallb_app, (Hlast ":"%char eq_refl). reflexivity. }
    cbn [parse_range]. rewrite Htrim. cbn [mbind option_bind].
    change ("at:" +:+ trimRight cmd)%string
      with (String "a" (String "t" (String ":" (trimRight cmd)))).
    destruct (decide _) as [Habs|_]; [discriminate Habs|].
    cbn [Index Ascii.eqb Bool.eqb fmap option_fmap option_map take drop].
    change (TrimSpace "at") with (Some "at"%string).
    rewrite Hname. cbn [mbind option_bind].
    destruct (decide ("at"%string = "mavlink"%string)) as [Habs|_]; [discriminate Habs|].
    destruct (decide ("at"%string = "at"%string)) as [_|Habs]; [reflexivity|done].
  - assert (Htrim : TrimSpace ("at :" +:+ cmd) = Some ("at :" +:+ trimRight cmd)%string).
    { unfold TrimSpace.
      change ("at :" +:+ cmd)%string
        with (String "a" (String "t" (String " " (String ":" cmd)))).
      cbn [trimLeft asciiSpace]. rewrite !trimRight_cons by reflexivity.
      rewrite (trimRight_before " " ":" cmd eq_refl).
      cbn [first_byte option_list app forallb generator.lastc].
      rewrite forallb_app, (Hlast ":"%char eq_refl). reflexivity. }
    cbn [parse_range]. rewrite Htrim. cbn [mbind option_bind].
    change ("at :" +:+ trimRight cmd)%string
      with (String "a" (String "t" (String " " (String ":" (trimRight cmd))))).
    destruct (decide _) as [Habs|_]; [discriminate Habs|].
    cbn [Index Ascii.eqb Bool.eqb fmap option_fmap option_map take drop].
    change (TrimSpace "at ") with (Some "at"%string).
    rewrite Hname. cbn [mbind option_bind].
    destruct (decide ("at"%string = "mavlink"%string)) as [Habs|_]; [discriminate Habs|].
    destruct (decide ("at"%string = "at"%string)) as [_|Habs]; [reflexivity|done].
Qed.

Lemma parse_range_blank (parts : list string) : forall acc,
  Forall (fun part => trimLeft part = EmptyString) parts ->
  parse_range createMAVLinkMessage parts acc = Some (acc, None).
Proof.
  induction parts as [|part parts IH]; intros acc Hall; [reflexivity|].
  inversion Hall as [|? ? Hpart Hparts]; subst.
  cbn [parse_range]. unfold TrimSpace. rewrite Hpart. cbn.
  by apply IH.
Qed.

Lemma Split_blank (s : string) :
  blank s = true -> Forall (fun part => trimLeft part = EmptyString) (Split s).
Proof.
  unfold blank. induction s as [|c s IH]; [by repeat constructor|].
  cbn [list_ascii_of_string forallb Split]. intros [Hc Hs]%andb_prop.
  specialize (IH Hs). destruct (Ascii.eqb c ",") eqn:Hcomma.
  - by constructor.
  - simpl in Hc. destruct (Split s) as [|part parts]; [by repeat constructor; cbn; rewrite Hc|].
    inversion IH as [|? ? Hpart Hparts]; subst.
    constructor; [|exact Hparts]. cbn [trimLeft]. by rewrite Hc.
Qed.

Lemma parse_range_error (parts : list string) : forall acc messages e,
  parse_range createMAVLinkMessage parts acc = Some (messages, Some e) ->
  messages = [].
Proof.
  induction parts as [|part parts IH]; intros acc messages e; [discriminate|].
  cbn [parse_range].
  destruct (TrimSpace part) as [trimmed|]; [|discriminate]. cbn [mbind option_bind].
  destruct (decide (trimmed = EmptyString)); [apply IH|].
  destruct (Index trimmed) as [colonIndex|]; [|by intros [= <- _]].
  destruct (TrimSpace (take colonIndex trimmed)) as [messageType|]; [|discriminate].
  cbn [mbind option_bind].
  destruct (TrimSpace (drop (S colonIndex) trimmed)) as [messageName|]; [|discriminate].
  cbn [mbind option_bind].
  destruct (decide (messageType = "mavlink"%string)).
  - destruct (createMAVLinkMessage messageName); [by intros [= <- _]|apply IH].
  - destruct (decide (messageType = "at"%string)); [apply IH|by intros [= <- _]].
Qed.

(** X20. [parseMessages] rejects the empty string, but a string that
    holds only commas and ASCII white space is accepted: it gives no
    message and a nil error. Whenever [parseMessages] returns an error, the
    slice it returns is nil. *)
Theorem parseMessages_skips_blank_parts :
  parseMessages createMAVLinkMessage EmptyString
  = Some ([], Some (Go.New "empty message string"))
  /\ (forall s, s <> EmptyString -> blank s = true ->
      parseMessages createMAVLinkMessage s = Some ([], None))
  /\ (forall s messages e,
      parseMessages createMAVLinkMessage s = Some (messages, Some e) ->
      messages = []).
Proof.
  split; [reflexivity|]. split.
  - intros s Hne Hblank. unfold parseMessages.
    destruct (decide (s = EmptyString)); [done|].
    apply parse_range_blank. by apply Split_blank.
  - intros s messages e. unfold parseMessages.
    destruct (decide (s = EmptyString)); [by intros [= <- _]|].
    apply parse_range_error.
Qed.

Lemma parse_range_modems (cmds : list string) : forall acc,
  Forall (fun cmd => generator.ascii_only cmd = true) cmds ->
  parse_range createMAVLinkMessage (map (String.append "at:") cmds) acc
  = Some (acc ++ map (fun cmd => objects.Modem (AT.NewMessage (trimRight (trimLeft cmd))))
                   cmds, None).
Proof.
  induction cmds as [|cmd cmds IH]; intros acc Hall.
  - cbn. by rewrite app_nil_r.
  - inversion Hall as [|? ? Hcmd Hcmds]; subst. cbn [map].
    rewrite (parse_range_modem _ cmd _ _ (or_introl eq_refl) Hcmd), (IH _ Hcmds).
    by rewrite <- app_assoc.
Qed.

(** X21. A list of modem commands written [at:cmd,at:cmd,...], the
    commands being ASCII without a comma, is parsed into one new modem
    message per command, in the order of the list, each with its command
    trimmed of white space; and [needsAT] is true of the string. *)
Theorem parseMessages_modem_commands (cmds : list string) :
  cmds <> [] ->
  Forall (fun cmd => comma_free cmd = true /\ generator.ascii_only cmd = true) cmds ->
  parseMessages createMAVLinkMessage (String.concat "," (map (String.append "at:") cmds))
  = Some (map (fun cmd => objects.Modem (AT.NewMessage (trimRight (trimLeft cmd)))) cmds,
          None)
  /\ needsAT (String.concat "," (map (String.append "at:") cmds)) = true.
Proof.
  intros Hne Hall.
  assert (Hfree : Forall (fun part => comma_free part = true)
                    (map (String.append "at:") cmds)).
  { apply Forall_map. eapply Forall_impl; [exact Hall|]. intros cmd [Hc _]. exact Hc. }
  assert (Hascii : Forall (fun cmd => generator.ascii_only cmd = true) cmds).
  { eapply Forall_impl; [exact Hall|]. intros cmd [_ Ha]. exact Ha. }
  destruct cmds as [|cmd cmds]; [done|]. split.
  - unfold parseMessages. rewrite Split_concat; [|done|exact Hfree].
    destruct (decide _) as [Habs|_].
    { destruct cmds; discriminate Habs. }
    apply (parse_range_modems (cmd :: cmds) [] Hascii).
  - unfold needsAT. destruct cmds; destruct cmd; reflexivity.
Qed.

(** X22. [parseMessages] trims the type before it compares it, while
    [needsAT] looks for [at:] in the raw string. So for an ASCII command
    without a comma and without [at:] in it, the string [at :cmd] is
    accepted as one modem message and [needsAT] is false of it:
    [initializeRequesters] leaves a nil [processor.AT] nil, and [Request]
    of that message then panics on the nil interface. *)
Theorem needsAT_misses_spaced_type (cmd : string) :
  comma_free cmd = true -> generator.ascii_only cmd = true ->
  Contains cmd "at:" = false ->
  parseMessages createMAVLinkMessage ("at :" +:+ cmd)
  = Some ([objects.Modem (AT.NewMessage (trimRight (trimLeft cmd)))], None)
  /\ needsAT ("at :" +:+ cmd) = false
  /\ forall p NewMavlink NewAT io,
       cellularlog.AT p = None ->
       cellularlog.AT (initializeRequesters p ("at :" +:+ cmd) NewMavlink NewAT).1 = None
       /\ AT.Request (AT.NewMessage (trimRight (trimLeft cmd)))
            (initializeRequesters p ("at :" +:+ cmd) NewMavlink NewAT).1 io
          = Go.Panic Go.nilDeref.
Proof.
  intros Hfree Hascii Hno.
  assert (Hneeds : needsAT ("at :" +:+ cmd) = false).
  { unfold needsAT.
    change ("at :" +:+ cmd)%string
      with (String "a" (String "t" (String " " (String ":" cmd)))).
    cbn [Contains String.prefix]. destruct cmd; cbn; cbn in Hno; exact Hno. }
  split; [|split; [exact Hneeds|]].
  - unfold parseMessages. destruct (decide _) as [Habs|_]; [discriminate Habs|].
    rewrite Split_comma_free by exact Hfree.
    rewrite (parse_range_modem _ cmd _ _ (or_intror eq_refl) Hascii). reflexivity.
  - intros p NewMavlink NewAT io Hnil.
    assert (Hstill : cellularlog.AT
                       (initializeRequesters p ("at :" +:+ cmd) NewMavlink NewAT).1 = None).
    { unfold initializeRequesters. rewrite Hneeds.
      destruct (needsMAVLink _); [destruct NewMavlink|]; exact Hnil. }
    split; [exact Hstill|]. unfold AT.Request. by rewrite Hstill.
Qed.

End CommandLine.

Section Writers.
Import main.
Variable create : nat -> string -> option Go.error.
Variable close : nat -> option Go.error.

Lemma created_app (calls calls' : list Call) :
  created (calls ++ calls') = created calls ++ created calls'.
Proof. induction calls as [|[] calls IH]; simpl; auto. by rewrite IH. Qed.

Lemma closed_app (calls calls' : list Call) :
  closed (calls ++ calls') = closed calls ++ closed calls'.
Proof. induction calls as [|[] calls IH]; simpl; auto. by rewrite IH. Qed.

Lemma close_range_calls (writers : list Opened) : forall n,
  closed (close_range close n writers) = seq n (length writers)
  /\ created (close_range close n writers) = [].
Proof.
  induction writers as [|w writers IH]; intros n; [done|].
  destruct (IH (S n)) as [Hclosed Hcreated]. cbn [close_range closed created].
  rewrite closed_app, created_app, Hclosed, Hcreated.
  by destruct (close n).
Qed.

Lemma createWriter_range_calls (formats : list string) filePrefix :
  forall writers calls result,
  createWriter_range create close formats filePrefix writers = Some (calls, result) ->
  exists new,
    created calls = zip (seq (length writers) (length new)) new
    /\ match result with
       | inl _ => closed calls = seq 0 (length writers + length new)
       | inr all => all = writers ++ new /\ closed calls = []
       end.
Proof.
  induction formats as [|format rest IH]; intros writers calls result.
  - intros [= <- <-]. exists []. by rewrite app_nil_r.
  - cbn [createWriter_range].
    destruct (TrimSpace format) as [trimmed|]; [|discriminate]. cbn [mbind option_bind].
    destruct (createSingleWriter create (length writers) trimmed filePrefix)
      as [err|writer].
    + intros [= <- <-]. exists [].
      destruct (close_range_calls writers 0) as [Hclosed Hcreated].
      rewrite Hcreated, Hclosed. by rewrite Nat.add_0_r.
    + destruct (createWriter_range create close rest filePrefix (writers ++ [writer]))
        as [[calls' result']|] eqn:Hrest; [|discriminate].
      cbn [mbind option_bind]. intros [= <- <-].
      apply IH in Hrest as (new & Hcreated & Hresult).
      rewrite length_app in Hcreated, Hresult. cbn [length] in Hcreated, Hresult.
      exists (writer :: new). cbn [created closed length seq zip zip_with].
      rewrite Hcreated. replace (length writers + 1)%nat with (S (length writers)) by lia.
      split; [reflexivity|]. destruct result' as [err|all].
      * rewrite Hresult. f_equal. lia.
      * destruct Hresult as [-> Hclosed]. split; [by rewrite <- app_assoc|exact Hclosed].
Qed.

(** X23. [createWriter] leaves no writer open when it fails. Whatever
    the formats, the files that can be created and the results of [Close]:
    the writers are made one after the other; a call that returns an error
    has closed every writer it made, each once and in the order of their
    making; a call that returns a writer has closed none, and what it
    returns is the one writer made, or a [MultiWriter] over all the
    writers made, in order. *)
Theorem createWriter_closes_what_it_made (OutputFormat OutputFile : string) calls result :
  createWriter create close OutputFormat OutputFile = Some (calls, result) ->
  (created calls).*1 = seq 0 (length (created calls))
  /\ match result with
     | inl _ => closed calls = (created calls).*1
     | inr (Single writer) => closed calls = [] /\ created calls = [(0%nat, writer)]
     | inr (Multi writers) => closed calls = [] /\ (created calls).*2 = writers
     end.
Proof.
  unfold createWriter.
  assert (Hrange : forall formats,
    ('(calls, result) ← createWriter_range create close formats OutputFile [];
     match result with
     | inl err => Some (calls, inl err)
     | inr writers => Some (calls, inr (Multi writers))
     end) = Some (calls, result) ->
    (created calls).*1 = seq 0 (length (created calls))
    /\ match result with
       | inl _ => closed calls = (created calls).*1
       | inr (Single writer) => closed calls = [] /\ created calls = [(0%nat, writer)]
       | inr (Multi writers) => closed calls = [] /\ (created calls).*2 = writers
       end).
  { intros formats.
    destruct (createWriter_range create close formats OutputFile [])
      as [[calls' result']|] eqn:Hr; [|discriminate]. cbn [mbind option_bind].
    apply createWriter_range_calls in Hr as (new & Hcreated & Hresult).
    cbn [length] in Hcreated, Hresult.
    assert (Hfst : (created calls').*1 = seq 0 (length (created calls'))).
    { rewrite Hcreated, length_zip, length_seq, Nat.min_id.
      apply fst_zip. by rewrite length_seq. }
    assert (Hsnd : (created calls').*2 = new).
    { rewrite Hcreated. apply snd_zip. by rewrite length_seq. }
    destruct result' as [err|all]; intros [= <- <-].
    - split; [exact Hfst|]. rewrite Hresult, Hfst, Hcreated.
      by rewrite length_zip, length_seq, Nat.min_id.
    - destruct Hresult as [-> Hclosed]. split; [exact Hfst|].
      split; [exact Hclosed|exact Hsnd]. }
  destruct (Split OutputFormat) as [|format [|format' formats]]; [apply Hrange| |apply Hrange].
  destruct (createSingleWriter create 0 format OutputFile) as [err|writer];
    intros [= <- <-]; repeat split.
Qed.

(** X24. A single format is not trimmed, the formats of a list are.
    For a supported format written with white space around it,
    [createWriter] returns [unsupported output format]; the same text
    twice, separated by a comma, makes two writers of that format (both
    on the same file) when the files can be created. *)
Theorem createWriter_trims_only_a_list (padded format OutputFile : string) :
  comma_free padded = true ->
  TrimSpace padded = Some format -> padded <> format ->
  format ∈ ["json"; "csv"; "binary"]%string ->
  (forall n name, create n name = None) ->
  createWriter create close padded OutputFile
  = Some ([], inl (Go.New ("unsupported output format: " +:+ padded)))
  /\ exists writer,
       createSingleWriter create 0 format OutputFile = inr writer
       /\ createWriter create close (padded +:+ "," +:+ padded) OutputFile
          = Some ([Created 0 writer; Created 1 writer], inr (Multi [writer; writer])).
Proof.
  intros Hfree Htrim Hne Hformat Hcreate.
  assert (Hsupported : forall n, exists writer,
            createSingleWriter create n format OutputFile = inr writer
            /\ forall m, createSingleWriter create m format OutputFile = inr writer).
  { intros n. rewrite !elem_of_cons in Hformat.
    destruct Hformat as [->|[->|[->|Hnil]]]; [| | |by apply elem_of_nil in Hnil].
    - exists {| kind := JSON; filename := OutputFile +:+ ".json" |}.
      split; [|intros m]; unfold createSingleWriter, NewWriter;
        repeat case_decide; rewrite ?Hcreate; congruence.
    - exists {| kind := CSV; filename := OutputFile +:+ ".csv" |}.
      split; [|intros m]; unfold createSingleWriter, NewWriter;
        repeat case_decide; rewrite ?Hcreate; congruence.
    - exists {| kind := Binary; filename := OutputFile +:+ ".bin" |}.
      split; [|intros m]; unfold createSingleWriter, NewWriter;
        repeat case_decide; rewrite ?Hcreate; congruence. }
  assert (Hnot : forall name, TrimSpace name = Some name -> padded <> name).
  { intros name Hname ->. rewrite Hname in Htrim. by injection Htrim. }
  split.
  - unfold createWriter. rewrite (Split_comma_free padded Hfree).
    unfold createSingleWriter.
    destruct (decide (padded = "json"%string)) as [Heq|_];
      [by apply (Hnot "json"%string) in Heq|].
    destruct (decide (padded = "csv"%string)) as [Heq|_];
      [by apply (Hnot "csv"%string) in Heq|].
    destruct (decide (padded = "binary"%string)) as [Heq|_];
      [by apply (Hnot "binary"%string) in Heq|].
    reflexivity.
  - destruct (Hsupported 0%nat) as (writer & Hfirst & Hany).
    exists writer. split; [exact Hfirst|]. unfold createWriter.
    change (padded +:+ "," +:+ padded)%string with (padded +:+ String "," padded)%string.
    rewrite (Split_cons_comma_free padded padded Hfree), (Split_comma_free padded Hfree).
    cbn [createWriter_range]. rewrite Htrim. cbn [mbind option_bind length].
    rewrite Hfirst. cbn [app length]. rewrite (Hany 1%nat). reflexivity.
Qed.

End Writers.

Lemma parseMessages_skips_blank_parts_witness :
  main.blank " , ," = true
  /\ main.parseMessages (fun _ => inl (Go.New "unknown MAVLink message")) " , ,"
     = Some ([], None).
Proof.
  split; [reflexivity|].
  exact (proj1 (proj2 (parseMessages_skips_blank_parts
                         (fun _ => inl (Go.New "unknown MAVLink message"))))
           " , ,"%string ltac:(discriminate) eq_refl).
Defined.

Lemma parseMessages_modem_commands_witness :
  main.parseMessages (fun _ => inl (Go.New "unknown MAVLink message"))
    "at:+CSQ,at:+CREG? "
  = Some ([objects.Modem (AT.NewMessage "+CSQ"); objects.Modem (AT.NewMessage "+CREG?")],
          None).
Proof.
  exact (proj1 (parseMessages_modem_commands
                  (fun _ => inl (Go.New "unknown MAVLink message"))
                  ["+CSQ"; "+CREG? "]%string ltac:(discriminate)
                  ltac:(repeat constructor))).
Defined.

Lemma needsAT_misses_spaced_type_witness :
  main.parseMessages (fun _ => inl (Go.New "unknown MAVLink message")) "at :+CSQ"
  = Some ([objects.Modem (AT.NewMessage "+CSQ")], None)
  /\ main.needsAT "at :+CSQ" = false.
Proof.
  destruct (needsAT_misses_spaced_type
              (fun _ => inl (Go.New "unknown MAVLink message")) "+CSQ"%string
              eq_refl eq_refl eq_refl) as (Hparse & Hneeds & _).
  split; [exact Hparse|exact Hneeds].
Defined.

Lemma createWriter_closes_what_it_made_witness :
  exists calls e,
    main.createWriter (fun _ _ => None) (fun _ => None) "json,xml" "out"
    = Some (calls, inl e)
    /\ main.closed calls = [0%nat].
Proof.
  eexists. eexists. split; [reflexivity|].
  exact (proj2 (createWriter_closes_what_it_made (fun _ _ => None) (fun _ => None)
                  "json,xml" "out" _ (inl _) eq_refl)).
Defined.

Lemma createWriter_trims_only_a_list_witness :
  main.createWriter (fun _ _ => None) (fun _ => None) " json" "out"
  = Some ([], inl (Go.New "unsupported output format:  json"))
  /\ main.TrimSpace " json" = Some "json"%string.
Proof.
  split; [|reflexivity].
  exact (proj1 (createWriter_trims_only_a_list (fun _ _ => None) (fun _ => None)
                  " json" "json" "out" eq_refl eq_refl ltac:(discriminate)
                  ltac:(left) (fun _ _ => eq_refl))).
Defined.
